(** * REv operator console: device command protocol and energy balancing

    A shallow embedding of the command pipeline of the device library
    (parseCommand, BaseDevice.getCommands / setupCommands / call /
    readCmdMessage) and of the console (executeCommand, the per-device
    promise queue, the telemetry sanitizer, demand inference, the
    connection graph and the Mode 2 balance controller), together with the
    properties stated about them.  The embedding also covers the reader of
    the serial port at the level of chunks, the identification of boards
    (AllDevice), the telemetry sweep, the editing of connections, the device
    panels, the flow editor and the escaping of text.

    Conventions of the embedding.
    - A JavaScript number is a value of [num]: an exact rational, an
      infinity or NaN.  Arithmetic on finite values is exact, so binary64
      rounding and overflow are outside the model.
    - A serial port is an open [port]: the lines still to come from the
      firmware, already trimmed, and the trace of lines sent and read so far.
      A read that finds no line pending is the timed-out read of the source,
      which yields the empty string.  [SerialCommander] has the same read one
      level below, on the chunks that the stream delivers.
    - JavaScript objects used as dictionaries are finite maps over their own
      keys; insertion-ordered [Map]s that the code iterates are lists. *)

From Stdlib Require Import QArith Qround Qabs Qminmax ZArith Lia Lqa.
From Stdlib Require Import String Ascii List.
From stdpp Require Import base option list gmap strings pretty fin_maps.
Import ListNotations.

Local Open Scope string_scope.
Local Open Scope list_scope.

(** ** JavaScript values *)

Module JS.

(** Numbers: finite values are exact rationals. *)
Inductive num : Type :=
| Fin (q : Q)
| Inf (negative : bool)
| NaN.

(** [Number.isFinite]. *)
Definition isFinite (n : num) : bool :=
  match n with Fin _ => true | _ => false end.

(** Boolean comparisons on rationals. *)
Definition Qltb (x y : Q) : bool := if Qlt_le_dec x y then true else false.
Definition Qleb (x y : Q) : bool := if Qlt_le_dec y x then false else true.

(** [a < b] on numbers; any comparison with NaN is false. *)
Definition lt (a b : num) : bool :=
  match a, b with
  | NaN, _ | _, NaN => false
  | Fin x, Fin y => Qltb x y
  | Fin _, Inf neg => negb neg
  | Inf neg, Fin _ => neg
  | Inf n1, Inf n2 => n1 && negb n2
  end.

Definition gt (a b : num) : bool := lt b a.

(** [Math.abs]. *)
Definition abs (n : num) : num :=
  match n with
  | Fin q => Fin (Qabs q)
  | Inf _ => Inf false
  | NaN => NaN
  end.

(** [Math.max] and [Math.min] on finite values. *)
Definition max (x y : Q) : Q := if Qltb x y then y else x.
Definition min (x y : Q) : Q := if Qltb y x then y else x.

(** [Math.round]: the nearest integer, ties towards plus infinity. *)
Definition round (x : Q) : Q := inject_Z (Qfloor (x + (1 # 2))).

(** [Math.round(x * 100) / 100]. *)
Definition round2 (x : Q) : Q := round (x * 100) / 100.

(** ASCII case folding, the part of [toLowerCase] that matters for the
    keywords the code looks for. *)
Definition lower_ascii (c : ascii) : ascii :=
  let n := nat_of_ascii c in
  if (65 <=? n)%nat && (n <=? 90)%nat then ascii_of_nat (n + 32) else c.

Fixpoint toLowerCase (s : string) : string :=
  match s with
  | EmptyString => EmptyString
  | String c r => String (lower_ascii c) (toLowerCase r)
  end.

(** [s.startsWith(p)]. *)
Definition startsWith (p s : string) : bool := String.prefix p s.

(** [s.includes(p)]. *)
Fixpoint includes (p s : string) : bool :=
  String.prefix p s ||
  match s with
  | EmptyString => false
  | String _ r => includes p r
  end.

(** Truthiness of a string. *)
Definition truthy (s : string) : bool :=
  match s with EmptyString => false | _ => true end.

(** [a || b] on strings. *)
Definition or_else (a b : string) : string := if truthy a then a else b.

End JS.

(** ** The serial transport (SerialCommander) *)

Module Transport.

Inductive event : Type :=
| Sent (line : string)
| Read (line : string).

Record port : Type := mkPort {
  inbound : list string;   (* lines the firmware will still deliver *)
  trace : list event       (* what happened on the wire, oldest first *)
}.

(** [sendCommand]: one newline-terminated outbound line. *)
Definition sendCommand (command : string) (p : port) : port :=
  {| inbound := inbound p; trace := trace p ++ [Sent command] |}.

(** [readResponse]: the next inbound line, or [""] on time-out. *)
Definition readResponse (p : port) : string * port :=
  match inbound p with
  | [] => ("", {| inbound := []; trace := trace p ++ [Read ""] |})
  | l :: rest => (l, {| inbound := rest; trace := trace p ++ [Read l] |})
  end.

(** The outbound lines of a trace, in order. *)
Fixpoint sent (tr : list event) : list string :=
  match tr with
  | [] => []
  | Sent l :: r => l :: sent r
  | Read _ :: r => sent r
  end.

(** The inbound lines read in a trace, in order. *)
Fixpoint reads (tr : list event) : list string :=
  match tr with
  | [] => []
  | Sent _ :: r => reads r
  | Read l :: r => l :: reads r
  end.

End Transport.

(** ** The serial reader at the level of chunks (SerialCommander) *)

Module SerialCommander.

(** White space as [trim] sees it, within ASCII. *)
Definition is_space (c : ascii) : bool :=
  let n := nat_of_ascii c in
  ((9 <=? n)%nat && (n <=? 13)%nat) || (n =? 32)%nat.

Fixpoint trimStart (s : string) : string :=
  match s with
  | EmptyString => EmptyString
  | String c r => if is_space c then trimStart r else s
  end.

Fixpoint trimEnd (s : string) : string :=
  match s with
  | EmptyString => EmptyString
  | String c r =>
      match trimEnd r with
      | EmptyString => if is_space c then EmptyString else String c EmptyString
      | r' => String c r'
      end
  end.

(** [s.trim()]. *)
Definition trim (s : string) : string := trimEnd (trimStart s).

Definition newline : ascii := ascii_of_nat 10.

(** [s.split('\n')] cut after its first element: [None] when there is no
    line feed, otherwise the text before the first line feed and the text
    after it, which is [lines.slice(1).join('\n')]. *)
Fixpoint splitLine (s : string) : option (string * string) :=
  match s with
  | EmptyString => None
  | String c r =>
      if Ascii.eqb c newline then Some (EmptyString, r)
      else
        match splitLine r with
        | Some (l, rest) => Some (String c l, rest)
        | None => None
        end
  end.

(** The reader: the text buffered so far and the chunks that the stream
    will still deliver before the deadline of the read in progress. *)
Record reader : Type := mkReader {
  readBuffer : string;
  incoming : list string
}.

(** [readResponse(timeout)] on an open port.  [budget] counts how often the
    deadline test at the head of the loop succeeds; a read for which no
    chunk is pending ends at its deadline with the empty string. *)
Fixpoint readResponse (budget : nat) (r : reader) : string * reader :=
  match budget with
  | O => (EmptyString, r)
  | S budget' =>
      match incoming r with
      | [] => (EmptyString, r)
      | value :: later =>
          let buffer := readBuffer r +:+ value in
          match splitLine buffer with
          | Some (line, rest) =>
              (trim line, {| readBuffer := rest; incoming := later |})
          | None =>
              readResponse budget'
                {| readBuffer := buffer; incoming := later |}
          end
      end
  end.

End SerialCommander.

(** ** The device library (BaseDevice and its helpers) *)

Module Device.
Import Transport.

(** *** parseCommand *)

Definition is_letter_ (c : ascii) : bool :=
  let n := nat_of_ascii c in
  ((65 <=? n)%nat && (n <=? 90)%nat) ||
  ((97 <=? n)%nat && (n <=? 122)%nat) ||
  (n =? 95)%nat.

Definition is_digit (c : ascii) : bool :=
  let n := nat_of_ascii c in (48 <=? n)%nat && (n <=? 57)%nat.

(** The longest prefix whose characters satisfy [f], and the rest: a greedy
    character-class repetition. *)
Fixpoint span (f : ascii -> bool) (s : string) : string * string :=
  match s with
  | EmptyString => (EmptyString, EmptyString)
  | String c r =>
      if f c then let '(a, b) := span f r in (String c a, b)
      else (EmptyString, s)
  end.

(** [parseInt] on a string of decimal digits. *)
Definition digit_val (c : ascii) : nat := nat_of_ascii c - 48.

Fixpoint parseInt_acc (acc : nat) (s : string) : nat :=
  match s with
  | EmptyString => acc
  | String c r => parseInt_acc (10 * acc + digit_val c) r
  end.

Definition parseInt (s : string) : nat := parseInt_acc 0 s.

(** One optional group [(?:m(\d+))?]: the marker [m] followed by at least one
    digit.  When it does not match, nothing is consumed. *)
Definition opt_group (m : ascii) (s : string) : option string * string :=
  match s with
  | String c r =>
      if Ascii.eqb c m then
        match span is_digit r with
        | (EmptyString, _) => (None, s)
        | (ds, rest) => (Some ds, rest)
        end
      else (None, s)
  | EmptyString => (None, s)
  end.

Record parsed : Type := mkParsed {
  command : string;
  numOfOutput : nat;
  numOfInput : nat
}.

(** [cmdName.match(/^([a-zA-Z_]+)(?:>(\d+))?(?:<(\d+))?/)]: the groups are
    greedy and every later group is optional, so the first greedy attempt is
    the match. *)
Definition parseCommand (cmdName : string) : parsed :=
  match span is_letter_ cmdName with
  | (EmptyString, _) =>
      {| command := cmdName; numOfOutput := 0; numOfInput := 0 |}
  | (name, rest) =>
      let '(out, rest1) := opt_group ">" rest in
      let '(inp, _) := opt_group "<" rest1 in
      {| command := name;
         numOfOutput := match out with Some ds => parseInt ds | None => 0 end;
         numOfInput := match inp with Some ds => parseInt ds | None => 0 end |}
  end.

(** *** Cmd and BaseDevice *)

Record Cmd : Type := mkCmd {
  name : string;
  inArg : nat;
  outArg : nat
}.

Record BaseDevice : Type := mkDevice {
  port_of : port;
  cmds : gmap string Cmd;
  errors : list string     (* console.error output *)
}.

Definition with_port (d : BaseDevice) (p : port) : BaseDevice :=
  {| port_of := p; cmds := cmds d; errors := errors d |}.

Definition maxBlankStreak : nat := 50.

(** The loop of [getCommands].  [cmdName] is the line read last.  [budget]
    counts how many more times the deadline test at the loop head
    ([Date.now() - start < timeoutMs]) will succeed. *)
Fixpoint getCommands_loop (budget maxCommands : nat) (cmdName : string)
    (blankStreak : nat) (lines : list string) (p : port)
    : list string * port :=
  match budget with
  | O => (lines, p)
  | S budget' =>
      if (maxCommands <=? length lines)%nat then (lines, p)
      else if negb (JS.truthy cmdName) then
        let blankStreak := S blankStreak in
        if (maxBlankStreak <=? blankStreak)%nat then (lines, p)
        else
          let '(next, p1) := readResponse p in
          getCommands_loop budget' maxCommands next blankStreak lines p1
      else if String.eqb cmdName "eoc" then (lines, p)
      else
        let lines := lines ++ [cmdName] in
        let p1 := sendCommand cmdName p in
        let '(next, p2) := readResponse p1 in
        getCommands_loop budget' maxCommands next 0 lines p2
  end.

(** [getCommands({ timeoutMs, maxCommands })]. *)
Definition getCommands (budget maxCommands : nat) (p : port)
    : list string * port :=
  let p0 := sendCommand "getCommands" p in
  let '(first, p1) := readResponse p0 in
  getCommands_loop budget maxCommands first 0 [] p1.

(** The body of the loop of [setupCommands]. *)
Definition register (cs : gmap string Cmd) (cmdName : string)
    : gmap string Cmd :=
  if negb (JS.truthy cmdName) || String.eqb cmdName "eoc" then cs
  else
    let r := parseCommand cmdName in
    <[command r := mkCmd (command r) (numOfInput r) (numOfOutput r)]> cs.

(** [setupCommands]. *)
Definition setupCommands (budget : nat) (d : BaseDevice) : BaseDevice :=
  let '(raw, p) := getCommands budget 128 (port_of d) in
  {| port_of := p; cmds := foldl register (cmds d) raw; errors := errors d |}.

(** The reading loop of [readCmdMessage]. *)
Fixpoint read_lines (count : nat) (data : list string) (p : port)
    : list string * port :=
  match count with
  | O => (data, p)
  | S n =>
      let '(response, p1) := readResponse p in
      read_lines n (data ++ [response]) p1
  end.

(** The message of [console.error], in English. *)
Definition not_in_menu (cmdName : string) : string :=
  "'" +:+ cmdName +:+ "' is not in the command menu".

(** [readCmdMessage(cmdName, returnValue)]; the result is [None] for null. *)
Definition readCmdMessage (cmdName : string) (d : BaseDevice)
    : option (list string) * BaseDevice :=
  match cmds d !! cmdName with
  | None =>
      (None, {| port_of := port_of d; cmds := cmds d;
                errors := errors d ++ [not_in_menu cmdName] |})
  | Some c =>
      let count := (inArg c + outArg c)%nat in
      let p0 := sendCommand cmdName (port_of d) in
      let '(data, p1) := read_lines count [] p0 in
      (Some data, with_port d p1)
  end.

(** [call(cmdName, returnValue)]. *)
Definition call (cmdName : string) (d : BaseDevice)
    : option (list string) * BaseDevice :=
  match cmds d !! cmdName with
  | None =>
      (None, {| port_of := port_of d; cmds := cmds d;
                errors := errors d ++ [not_in_menu cmdName] |})
  | Some c =>
      if (inArg c =? 0)%nat && (outArg c =? 0)%nat then
        (None, with_port d (sendCommand cmdName (port_of d)))
      else readCmdMessage cmdName d
  end.

(** *** removeTrailingNumber *)

(** [s.replace(/\d+$/, '')]: the match is tried at every position from the
    left and succeeds at the first one from which only digits, and at least
    one, remain. *)
Fixpoint removeTrailingNumber (s : string) : string :=
  match s with
  | EmptyString => EmptyString
  | String c r =>
      match span is_digit s with
      | (String _ _, EmptyString) => EmptyString
      | _ => String c (removeTrailingNumber r)
      end
  end.

End Device.

(** ** The console application (app.js) *)

Module App.
Import Transport Device.
Local Open Scope Q_scope.

(** *** Telemetry sanitizer *)

(** [sanitizeMetricNumber(field, value)]; [None] is null, for the argument
    and for the result. *)
Definition sanitizeMetricNumber (field : string) (value : option JS.num)
    : option JS.num :=
  match value with
  | None => None
  | Some n =>
      if negb (JS.isFinite n) then None
      else if String.eqb field "volts" && JS.lt n (JS.Fin 0) then None
      else if String.eqb field "volts" && JS.gt n (JS.Fin 1000) then None
      else if String.eqb field "kw" && JS.gt (JS.abs n) (JS.Fin 1000) then None
      else Some n
  end.

(** *** Demand inference *)

(** The auto-estimate fields of the manager.  A field is [None] when it does
    not hold a value of type number. *)
Record inference : Type := mkInference {
  autoEstEnabled : bool;
  autoEstDemandKW : option JS.num;
  autoEstLastSupplyKW : option JS.num;
  autoEstAlpha : option JS.num;
  autoEstMaxStepKW : option JS.num
}.

(** [typeof this.autoEstAlpha === 'number' && Number.isFinite(..) ?
    Math.max(0.05, Math.min(0.95, ..)) : 0.35]. *)
Definition smoothing (s : inference) : Q :=
  match autoEstAlpha s with
  | Some (JS.Fin a) => JS.max (5 # 100) (JS.min (95 # 100) a)
  | _ => 35 # 100
  end.

(** [... ? Math.max(0.1, this.autoEstMaxStepKW) : 1.0]. *)
Definition stepLimit (s : inference) : Q :=
  match autoEstMaxStepKW s with
  | Some (JS.Fin m) => JS.max (1 # 10) m
  | _ => 1
  end.

Definition remember (s : inference) (demand supply : Q) : inference :=
  {| autoEstEnabled := autoEstEnabled s;
     autoEstDemandKW := Some (JS.Fin demand);
     autoEstLastSupplyKW := Some (JS.Fin supply);
     autoEstAlpha := autoEstAlpha s;
     autoEstMaxStepKW := autoEstMaxStepKW s |}.

(** [inferDemandKW(totalSupplyKW, manualDemandKW)].  The two tests on
    [this.autoEstDemandKW] are complementary, so the block after them in the
    source is never reached. *)
Definition inferDemandKW (totalSupplyKW manualDemandKW : option JS.num)
    (s : inference) : option Q * inference :=
  if negb (autoEstEnabled s) then (None, s)
  else
    match totalSupplyKW with
    | Some (JS.Fin supply) =>
        if JS.Qleb supply 0 then (None, s)
        else
          let manual :=
            match manualDemandKW with Some (JS.Fin m) => m | _ => 0 end in
          let floor := JS.max 0 manual in
          let rawTarget := JS.max floor supply in
          match autoEstDemandKW s with
          | Some (JS.Fin prev) =>
              let maxStep := stepLimit s in
              let bounded :=
                prev + JS.max (- maxStep) (JS.min maxStep (rawTarget - prev)) in
              let a := smoothing s in
              let next := (a * bounded) + ((1 - a) * prev) in
              (Some next, remember s next supply)
          | _ => (Some rawTarget, remember s rawTarget supply)
          end
    | _ => (None, s)
    end.

(** *** Devices, estimates and the manager state *)

Record deviceInfo : Type := mkInfo {
  id : string;
  name : string;
  type : string;                       (* 'provider' or 'consumer' *)
  commands : list string;
  revidyneDevice : option BaseDevice;
  lastCommand : string;
  lastStatus : string;
  portKey : string;                    (* [""] when absent *)
  path : string;
  serialNumber : string
}.

(** A persisted power estimate; a field is [None] when it is absent. *)
Record powerEst : Type := mkEst {
  ratedW : option JS.num;
  utilization : option JS.num;
  capacityKW : option JS.num;
  availability : option JS.num
}.

Definition noEst : powerEst :=
  {| ratedW := None; utilization := None;
     capacityKW := None; availability := None |}.

Record edge : Type := mkEdge {
  fromId : string;
  toId : string;
  kw : option JS.num
}.

Record logEntry : Type := mkLog {
  deviceName : string;
  command : string;
  args : list string;
  result : string;
  error : string;
  safeMode : bool
}.

Record lastApplied : Type := mkLast {
  genId : string;
  targetKW : Q
}.

Record manager : Type := mkManager {
  connectedDevices : list deviceInfo;   (* Map, in insertion order *)
  availableDevices : list deviceInfo;
  connections : list edge;
  loadPowerEst : string -> option powerEst;
  preferManualEstimates : bool;
  safeModeEnabled : bool;
  commandLog : list logEntry;
  connMode2LastApplied : option lastApplied;
  connMode2InFlight : bool
}.

(** [Map.get] and [Map.set] on the device maps. *)
Definition Map_get (k : string) (m : list deviceInfo) : option deviceInfo :=
  List.find (fun d => String.eqb (id d) k) m.

Fixpoint Map_set (d : deviceInfo) (m : list deviceInfo) : list deviceInfo :=
  match m with
  | [] => [d]
  | x :: r => if String.eqb (id x) (id d) then d :: r else x :: Map_set d r
  end.

(** *** Power estimation *)

(** [clamp01]. *)
Definition clamp01 (v : JS.num) : Q :=
  match v with
  | JS.Fin n => JS.max 0 (JS.min 1 n)
  | _ => 0
  end.

(** [parsePositiveNumber] on a field that is absent or a number. *)
Definition parsePositiveNumber (v : option JS.num) : option Q :=
  match v with
  | Some (JS.Fin n) => if JS.Qltb n 0 then None else Some n
  | _ => None
  end.

Record estimated : Type := mkEstimated {
  est_kw : option Q;
  source : string
}.

Definition estimateOf (d : deviceInfo) (est : powerEst) : option estimated :=
  if String.eqb (type d) "consumer" then
    match parsePositiveNumber (ratedW est) with
    | Some rated =>
        let util := clamp01 (default (JS.Fin 1) (utilization est)) in
        Some {| est_kw := Some ((rated * util) / 1000); source := "estimate" |}
    | None => None
    end
  else if String.eqb (type d) "provider" then
    match parsePositiveNumber (capacityKW est) with
    | Some cap =>
        let avail := clamp01 (default (JS.Fin 1) (availability est)) in
        Some {| est_kw := Some (cap * avail); source := "estimate" |}
    | None => None
    end
  else None.

(** [computeEstimatedKW(deviceInfo, metric)]; [metric] is [None] for a null
    metric and otherwise carries the sample's [kw] field. *)
Definition computeEstimatedKW (s : manager) (d : deviceInfo)
    (metric : option (option JS.num)) : estimated :=
  let est := default noEst (loadPowerEst s (name d)) in
  let none := {| est_kw := None; source := "none" |} in
  match (if preferManualEstimates s then estimateOf d est else None) with
  | Some e => e
  | None =>
      match metric with
      | Some (Some (JS.Fin k)) => {| est_kw := Some k; source := "telemetry" |}
      | _ =>
          if String.eqb (type d) "consumer" || String.eqb (type d) "provider"
          then default none (estimateOf d est)
          else none
      end
  end.

(** *** The connection graph *)

(** [getConnDiagramId]. *)
Definition getConnDiagramId (d : deviceInfo) : string :=
  let key :=
    JS.or_else (portKey d) (JS.or_else (path d)
      (JS.or_else (serialNumber d) (JS.or_else (name d) "device"))) in
  let base := if JS.truthy (id d) then id d else key in
  if JS.startsWith "dev:" base then base else "dev:" +:+ base.

(** [getConnectionKW]. *)
Definition getConnectionKW (e : edge) : Q :=
  match kw e with
  | Some (JS.Fin k) => if JS.Qleb 0 k then k else 0
  | _ => 0
  end.

Definition allDevices (s : manager) : list deviceInfo :=
  connectedDevices s ++ availableDevices s.

(** The [kw] stored by [loadConnections] and [normalizeConnections]:
    [(e.kw != null && Number.isFinite(Number(e.kw))) ? Number(e.kw) : null]. *)
Definition finiteOrNull (k : option JS.num) : option JS.num :=
  match k with
  | Some (JS.Fin q) => Some (JS.Fin q)
  | _ => None
  end.

Definition edgeKey (a b : string) : string := a +:+ "=>" +:+ b.

Definition has (k : string) (set : list string) : bool :=
  existsb (String.eqb k) set.

(** The loop of [normalizeConnections]; [seen] and [out] are its two
    accumulators. *)
Fixpoint normalize_loop (existingIds : list string) (seen : list string)
    (out : list edge) (es : list edge) : list edge :=
  match es with
  | [] => out
  | e :: rest =>
      let a := fromId e in
      let b := toId e in
      if negb (JS.truthy a) || negb (JS.truthy b) then
        normalize_loop existingIds seen out rest
      else if negb (has a existingIds) || negb (has b existingIds) then
        normalize_loop existingIds seen out rest
      else
        let k := edgeKey a b in
        if has k seen then normalize_loop existingIds seen out rest
        else
          normalize_loop existingIds (seen ++ [k])
            (out ++ [{| fromId := a; toId := b; kw := finiteOrNull (kw e) |}])
            rest
  end.

Definition existingIds (s : manager) : list string :=
  List.map getConnDiagramId (allDevices s).

Definition with_connections (s : manager) (es : list edge) : manager :=
  {| connectedDevices := connectedDevices s;
     availableDevices := availableDevices s;
     connections := es;
     loadPowerEst := loadPowerEst s;
     preferManualEstimates := preferManualEstimates s;
     safeModeEnabled := safeModeEnabled s;
     commandLog := commandLog s;
     connMode2LastApplied := connMode2LastApplied s;
     connMode2InFlight := connMode2InFlight s |}.

(** [normalizeConnections]. *)
Definition normalizeConnections (s : manager) : manager :=
  with_connections s (normalize_loop (existingIds s) [] [] (connections s)).

(** [giveBy.set(k, (giveBy.get(k) || 0) + kw)]. *)
Definition bump (k : string) (v : Q) (m : gmap string Q) : gmap string Q :=
  <[k := default 0 (m !! k) + v]> m.

(** [computeConnTotals]: the pair [(giveBy, getBy)]. *)
Definition computeConnTotals (s : manager) : gmap string Q * gmap string Q :=
  fold_left
    (fun acc e =>
       let k := getConnectionKW e in
       (bump (fromId e) k (fst acc), bump (toId e) k (snd acc)))
    (connections s) (∅, ∅).

(** *** Command execution *)

(** [addCommandLog]: the log keeps its 500 most recent entries. *)
Definition addCommandLog (entry : logEntry) (log : list logEntry)
    : list logEntry :=
  let log' := log ++ [entry] in
  if (500 <? length log')%nat then tail log' else log'.

(** [String(cmdName || '').toLowerCase().startsWith('set')]. *)
Definition isSetCmd (cmdName : string) : bool :=
  JS.startsWith "set" (JS.toLowerCase cmdName).

Definition blockedMessage (cmdName : string) : string :=
  "Blocked by Demo/Safe Mode: " +:+ cmdName.

(** [formatForLog]. *)
Definition formatForLog (value : option (list string)) : string :=
  match value with
  | None => ""
  | Some l => String.concat " | " l
  end.

(** [hasPayload]. *)
Definition hasPayload (value : option (list string)) : bool :=
  match value with
  | Some (_ :: _) => true
  | _ => false
  end.

(** The options of a command execution request.  [opt_args] is the
    explicit argument list when [options.args] is an array;
    [opt_prompt_null] says that [options.prompt] is null. *)
Record options : Type := mkOptions {
  opt_args : option (list string);
  opt_prompt_null : bool
}.

Definition with_device (s : manager) (d : deviceInfo) : manager :=
  {| connectedDevices := Map_set d (connectedDevices s);
     availableDevices := availableDevices s;
     connections := connections s;
     loadPowerEst := loadPowerEst s;
     preferManualEstimates := preferManualEstimates s;
     safeModeEnabled := safeModeEnabled s;
     commandLog := commandLog s;
     connMode2LastApplied := connMode2LastApplied s;
     connMode2InFlight := connMode2InFlight s |}.

Definition with_log (s : manager) (entry : logEntry) : manager :=
  {| connectedDevices := connectedDevices s;
     availableDevices := availableDevices s;
     connections := connections s;
     loadPowerEst := loadPowerEst s;
     preferManualEstimates := preferManualEstimates s;
     safeModeEnabled := safeModeEnabled s;
     commandLog := addCommandLog entry (commandLog s);
     connMode2LastApplied := connMode2LastApplied s;
     connMode2InFlight := connMode2InFlight s |}.

Definition mark (d : deviceInfo) (dev : option BaseDevice)
    (cmdName status : string) : deviceInfo :=
  {| id := id d; name := name d; type := type d; commands := commands d;
     revidyneDevice := dev;
     lastCommand := cmdName; lastStatus := status;
     portKey := portKey d; path := path d; serialNumber := serialNumber d |}.

(** The wire part of the queued task: with arguments, the name and then each
    argument on its own line, then [outArg] reads; without arguments, the
    device's own [call]. *)
Definition run_command (cmdName : string) (args : list string)
    (dev : BaseDevice) : option (list string) * BaseDevice :=
  if (0 <? length args)%nat then
    let p1 := sendCommand cmdName (port_of dev) in
    let p2 := fold_left (fun p a => sendCommand a p) args p1 in
    let outArg :=
      match cmds dev !! cmdName with Some c => outArg c | None => O end in
    if (0 <? outArg)%nat then
      let '(data, p3) := read_lines outArg [] p2 in
      (Some data, with_port dev p3)
    else (None, with_port dev p2)
  else Device.call cmdName dev.

(** The queued task of [executeCommand], run to completion, every transport
    operation finishing within its deadline.  [reply] is what
    the operator answers if asked for values: [None] when the dialog is
    cancelled, otherwise the whitespace-separated words typed.  The first
    component is the local [result] of the task, when the task gets that
    far. *)
Definition executeCommand_task (device : deviceInfo) (dev : BaseDevice)
    (cmdName : string) (opts : options) (reply : option (list string))
    (s : manager) : option (option (list string)) * manager :=
  let inArg :=
    match cmds dev !! cmdName with Some c => inArg c | None => O end in
  let needsInput := (0 <? inArg)%nat || JS.startsWith "set" cmdName in
  let proceed (args : list string) :=
    let '(result, dev') := run_command cmdName args dev in
    let s1 := with_device s (mark device (Some dev') cmdName "OK") in
    (Some result,
     with_log s1
       {| deviceName := name device; command := cmdName; args := args;
          result := if hasPayload result then formatForLog result
                    else "sent (no payload)";
          error := ""; safeMode := false |}) in
  match opt_args opts with
  | Some args => proceed args
  | None =>
      if needsInput && negb (opt_prompt_null opts) then
        match reply with
        | None =>
            let s1 := with_device s (mark device (Some dev) cmdName "RUNNING") in
            (None,
             with_log s1
               {| deviceName := name device; command := cmdName; args := [];
                  result := ""; error := "cancelled"; safeMode := false |})
        | Some words => proceed words
        end
      else proceed []
  end.

(** [executeCommand(deviceId, cmdName, options)]. *)
Definition executeCommand (deviceId cmdName : string) (opts : options)
    (reply : option (list string)) (s : manager) : manager :=
  match Map_get deviceId (connectedDevices s) with
  | None => s
  | Some device =>
      match revidyneDevice device with
      | None => s
      | Some dev =>
          if safeModeEnabled s && isSetCmd cmdName then
            let s1 :=
              with_log s
                {| deviceName := name device; command := cmdName;
                   args := default [] (opt_args opts);
                   result := ""; error := blockedMessage cmdName;
                   safeMode := true |} in
            with_device s1 (mark device (Some dev) cmdName "BLOCKED")
          else snd (executeCommand_task device dev cmdName opts reply s)
      end
  end.

(** [String(v)] for a non-negative number below 1e21 with at most two
    decimals, which is what Mode 2 passes. *)
Definition numberToString (v : Q) : string :=
  let h := Z.to_N (Qfloor (v * 100)) in
  let whole := (h / 100)%N in
  let frac := (h mod 100)%N in
  pretty whole +:+
  (if (frac =? 0)%N then ""
   else "." +:+ pretty (frac / 10)%N +:+
        (if (frac mod 10 =? 0)%N then "" else pretty (frac mod 10)%N)).

(** [setGeneratorLoad(deviceId, value)] for a finite [value]. *)
Definition setGeneratorLoad (deviceId : string) (v : Q) (s : manager)
    : manager :=
  match Map_get deviceId (connectedDevices s) with
  | None => s
  | Some _ =>
      if JS.Qltb v 0 then s
      else
        executeCommand deviceId "setLoad"
          {| opt_args := Some [numberToString v]; opt_prompt_null := false |}
          None s
  end.

(** *** Mode 2 *)

Definition isGenerator (d : deviceInfo) : bool :=
  JS.includes "generator" (JS.toLowerCase (name d)).

(** [getConnectedGeneratorDevices]. *)
Definition getConnectedGeneratorDevices (s : manager) : list deviceInfo :=
  List.filter (fun d => isGenerator d && has "setLoad" (commands d))
    (connectedDevices s).

Record mode2 : Type := mkMode2 {
  demandKW : Q;
  otherSupplyKW : Q;
  deficitKW : Q
}.

(** [computeMode2TargetKW]. *)
Definition computeMode2TargetKW (s : manager) : mode2 :=
  let demandKW :=
    fold_left (fun acc e => acc + getConnectionKW e) (connections s) 0 in
  let otherSupplyKW :=
    fold_left
      (fun acc d =>
         if negb (String.eqb (type d) "provider") then acc
         else if isGenerator d then acc
         else
           match est_kw (computeEstimatedKW s d None) with
           | Some k => acc + k
           | None => acc
           end)
      (allDevices s) 0 in
  {| demandKW := demandKW; otherSupplyKW := otherSupplyKW;
     deficitKW := JS.max 0 (demandKW - otherSupplyKW) |}.

(** The optional cap of [applyConnectionsMode2]: [maxKW]. *)
Definition capOf (s : manager) (gen : deviceInfo) : option Q :=
  match est_kw (computeEstimatedKW s gen None) with
  | Some k => if JS.Qleb 0 k then Some k else None
  | None => None
  end.

(** [targetRounded] of [applyConnectionsMode2]. *)
Definition targetRounded (s : manager) (gen : deviceInfo) : Q :=
  let m := computeMode2TargetKW s in
  let targetKW :=
    match capOf s gen with
    | None => deficitKW m
    | Some maxKW => JS.min (deficitKW m) maxKW
    end in
  JS.round2 targetKW.

(** [isSameTarget] of [applyConnectionsMode2]. *)
Definition isSameTarget (s : manager) (gen : deviceInfo) (target : Q) : bool :=
  match connMode2LastApplied s with
  | None => false
  | Some last =>
      String.eqb (genId last) (id gen) &&
      JS.Qltb (Qabs (targetKW last - target)) (1 # 100)
  end.

Definition with_mode2 (s : manager) (last : option lastApplied)
    (inFlight : bool) : manager :=
  {| connectedDevices := connectedDevices s;
     availableDevices := availableDevices s;
     connections := connections s;
     loadPowerEst := loadPowerEst s;
     preferManualEstimates := preferManualEstimates s;
     safeModeEnabled := safeModeEnabled s;
     commandLog := commandLog s;
     connMode2LastApplied := last;
     connMode2InFlight := inFlight |}.

(** [applyConnectionsMode2]. *)
Definition applyConnectionsMode2 (s : manager) : manager :=
  if connMode2InFlight s then s
  else
    let s0 := with_mode2 s (connMode2LastApplied s) true in
    let done (s' : manager) := with_mode2 s' (connMode2LastApplied s') false in
    match getConnectedGeneratorDevices s0 with
    | [] => done s0
    | gen :: _ =>
        let target := targetRounded s0 gen in
        if safeModeEnabled s0 then done s0
        else if isSameTarget s0 gen target then done s0
        else
          let s1 := setGeneratorLoad (id gen) target s0 in
          with_mode2 s1 (Some {| genId := id gen; targetKW := target |}) false
    end.

(** The trace of the device registered under [deviceId], if it is connected
    and has a transport handle. *)
Definition wire (deviceId : string) (s : manager) : option (list event) :=
  match Map_get deviceId (connectedDevices s) with
  | Some d =>
      match revidyneDevice d with
      | Some dev => Some (trace (port_of dev))
      | None => None
      end
  | None => None
  end.

(** All traces, device by device. *)
Definition wires (s : manager) : list (option (list event)) :=
  List.map
    (fun d => option_map (fun dev => trace (port_of dev)) (revidyneDevice d))
    (connectedDevices s ++ availableDevices s).

(** *** Fan speed *)

(** [Math.max(0, Math.min(10, Math.round(Number(value))))], given
    [Number(value)]; [None] is NaN. *)
Definition fanSpeedValue (value : JS.num) : option Q :=
  match value with
  | JS.Fin q => Some (JS.max 0 (JS.min 10 (JS.round q)))
  | JS.Inf negative => Some (if negative then 0 else 10)
  | JS.NaN => None
  end.

(** [setFanSpeed(deviceId, value)]. *)
Definition setFanSpeed (deviceId : string) (value : JS.num)
    (reply : option (list string)) (s : manager) : manager :=
  match Map_get deviceId (connectedDevices s) with
  | None => s
  | Some _ =>
      let v :=
        match fanSpeedValue value with
        | Some q => numberToString q
        | None => "NaN"
        end in
      executeCommand deviceId "setSpeed"
        {| opt_args := Some [v]; opt_prompt_null := false |} reply s
  end.

(** *** Creating, editing and removing connections *)

(** [all.find(d => this.getConnDiagramId(d) === id)]. *)
Definition findByDiagramId (s : manager) (deviceId : string)
    : option deviceInfo :=
  List.find (fun d => String.eqb (getConnDiagramId d) deviceId) (allDevices s).

(** [getSupplyForDeviceId]. *)
Definition getSupplyForDeviceId (s : manager) (deviceId : string) : option Q :=
  match findByDiagramId s deviceId with
  | None => None
  | Some dev => est_kw (computeEstimatedKW s dev None)
  end.

(** [getDemandForDeviceId]. *)
Definition getDemandForDeviceId (s : manager) (deviceId : string) : option Q :=
  match findByDiagramId s deviceId with
  | None => None
  | Some dev => est_kw (computeEstimatedKW s dev None)
  end.

(** [autoAssignConnectionKW(fromId, toId)]. *)
Definition autoAssignConnectionKW (s : manager) (from to : string) : Q :=
  if negb (JS.truthy from) || negb (JS.truthy to) then 0
  else
    match getSupplyForDeviceId s from, getDemandForDeviceId s to with
    | Some supply, Some demand =>
        let outgoing :=
          List.filter (fun e => String.eqb (fromId e) from) (connections s) in
        let totalAssigned :=
          fold_left (fun acc e => acc + getConnectionKW e) outgoing 0 in
        let remaining := JS.max 0 (supply - totalAssigned) in
        JS.max 0 (JS.min remaining demand)
    | _, _ => 0
    end.

(** The click on the consumer block [to] while [from] is the pending
    provider ([connPendingFrom], [""] when there is none): the edge is added
    unless one with the same key is there already. *)
Definition connectConsumer (s : manager) (from to : string) : manager :=
  if negb (JS.truthy to) then s
  else if negb (JS.truthy from) then s
  else
    let k := edgeKey from to in
    if existsb (fun e => String.eqb (edgeKey (fromId e) (toId e)) k)
         (connections s)
    then s
    else
      let kw := autoAssignConnectionKW s from to in
      with_connections s
        (connections s ++ [{| fromId := from; toId := to;
                              kw := Some (JS.Fin kw) |}]).



(** [removeConnection(fromId, toId)]. *)
Definition removeConnection (s : manager) (a b : string) : manager :=
  if negb (JS.truthy a) || negb (JS.truthy b) then s
  else
    with_connections s
      (List.filter
         (fun e => negb (String.eqb (fromId e) a && String.eqb (toId e) b))
         (connections s)).

(** *** Auto-estimate settings *)

(** [setAutoEstimateEnabled(v)]: the inference state is reset whenever the
    switch is set. *)
Definition setAutoEstimateEnabled (v : bool) (s : inference) : inference :=
  {| autoEstEnabled := v;
     autoEstDemandKW := None;
     autoEstLastSupplyKW := None;
     autoEstAlpha := autoEstAlpha s;
     autoEstMaxStepKW := autoEstMaxStepKW s |}.

(** [loadAutoEstimateTuning]: [raw] is [None] when nothing is stored or the
    stored text does not parse, and otherwise carries [Number(v.alpha)] and
    [Number(v.maxStepKW)].  The result is the pair [(alpha, maxStepKW)]. *)
Definition loadAutoEstimateTuning (raw : option (JS.num * JS.num)) : Q * Q :=
  match raw with
  | None => (35 # 100, 1)
  | Some (alpha, maxStepKW) =>
      (match alpha with
       | JS.Fin a => JS.max (5 # 100) (JS.min (95 # 100) a)
       | _ => 35 # 100
       end,
       match maxStepKW with
       | JS.Fin m => JS.max (1 # 10) (JS.min 20 m)
       | _ => 1
       end)
  end.

(** The tuning fields as the constructor sets them from the loaded pair. *)
Definition with_tuning (s : inference) (t : Q * Q) : inference :=
  {| autoEstEnabled := autoEstEnabled s;
     autoEstDemandKW := autoEstDemandKW s;
     autoEstLastSupplyKW := autoEstLastSupplyKW s;
     autoEstAlpha := Some (JS.Fin (fst t));
     autoEstMaxStepKW := Some (JS.Fin (snd t)) |}.

(** *** Live telemetry *)

(** The fraction of a number literal: the digits of [(?:\.\d+)?], empty when
    the group does not match. *)
Definition fraction (rest : string) : string :=
  match rest with
  | String c r =>
      if Ascii.eqb c "." then fst (span is_digit r) else EmptyString
  | EmptyString => EmptyString
  end.

(** [Number] of a literal matched by [-?\d+(?:\.\d+)?]. *)
Definition numberOf (negative : bool) (ds fs : string) : Q :=
  let v := Z.of_nat (parseInt (ds +:+ fs)) # Pos.of_nat (10 ^ String.length fs) in
  if negative then - v else v.

(** [s.match(/-?\d+(?:\.\d+)?/)] followed by [Number(m[0])]: the match is
    tried at every position from the left. *)
Fixpoint findNumber (s : string) : option Q :=
  match s with
  | EmptyString => None
  | String c r =>
      if Ascii.eqb c "-" then
        match span is_digit r with
        | (EmptyString, _) => findNumber r
        | (ds, rest) => Some (numberOf true ds (fraction rest))
        end
      else if is_digit c then
        let '(ds, rest) := span is_digit s in
        Some (numberOf false ds (fraction rest))
      else findNumber r
  end.

(** [parseFirstNumber(value)] on the result of a call: null or an array of
    lines. *)
Definition parseFirstNumber (value : option (list string)) : option Q :=
  match value with
  | None => None
  | Some lines => findNumber (nth 0 lines "")
  end.

(** [parseNumberAtLine(value, lineIndex)]. *)
Definition parseNumberAtLine (value : option (list string)) (lineIndex : Z)
    : option Q :=
  match value with
  | None => None
  | Some lines =>
      if (lineIndex <? 0)%Z || (Z.of_nat (length lines) <=? lineIndex)%Z
      then None
      else findNumber (nth (Z.to_nat lineIndex) lines "")
  end.

(** [a ?? b]. *)
Definition orNull {A} (a b : option A) : option A :=
  match a with Some x => Some x | None => b end.

(** [safeCall(revidyneDevice, cmd)]: the call is made directly, not through
    the queue of the device. *)
Definition safeCall (dev : BaseDevice) (cmd : string)
    : option (list string) * BaseDevice :=
  match cmds dev !! cmd with
  | None => (None, dev)
  | Some _ => Device.call cmd dev
  end.

Record metric : Type := mkMetric {
  volts : option JS.num;
  kw_of : option JS.num;
  rawVolts : option Q;
  rawKw : option Q;
  currentmA : option Q;
  telemetryStatus : string
}.

(** [getTelemetryCapabilities(revidyneDevice).any]. *)
Definition anyTelemetry (dev : BaseDevice) : bool :=
  existsb (fun c => bool_decide (is_Some (cmds dev !! c)))
    ["getAll"; "getKW"; "getVolts"; "getVal"; "getBV"; "getCurrent";
     "getRes"; "getDrop"; "getLoads"; "getLoadVal"].

(** The body of the loop of [refreshLiveMetrics] for one device. *)
Definition sampleDevice (dev : BaseDevice) : metric * BaseDevice :=
  let '(allResp, d1) := safeCall dev "getAll" in
  let '(kwResp, d2) := safeCall d1 "getKW" in
  let '(voltsResp, d3) := safeCall d2 "getVolts" in
  let '(valResp, d4) := safeCall d3 "getVal" in
  let '(bvResp, d5) := safeCall d4 "getBV" in
  let '(currentResp, d6) := safeCall d5 "getCurrent" in
  let lastOfAll :=
    match allResp with
    | Some lines => parseNumberAtLine allResp (Z.of_nat (length lines) - 1)
    | None => None
    end in
  let v :=
    orNull (parseFirstNumber voltsResp)
      (orNull (parseFirstNumber valResp)
         (orNull (parseNumberAtLine bvResp 0)
            (orNull (parseFirstNumber bvResp)
               (orNull lastOfAll (parseFirstNumber allResp))))) in
  let k := orNull (parseFirstNumber kwResp) lastOfAll in
  ({| volts := sanitizeMetricNumber "volts" (JS.Fin <$> v);
      kw_of := sanitizeMetricNumber "kw" (JS.Fin <$> k);
      rawVolts := v;
      rawKw := k;
      currentmA := parseFirstNumber currentResp;
      telemetryStatus :=
        if anyTelemetry dev then "ok" else "no-telemetry-cmds" |},
   d6).

(** The loop of [refreshLiveMetrics] over the connected devices: the
    entries set in the metrics map, and the devices afterwards. *)
Fixpoint sampleAll (ds : list deviceInfo)
    : list (string * metric) * list deviceInfo :=
  match ds with
  | [] => ([], [])
  | d :: rest =>
      match revidyneDevice d with
      | None =>
          let '(ms, rest') := sampleAll rest in (ms, d :: rest')
      | Some dev =>
          let '(m, dev') := sampleDevice dev in
          let '(ms, rest') := sampleAll rest in
          ((id d, m) :: ms,
           mark d (Some dev') (lastCommand d) (lastStatus d) :: rest')
      end
  end.

(** [refreshLiveMetrics]. *)
Definition refreshLiveMetrics (s : manager)
    : list (string * metric) * manager :=
  let '(ms, ds) := sampleAll (connectedDevices s) in
  (ms,
   {| connectedDevices := ds;
      availableDevices := availableDevices s;
      connections := connections s;
      loadPowerEst := loadPowerEst s;
      preferManualEstimates := preferManualEstimates s;
      safeModeEnabled := safeModeEnabled s;
      commandLog := commandLog s;
      connMode2LastApplied := connMode2LastApplied s;
      connMode2InFlight := connMode2InFlight s |}).

(** *** Text escaping *)

(** [pat] occurs in [s] at its start. *)
Fixpoint matchesAt (pat s : string) : bool :=
  match pat, s with
  | EmptyString, _ => true
  | String p pat', String c s' => Ascii.eqb p c && matchesAt pat' s'
  | String _ _, EmptyString => false
  end.

(** [s.replace(/pat/g, rep)] for a literal, non-empty [pat]: the text is
    scanned from the left; where [pat] occurs it is replaced and the scan
    goes on behind it.  [skip] counts the characters of an occurrence that
    are still to be passed over. *)
Fixpoint replaceAll_from (pat rep : string) (skip : nat) (s : string)
    : string :=
  match s with
  | EmptyString => EmptyString
  | String c r =>
      match skip with
      | S k => replaceAll_from pat rep k r
      | O =>
          if matchesAt pat s
          then rep +:+ replaceAll_from pat rep (String.length pat - 1) r
          else String c (replaceAll_from pat rep 0 r)
      end
  end.

Definition replaceAll (pat rep s : string) : string :=
  replaceAll_from pat rep 0 s.

(** The double quote and the apostrophe. *)
Definition dquote : string := String (ascii_of_nat 34) EmptyString.
Definition apostrophe : string := String (ascii_of_nat 39) EmptyString.

(** [encodeAttr(value)]. *)
Definition encodeAttr (value : string) : string :=
  replaceAll ">" "&gt;"
    (replaceAll "<" "&lt;"
       (replaceAll dquote "&quot;"
          (replaceAll "&" "&amp;" value))).

(** [decodeAttr(value)]. *)
Definition decodeAttr (value : string) : string :=
  replaceAll "&amp;" "&"
    (replaceAll "&gt;" ">"
       (replaceAll "&lt;" "<"
          (replaceAll "&quot;" dquote value))).

(** [escapeHtml(s)]. *)
Definition escapeHtml (s : string) : string :=
  replaceAll apostrophe "&#39;"
    (replaceAll dquote "&quot;"
       (replaceAll ">" "&gt;"
          (replaceAll "<" "&lt;"
             (replaceAll "&" "&amp;" s)))).

(** *** Firmware command lists *)






(** *** Moving devices between the two panels *)

(** [Map.delete] on the device maps. *)
Definition Map_delete (k : string) (m : list deviceInfo) : list deviceInfo :=
  List.filter (fun d => negb (String.eqb (id d) k)) m.

Definition with_devices (s : manager) (connected available : list deviceInfo)
    : manager :=
  {| connectedDevices := connected;
     availableDevices := available;
     connections := connections s;
     loadPowerEst := loadPowerEst s;
     preferManualEstimates := preferManualEstimates s;
     safeModeEnabled := safeModeEnabled s;
     commandLog := commandLog s;
     connMode2LastApplied := connMode2LastApplied s;
     connMode2InFlight := connMode2InFlight s |}.

(** [moveDevice(deviceId, targetLocation)]. *)
Definition moveDevice (deviceId targetLocation : string) (s : manager)
    : manager :=
  if String.eqb targetLocation "connected" then
    match Map_get deviceId (availableDevices s) with
    | Some device =>
        with_devices s (Map_set device (connectedDevices s))
          (Map_delete deviceId (availableDevices s))
    | None => s
    end
  else
    match Map_get deviceId (connectedDevices s) with
    | Some device =>
        with_devices s (Map_delete deviceId (connectedDevices s))
          (Map_set device (availableDevices s))
    | None => s
    end.

(** *** The flow editor *)

(** [a.splice(i, 1)] and [a.splice(i, 0, x)] for an index within bounds. *)
Definition splice_out {A} (i : nat) (a : list A) : list A :=
  firstn i a ++ skipn (S i) a.

Definition splice_in {A} (i : nat) (x : A) (a : list A) : list A :=
  firstn i a ++ x :: skipn i a.

(** [reorderFlow(fromIndex, toIndex)] on whole-number indices. *)
Definition reorderFlow {A} (fromIndex toIndex : Z) (flowSteps : list A)
    : list A :=
  if (fromIndex =? toIndex)%Z then flowSteps
  else if (fromIndex <? 0)%Z || (Z.of_nat (length flowSteps) <=? fromIndex)%Z
  then flowSteps
  else if (toIndex <? 0)%Z || (Z.of_nat (length flowSteps) <=? toIndex)%Z
  then flowSteps
  else
    match nth_error flowSteps (Z.to_nat fromIndex) with
    | Some moved =>
        splice_in (Z.to_nat toIndex) moved
          (splice_out (Z.to_nat fromIndex) flowSteps)
    | None => flowSteps
    end.

(** [removeFlowStep(index)]. *)
Definition removeFlowStep {A} (index : Z) (flowSteps : list A) : list A :=
  if (index <? 0)%Z || (Z.of_nat (length flowSteps) <=? index)%Z
  then flowSteps
  else splice_out (Z.to_nat index) flowSteps.

(** *** Diagram blocks *)

(** [toDiagramDevice(d, source)]: the device with its diagram id as [id]. *)
Definition toDiagramDevice (d : deviceInfo) : deviceInfo :=
  {| id := getConnDiagramId d; name := name d; type := type d;
     commands := commands d; revidyneDevice := revidyneDevice d;
     lastCommand := lastCommand d; lastStatus := lastStatus d;
     portKey := portKey d; path := path d; serialNumber := serialNumber d |}.

End App.

(** ** The per-device command queue (promise chains) *)

Module Queue.

Inductive outcome : Type := Fulfilled | Rejected.

(** How a promise of the queue came to be. *)
Inductive origin : Type :=
| Resolved                                   (* Promise.resolve() *)
| Catch (prev : nat)                         (* prev.catch(() => undefined) *)
| ThenTask (prev : nat) (deviceId : string). (* prev.then(() => taskFn()) *)

(** A promise: [started] says that its callback has been invoked, which for
    a [ThenTask] means that the task function has been called; [settled] is
    [None] while the promise is pending. *)
Record promise : Type := mkPromise {
  origin_of : origin;
  started : bool;
  settled : option outcome
}.

Record state : Type := mkState {
  promises : list promise;             (* the heap of promises, by index *)
  deviceQueues : gmap string nat       (* this.deviceQueues *)
}.

Definition init : state := {| promises := []; deviceQueues := ∅ |}.

(** Allocation of a fresh promise. *)
Definition alloc (pr : promise) (st : state) : nat * state :=
  (length (promises st),
   {| promises := promises st ++ [pr]; deviceQueues := deviceQueues st |}).

Definition push (pr : promise) (st : state) : state := snd (alloc pr st).

Definition set_queue (deviceId : string) (n : nat) (st : state) : state :=
  {| promises := promises st; deviceQueues := <[deviceId := n]> (deviceQueues st) |}.

(** [getQueueForDevice(deviceId)]. *)
Definition getQueueForDevice (deviceId : string) (st : state) : nat * state :=
  match deviceQueues st !! deviceId with
  | Some n => (n, st)
  | None =>
      let '(n, st1) := alloc (mkPromise Resolved false (Some Fulfilled)) st in
      (n, set_queue deviceId n st1)
  end.

(** [enqueueDeviceCommand(deviceId, taskFn)]: the promise returned to the
    caller and the new state. *)
Definition enqueueDeviceCommand (deviceId : string) (st : state)
    : nat * state :=
  let '(prev, st1) := getQueueForDevice deviceId st in
  let '(c, st2) := alloc (mkPromise (Catch prev) false None) st1 in
  let '(next, st3) := alloc (mkPromise (ThenTask c deviceId) false None) st2 in
  (next, set_queue deviceId next st3).

Definition settle (i : nat) (o : outcome) (st : state) : state :=
  {| promises :=
       alter (fun pr => mkPromise (origin_of pr) (started pr) (Some o)) i
         (promises st);
     deviceQueues := deviceQueues st |}.

Definition start (i : nat) (st : state) : state :=
  {| promises :=
       alter (fun pr => mkPromise (origin_of pr) true (settled pr)) i
         (promises st);
     deviceQueues := deviceQueues st |}.

(** Promise [i] has settled with outcome [o]. *)
Definition has_outcome (st : state) (i : nat) (o : outcome) : Prop :=
  exists pr, promises st !! i = Some pr /\ settled pr = Some o.

(** Promise [i] has settled. *)
Definition is_settled (st : state) (i : nat) : Prop :=
  exists o, has_outcome st i o.

(** One turn of the event loop, or one call of [enqueueDeviceCommand].
    - a [catch] promise is fulfilled once its source has settled: a
      fulfilment passes through and a rejection is handled by
      [() => undefined];
    - a [then] promise calls the task once its source is fulfilled, and is
      rejected without calling it if its source is rejected;
    - a task that has been called settles at some later time, either way,
      and its promise, the one [enqueueDeviceCommand] returned, settles with
      it. *)
Inductive step : state -> state -> Prop :=
| step_enqueue st deviceId :
    step st (snd (enqueueDeviceCommand deviceId st))
| step_catch st i p b :
    promises st !! i = Some (mkPromise (Catch p) b None) ->
    is_settled st p ->
    step st (settle i Fulfilled st)
| step_then_call st i p d :
    promises st !! i = Some (mkPromise (ThenTask p d) false None) ->
    has_outcome st p Fulfilled ->
    step st (start i st)
| step_then_skip st i p d :
    promises st !! i = Some (mkPromise (ThenTask p d) false None) ->
    has_outcome st p Rejected ->
    step st (settle i Rejected st)
| step_task_settles st i p d o :
    promises st !! i = Some (mkPromise (ThenTask p d) true None) ->
    step st (settle i o st).

Definition reachable (st : state) : Prop := rtc step init st.

(** Promise [i] exists and came to be as [og]. *)
Definition has_origin (st : state) (i : nat) (og : origin) : Prop :=
  exists b o, promises st !! i = Some (mkPromise og b o).

(** Promise [i] is the promise of a task enqueued for [d]. *)
Definition is_task (st : state) (d : string) (i : nat) : Prop :=
  exists p, has_origin st i (ThenTask p d).

(** The task of promise [i] has been called. *)
Definition called (st : state) (i : nat) : Prop :=
  exists pr, promises st !! i = Some pr /\ started pr = true.

(** The task of promise [i], enqueued for [d], is running: called and not
    yet settled. *)
Definition running (st : state) (d : string) (i : nat) : Prop :=
  exists p, promises st !! i = Some (mkPromise (ThenTask p d) true None).

(** The structure of the heap that the queue maintains. *)
Record wf (st : state) : Prop := mkWf {
  wf_resolved : forall i b o,
    promises st !! i = Some (mkPromise Resolved b o) -> o = Some Fulfilled;
  wf_catch : forall i p b o,
    promises st !! i = Some (mkPromise (Catch p) b (Some o)) ->
    o = Fulfilled /\ is_settled st p;
  wf_called : forall i p d o,
    promises st !! i = Some (mkPromise (ThenTask p d) true o) ->
    has_outcome st p Fulfilled;
  wf_settled : forall i p d b o,
    promises st !! i = Some (mkPromise (ThenTask p d) b (Some o)) ->
    b = true \/ has_outcome st p Rejected;
  wf_chain : forall j c d,
    has_origin st j (ThenTask c d) ->
    exists p,
      has_origin st c (Catch p) /\
      ((has_origin st p Resolved /\
          forall i, is_task st d i -> (j <= i)%nat) \/
       (is_task st d p /\ (p < j)%nat /\
          forall i, is_task st d i -> (i <= p)%nat \/ (j <= i)%nat));
  wf_tail : forall d n,
    deviceQueues st !! d = Some n ->
    (has_origin st n Resolved /\ forall i, ~ is_task st d i) \/
    (is_task st d n /\ forall i, is_task st d i -> (i <= n)%nat);
  wf_none : forall d,
    deviceQueues st !! d = None -> forall i, ~ is_task st d i
}.

End Queue.

(** ** Vocabulary of the statements *)

Module Spec.
Import Transport Device App.
Local Open Scope Q_scope.

(** A name that starts with "set" in any mix of upper and lower case. *)
Definition starts_with_set (cmdName : string) : Prop :=
  exists c1 c2 c3 rest,
    cmdName = String c1 (String c2 (String c3 rest)) /\
    (c1 = "s"%char \/ c1 = "S"%char) /\
    (c2 = "e"%char \/ c2 = "E"%char) /\
    (c3 = "t"%char \/ c3 = "T"%char).


(** The wire during discovery, after the opening "getCommands": blank reads
    are skipped, every other line read is sent back at once, as read, and
    only then is the next line read; the last read ends the enumeration.
    The first index is the list of lines recorded. *)
Inductive handshake : list string -> list event -> Prop :=
| handshake_stop l : handshake [] [Read l]
| handshake_blank ls tr :
    handshake ls tr -> handshake ls (Read "" :: tr)
| handshake_line l ls tr :
    l <> "" -> l <> "eoc" ->
    handshake ls tr -> handshake (l :: ls) (Read l :: Sent l :: tr).

(** The wire of an enumeration that runs to the sentinel without blanks:
    each line is read and sent back. *)
Definition echoes (ls : list string) : list event :=
  flat_map (fun l => [Read l; Sent l]) ls.

(** Every character of a string satisfies [f]. *)
Fixpoint all_chars (f : ascii -> bool) (s : string) : bool :=
  match s with
  | EmptyString => true
  | String c r => f c && all_chars f r
  end.

(** A string that is empty or starts with a character outside the class. *)
Definition stops (f : ascii -> bool) (s : string) : Prop :=
  match s with
  | EmptyString => True
  | String c _ => f c = false
  end.

(** A signature line [name[>N][<M]], the counts given as digit strings. *)
Definition signature (name : string) (out inp : option string) : string :=
  name +:+
  match out with Some ds => ">" +:+ ds | None => "" end +:+
  match inp with Some ds => "<" +:+ ds | None => "" end.

(** A non-empty string of decimal digits. *)
Definition digits (ds : string) : Prop :=
  ds <> "" /\ all_chars is_digit ds = true.

Definition count_of (o : option string) : nat :=
  match o with Some ds => parseInt ds | None => O end.

(** The ordered pair of endpoints of an edge. *)
Definition pair_of (e : edge) : string * string := (fromId e, toId e).

(** An edge as [normalizeConnections] stores it. *)
Definition stored (e : edge) : edge :=
  {| fromId := fromId e; toId := toId e; kw := finiteOrNull (kw e) |}.

(** An identifier in which "=>" does not occur. *)
Definition arrow_free (s : string) : Prop := JS.includes "=>" s = false.

(** The loop of [normalizeConnections] without its output accumulator. *)
Fixpoint kept (ids seen : list string) (es : list edge) : list edge :=
  match es with
  | [] => []
  | e :: rest =>
      if JS.truthy (fromId e) && JS.truthy (toId e) &&
         has (fromId e) ids && has (toId e) ids &&
         negb (has (edgeKey (fromId e) (toId e)) seen)
      then stored e :: kept ids (seen ++ [edgeKey (fromId e) (toId e)]) rest
      else kept ids seen rest
  end.

(** The sum of a list of rationals. *)
Fixpoint Qsum (l : list Q) : Q :=
  match l with
  | [] => 0
  | x :: r => x + Qsum r
  end.

(** A provider other than a generator, the generator being told by its
    name. *)
Definition other_provider (d : deviceInfo) : bool :=
  String.eqb (type d) "provider" && negb (isGenerator d).

(** The estimated kW of a device, 0 when there is none. *)
Definition supply_of (s : manager) (d : deviceInfo) : Q :=
  default 0 (est_kw (computeEstimatedKW s d None)).

(** What Mode 2 reads of a device: everything but its transport handle and
    its last-invocation bookkeeping. *)
Definition static (d : deviceInfo)
    : string * string * string * list string :=
  (id d, name d, type d, commands d).

(** The lines that [n] successive reads deliver from the pending lines [l]:
    a read that finds nothing pending delivers the empty line. *)
Definition lines_read (n : nat) (l : list string) : list string :=
  List.map (fun i => nth i l "") (seq 0 n).


(** A string whose last character is a decimal digit. *)
Fixpoint ends_in_digit (s : string) : bool :=
  match s with
  | EmptyString => false
  | String c EmptyString => is_digit c
  | String _ r => ends_in_digit r
  end.

(** The power already assigned to the edges that leave [from]. *)
Definition outgoing (s : manager) (from : string) : Q :=
  Qsum (List.map getConnectionKW
          (List.filter (fun e => String.eqb (fromId e) from) (connections s))).

(** The keys under which the edges of a plan are compared. *)
Definition keys (es : list edge) : list string :=
  List.map (fun e => edgeKey (fromId e) (toId e)) es.



(** The commands that a telemetry sweep may send, in the order in which it
    tries them. *)
Definition telemetry_reads : list string :=
  ["getAll"; "getKW"; "getVolts"; "getVal"; "getBV"; "getCurrent"].

(** Those commands of a list that the catalog of a device contains. *)
Definition offered (dev : BaseDevice) (l : list string) : list string :=
  List.filter (fun c => bool_decide (is_Some (cmds dev !! c))) l.

(** A catalog in which every command is declared without inputs and without
    outputs, as the fixed catalogs of the known boards are. *)
Definition zero_arity (dev : BaseDevice) : Prop :=
  forall k c, cmds dev !! k = Some c -> inArg c = 0%nat /\ outArg c = 0%nat.

(** A sanitized reading of the given field lies in the accepted range. *)
Definition in_range (field : string) (v : option JS.num) : Prop :=
  match v with
  | None => True
  | Some (JS.Fin q) =>
      if String.eqb field "volts" then 0 <= q <= 1000 else Qabs q <= 1000
  | Some _ => False
  end.

(** What a sweep does to one connected device. *)
Definition swept (d d' : deviceInfo) : Prop :=
  static d = static d' /\
  lastCommand d' = lastCommand d /\ lastStatus d' = lastStatus d /\
  match revidyneDevice d with
  | None => revidyneDevice d' = None
  | Some dev =>
      exists dev',
        revidyneDevice d' = Some dev' /\
        cmds dev' = cmds dev /\ errors dev' = errors dev /\
        sent (trace (port_of dev'))
          = sent (trace (port_of dev)) ++ offered dev telemetry_reads /\
        (zero_arity dev ->
         reads (trace (port_of dev')) = reads (trace (port_of dev)))
  end.

(** The text that stands for one character once it is escaped; [quotes]
    says whether the apostrophe is escaped too. *)
Definition entity (quotes : bool) (c : ascii) : string :=
  if Ascii.eqb c "&" then "&amp;"
  else if Ascii.eqb c "<" then "&lt;"
  else if Ascii.eqb c ">" then "&gt;"
  else if Ascii.eqb c (ascii_of_nat 34) then "&quot;"
  else if quotes && Ascii.eqb c (ascii_of_nat 39) then "&#39;"
  else String c EmptyString.

(** A text escaped character by character. *)
Fixpoint escaped (quotes : bool) (s : string) : string :=
  match s with
  | EmptyString => EmptyString
  | String c r => entity quotes c +:+ escaped quotes r
  end.

(** [c] occurs in [s]. *)
Fixpoint occurs (c : ascii) (s : string) : bool :=
  match s with
  | EmptyString => false
  | String x r => Ascii.eqb x c || occurs c r
  end.

(** The power assigned to the edges that arrive at [to]. *)
Definition incoming (s : manager) (to : string) : Q :=
  Qsum (List.map getConnectionKW
          (List.filter (fun e => String.eqb (toId e) to) (connections s))).

End Spec.

(** ** A sample plant *)

Module Samples.
Import Transport Device App.
Local Open Scope Q_scope.

(** A generator board seeded with its fixed catalog. *)
Definition generatorBoard : BaseDevice :=
  {| port_of := {| inbound := []; trace := [] |};
     cmds := {[ "setLoad" := mkCmd "setLoad" 0 0;
                "getKW" := mkCmd "getKW" 0 0 ]};
     errors := [] |}.

Definition generator : deviceInfo :=
  {| id := "device_0"; name := "generator"; type := "provider";
     commands := ["init"; "getKW"; "setLoad"];
     revidyneDevice := Some generatorBoard;
     lastCommand := ""; lastStatus := "";
     portKey := ""; path := ""; serialNumber := "" |}.

Definition solar : deviceInfo :=
  {| id := "device_1"; name := "solartracker"; type := "provider";
     commands := ["init"; "getKW"]; revidyneDevice := None;
     lastCommand := ""; lastStatus := "";
     portKey := ""; path := ""; serialNumber := "" |}.

Definition house : deviceInfo :=
  {| id := "device_2"; name := "houseload"; type := "consumer";
     commands := ["init"]; revidyneDevice := None;
     lastCommand := ""; lastStatus := "";
     portKey := ""; path := ""; serialNumber := "" |}.

(** Estimates: 4 kW of solar capacity and, when [cap] is given, that much
    generator capacity. *)
Definition estimates (cap : option Q) (deviceName : string) : option powerEst :=
  if String.eqb deviceName "solartracker" then
    Some {| ratedW := None; utilization := None;
            capacityKW := Some (JS.Fin 4); availability := None |}
  else if String.eqb deviceName "generator" then
    match cap with
    | Some c =>
        Some {| ratedW := None; utilization := None;
                capacityKW := Some (JS.Fin c); availability := None |}
    | None => None
    end
  else None.

(** Two edges into the house, 7 kW and 3 kW: a demand of 10 kW. *)
Definition plant (cap : option Q) (last : option lastApplied) : manager :=
  {| connectedDevices := [generator];
     availableDevices := [solar; house];
     connections :=
       [ mkEdge "dev:device_0" "dev:device_2" (Some (JS.Fin 7));
         mkEdge "dev:device_1" "dev:device_2" (Some (JS.Fin 3)) ];
     loadPowerEst := estimates cap;
     preferManualEstimates := false;
     safeModeEnabled := false;
     commandLog := [];
     connMode2LastApplied := last;
     connMode2InFlight := false |}.

(** Two tasks enqueued for "device_0" and one for "device_1"; the first task
    of each device is called; then the first task of "device_0" fails. *)
Definition queued : Queue.state :=
  snd (Queue.enqueueDeviceCommand "device_1"
    (snd (Queue.enqueueDeviceCommand "device_0"
      (snd (Queue.enqueueDeviceCommand "device_0" Queue.init))))).

Definition bothRunning : Queue.state :=
  Queue.start 7 (Queue.settle 6 Queue.Fulfilled
    (Queue.start 2 (Queue.settle 1 Queue.Fulfilled queued))).

Definition firstFailed : Queue.state :=
  Queue.settle 2 Queue.Rejected bothRunning.

End Samples.

(** ** The device manager of the library (AllDevice) *)

Module AllDevice.
Import Transport Device.

Record AllDevice : Type := mkAllDevice {
  deviceNames : list string;
  devices : gmap string BaseDevice
}.



(** The loop of [getUniqueDeviceName].  Every turn finds one more name of
    [names]; [fuel] bounds the number of turns. *)
Fixpoint unique_loop (fuel : nat) (names : list string) (baseName : string)
    (count : nat) : option string :=
  match fuel with
  | O => None
  | S fuel' =>
      if App.has (baseName +:+ pretty count) names
      then unique_loop fuel' names baseName (S count)
      else Some (baseName +:+ pretty count)
  end.

(** [getUniqueDeviceName(baseName)]; [None] if the loop has not ended within
    [fuel] turns. *)
Definition getUniqueDeviceName (fuel : nat) (a : AllDevice)
    (baseName : string) : option string :=
  if negb (App.has baseName (deviceNames a)) then Some baseName
  else unique_loop fuel (deviceNames a) baseName 1.



End AllDevice.

(** * Properties *)

Import JS Transport Device Spec.

(** ** Comparisons on rationals *)

Lemma Qltb_true x y : JS.Qltb x y = true <-> (x < y)%Q.
Proof.
  unfold Qltb. destruct (Qlt_le_dec x y) as [H|H]; split; intros; try done.
  exfalso. eapply Qle_not_lt; eauto.
Qed.

Lemma Qltb_false x y : JS.Qltb x y = false <-> (y <= x)%Q.
Proof.
  unfold Qltb. destruct (Qlt_le_dec x y) as [H|H]; split; intros; try done.
  exfalso. eapply Qle_not_lt; eauto.
Qed.

Lemma Qleb_true x y : JS.Qleb x y = true <-> (x <= y)%Q.
Proof.
  unfold Qleb. destruct (Qlt_le_dec y x) as [H|H]; split; intros; try done.
  exfalso. eapply Qle_not_lt; eauto.
Qed.

Lemma Qleb_false x y : JS.Qleb x y = false <-> (y < x)%Q.
Proof.
  unfold Qleb. destruct (Qlt_le_dec y x) as [H|H]; split; intros; try done.
  exfalso. eapply Qle_not_lt; eauto.
Qed.

(** ** The telemetry sanitizer *)

Import App.
Local Open Scope Q_scope.

Lemma max_lower x y : x <= JS.max x y.
Proof.
  unfold JS.max. destruct (JS.Qltb x y) eqn:E; [|lra].
  apply Qltb_true in E. lra.
Qed.

(** C7.  A voltage strictly below 0 or strictly above 1000 becomes null, and
    so does a power whose absolute value is strictly above 1000; every
    voltage in [0, 1000] and every power of absolute value at most 1000, the
    boundary values included, comes back unchanged; a non-finite reading
    becomes null whatever the field. *)
Theorem sanitizeMetricNumber_bounds :
  (forall q, q < 0 \/ 1000 < q ->
     sanitizeMetricNumber "volts" (Some (JS.Fin q)) = None) /\
  (forall q, 1000 < Qabs q ->
     sanitizeMetricNumber "kw" (Some (JS.Fin q)) = None) /\
  (forall q, 0 <= q <= 1000 ->
     sanitizeMetricNumber "volts" (Some (JS.Fin q)) = Some (JS.Fin q)) /\
  (forall q, Qabs q <= 1000 ->
     sanitizeMetricNumber "kw" (Some (JS.Fin q)) = Some (JS.Fin q)) /\
  (forall field n, JS.isFinite n = false ->
     sanitizeMetricNumber field (Some n) = None) /\
  sanitizeMetricNumber "volts" (Some (JS.Fin 0)) = Some (JS.Fin 0) /\
  sanitizeMetricNumber "volts" (Some (JS.Fin 1000)) = Some (JS.Fin 1000) /\
  sanitizeMetricNumber "kw" (Some (JS.Fin 1000)) = Some (JS.Fin 1000) /\
  sanitizeMetricNumber "kw" (Some (JS.Fin (-1000))) = Some (JS.Fin (-1000)).
Proof.
  repeat split; try reflexivity.
  - intros q [H|H]; unfold sanitizeMetricNumber; simpl.
    + apply Qltb_true in H. by rewrite H.
    + apply Qltb_true in H. rewrite H.
      by destruct (JS.Qltb q 0).
  - intros q H. unfold sanitizeMetricNumber, JS.gt; simpl.
    apply Qltb_true in H. by rewrite H.
  - intros q [H0 H1]. unfold sanitizeMetricNumber, JS.gt; simpl.
    apply Qltb_false in H0. apply Qltb_false in H1. by rewrite H0, H1.
  - intros q H. unfold sanitizeMetricNumber, JS.gt; simpl.
    apply Qltb_false in H. by rewrite H.
  - intros field n H. unfold sanitizeMetricNumber. by rewrite H.
Qed.

(** The sanitizer at a voltage of -1, a power of 1000.5 and a voltage of 12. *)
Lemma sanitizeMetricNumber_bounds_witness :
  sanitizeMetricNumber "volts" (Some (JS.Fin (-1))) = None /\
  sanitizeMetricNumber "kw" (Some (JS.Fin (2001 # 2))) = None /\
  sanitizeMetricNumber "volts" (Some (JS.Fin 12)) = Some (JS.Fin 12) /\
  sanitizeMetricNumber "kw" (Some (JS.Inf true)) = None.
Proof.
  destruct sanitizeMetricNumber_bounds as (Hv & Hk & Hin & _ & Hnf & _).
  split; [apply Hv; left; reflexivity|].
  split; [apply Hk; reflexivity|].
  split; [apply Hin; split; discriminate|].
  apply Hnf; reflexivity.
Defined.

(** ** Effective connection power *)

Lemma getConnectionKW_nonneg e : 0 <= getConnectionKW e.
Proof.
  unfold getConnectionKW.
  destruct (kw e) as [[k| |]|]; try lra.
  destruct (JS.Qleb 0 k) eqn:E; [|lra].
  by apply Qleb_true in E.
Qed.

Lemma demand_fold_nonneg es acc :
  0 <= acc ->
  0 <= fold_left (fun a e => a + getConnectionKW e) es acc.
Proof.
  revert acc. induction es as [|e es IH]; intros acc Hacc; simpl; [done|].
  apply IH. pose proof (getConnectionKW_nonneg e). lra.
Qed.





(** ** Calling a command that is not registered *)



(** [executeCommand] with explicit arguments does not go through [call]: it
    writes the name and the arguments whether the name is registered or
    not. *)
Example run_command_unregistered_args :
  let d := {| port_of := {| inbound := []; trace := [] |};
              cmds := {[ "getKW" := mkCmd "getKW" 0 1 ]};
              errors := [] |} in
  trace (port_of (snd (run_command "setLoad" ["3"] d)))
  = [Sent "setLoad"; Sent "3"].
Proof. reflexivity. Qed.

(** ** The device maps *)

Lemma Map_get_id k m d : Map_get k m = Some d -> id d = k.
Proof.
  unfold Map_get. intros H. apply find_some in H as [_ H].
  by apply String.eqb_eq in H.
Qed.

Lemma Map_get_set k m d d' :
  Map_get k m = Some d -> id d' = id d ->
  Map_get k (Map_set d' m) = Some d'.
Proof.
  intros Hget Hid. pose proof (Map_get_id _ _ _ Hget) as Hk.
  unfold Map_get in *.
  induction m as [|x m IH]; simpl in *; [done|].
  destruct (String.eqb (id x) k) eqn:E.
  - injection Hget as ->. rewrite Hid, String.eqb_refl. simpl.
    by rewrite Hid, Hk, String.eqb_refl.
  - rewrite Hid, Hk, E. simpl. rewrite E. by apply IH.
Qed.

(** Replacing a device by one with the same handle leaves every projection
    that only looks at the handle unchanged. *)
Lemma Map_set_map {A} (f : deviceInfo -> A) k m d d' :
  Map_get k m = Some d -> id d' = id d -> f d' = f d ->
  List.map f (Map_set d' m) = List.map f m.
Proof.
  intros Hget Hid Hf. pose proof (Map_get_id _ _ _ Hget) as Hk.
  unfold Map_get in *.
  induction m as [|x m IH]; simpl in *; [done|].
  destruct (String.eqb (id x) k) eqn:E.
  - injection Hget as ->. rewrite Hid, String.eqb_refl. simpl.
    by rewrite Hf.
  - rewrite Hid, Hk, E. simpl. f_equal. by apply IH.
Qed.

Lemma last_addCommandLog entry log :
  last (addCommandLog entry log) = Some entry.
Proof.
  unfold addCommandLog.
  destruct (500 <? length (log ++ [entry]))%nat eqn:E.
  - destruct log as [|x log]; simpl.
    + discriminate E.
    + by rewrite last_snoc.
  - by rewrite last_snoc.
Qed.

(** ** The safety interlock *)

Lemma wires_with_device s k d d' :
  Map_get k (connectedDevices s) = Some d -> id d' = id d ->
  revidyneDevice d' = revidyneDevice d ->
  wires (with_device s d') = wires s.
Proof.
  intros Hget Hid Hdev. unfold wires. simpl. rewrite !map_app. f_equal.
  eapply Map_set_map; eauto. by rewrite Hdev.
Qed.

(** The code's test agrees with the reading of "starts with set, whatever
    the letter case". *)
Lemma isSetCmd_starts_with_set cmdName :
  starts_with_set cmdName -> isSetCmd cmdName = true.
Proof.
  intros (c1 & c2 & c3 & rest & -> & H1 & H2 & H3).
  destruct H1 as [-> | ->], H2 as [-> | ->], H3 as [-> | ->];
    destruct rest; reflexivity.
Qed.

(** C4.  With safe mode on, executing a command whose name starts with
    "set" in any letter case leaves the wire of every device as it was, so
    nothing is written, and, when the device is connected, appends one log
    entry for that command whose error field is the blocking message, which
    is not empty; the device is marked BLOCKED. *)
Theorem safe_mode_blocks_set (s : manager) (deviceId cmdName : string)
    (opts : options) (reply : option (list string)) :
  safeModeEnabled s = true ->
  starts_with_set cmdName ->
  let s' := executeCommand deviceId cmdName opts reply s in
  wires s' = wires s /\
  (forall device dev,
     Map_get deviceId (connectedDevices s) = Some device ->
     revidyneDevice device = Some dev ->
     exists entry,
       commandLog s' = addCommandLog entry (commandLog s) /\
       last (commandLog s') = Some entry /\
       command entry = cmdName /\
       error entry = blockedMessage cmdName /\
       error entry <> "" /\
       lastStatus <$> Map_get deviceId (connectedDevices s') = Some "BLOCKED").
Proof.
  intros Hsafe Hset s'. subst s'. apply isSetCmd_starts_with_set in Hset.
  unfold executeCommand.
  destruct (Map_get deviceId (connectedDevices s)) as [device|] eqn:Hget;
    [|split; [done | intros ? ? [=]]].
  destruct (revidyneDevice device) as [dev|] eqn:Hdev;
    [|split; [done | intros ? ? [= <-] ?; congruence]].
  rewrite Hsafe, Hset. simpl. split.
  - erewrite wires_with_device; [done | exact Hget | done | by simpl].
  - intros device' dev' [= <-] _.
    eexists. split; [reflexivity|].
    split; [apply last_addCommandLog|].
    repeat split; try done.
    erewrite Map_get_set; [done | exact Hget | done].
Qed.

(** The interlock at a command named "setX" on a connected device. *)
Lemma safe_mode_blocks_set_witness :
  let dev := {| port_of := {| inbound := []; trace := [] |};
                cmds := {[ "setX" := mkCmd "setX" 1 0 ]}; errors := [] |} in
  let d := {| id := "device_0"; name := "fan"; type := "consumer";
              commands := ["setX"]; revidyneDevice := Some dev;
              lastCommand := ""; lastStatus := "";
              portKey := ""; path := ""; serialNumber := "" |} in
  let s := {| connectedDevices := [d]; availableDevices := [];
              connections := []; loadPowerEst := fun _ => None;
              preferManualEstimates := false; safeModeEnabled := true;
              commandLog := []; connMode2LastApplied := None;
              connMode2InFlight := false |} in
  let s' := executeCommand "device_0" "setX"
              {| opt_args := Some ["3"]; opt_prompt_null := false |} None s in
  wires s' = [Some []] /\
  exists entry, commandLog s' = [entry] /\ error entry <> "".
Proof.
  intros dev d s s'.
  destruct (safe_mode_blocks_set s "device_0" "setX"
              {| opt_args := Some ["3"]; opt_prompt_null := false |} None
              eq_refl) as [Hw Hlog].
  { exists "s"%char, "e"%char, "t"%char, "X". repeat split; by left. }
  split; [exact Hw|].
  destruct (Hlog d dev eq_refl eq_refl) as (entry & Hl & _ & _ & _ & He & _).
  exists entry. split; [exact Hl | exact He].
Defined.

(** ** Invoking a command with one input and one output *)

Lemma readResponse_nth p :
  readResponse p =
  (nth 0 (inbound p) "",
   {| inbound := tail (inbound p);
      trace := trace p ++ [Read (nth 0 (inbound p) "")] |}).
Proof. unfold readResponse. by destruct (inbound p). Qed.

(** C2, as stated, fails for [call]: on a command with one input and one
    output it writes the name only and reads two lines, which it returns as
    a list of two. *)
Lemma call_one_one_counterexample :
  let d := {| port_of := {| inbound := ["7"; "ok"]; trace := [] |};
              cmds := {[ "EPr" := mkCmd "EPr" 1 1 ]}; errors := [] |} in
  cmds d !! "EPr" = Some (mkCmd "EPr" 1 1) /\
  trace (port_of (snd (call "EPr" d))) = [Sent "EPr"; Read "7"; Read "ok"] /\
  fst (call "EPr" d) = Some ["7"; "ok"] /\
  ~ (length (sent (trace (port_of (snd (call "EPr" d))))) = 2%nat /\
     length (reads (trace (port_of (snd (call "EPr" d))))) = 1%nat /\
     exists l, fst (call "EPr" d) = Some [l]).
Proof.
  repeat split; try reflexivity.
  intros (H & _). vm_compute in H. discriminate H.
Qed.

(** C2, amended.  For a registered command with one input and one output:
    executed through [executeCommand] with exactly one argument, the wire
    gains the name, then the argument on its own line, then one read, and
    the result of the task is the list of that one line; invoked without an
    argument, through [call], the wire gains the name and then two reads
    (inArg + outArg), returned as a list of two. *)
Theorem executeCommand_one_one (s : manager) (deviceId : string)
    (device : deviceInfo) (dev : BaseDevice) (cmdName a : string) (c : Cmd)
    (opts : options) (reply : option (list string)) :
  Map_get deviceId (connectedDevices s) = Some device ->
  revidyneDevice device = Some dev ->
  safeModeEnabled s && isSetCmd cmdName = false ->
  cmds dev !! cmdName = Some c ->
  inArg c = 1%nat -> outArg c = 1%nat ->
  opt_args opts = Some [a] ->
  let line1 := nth 0 (inbound (port_of dev)) "" in
  let line2 := nth 1 (inbound (port_of dev)) "" in
  (fst (executeCommand_task device dev cmdName opts reply s)
     = Some (Some [line1]) /\
   wire deviceId (executeCommand deviceId cmdName opts reply s)
     = Some (trace (port_of dev) ++ [Sent cmdName; Sent a; Read line1])) /\
  (fst (call cmdName dev) = Some [line1; line2] /\
   trace (port_of (snd (call cmdName dev)))
     = trace (port_of dev) ++ [Sent cmdName; Read line1; Read line2]).
Proof.
  intros Hget Hdev Hsafe Hc Hin Hout Hargs line1 line2. split.
  - assert (Hrun : run_command cmdName [a] dev =
      (Some [line1],
       with_port dev
         {| inbound := tail (inbound (port_of dev));
            trace := trace (port_of dev)
                     ++ [Sent cmdName; Sent a; Read line1] |})).
    { unfold run_command. simpl. rewrite Hc, Hout. simpl.
      rewrite readResponse_nth. simpl.
      by rewrite <- !app_assoc. }
    split.
    + unfold executeCommand_task. rewrite Hargs, Hrun. reflexivity.
    + unfold executeCommand. rewrite Hget, Hdev, Hsafe.
      unfold executeCommand_task. rewrite Hargs, Hrun. simpl.
      unfold wire. simpl. erewrite Map_get_set; [|exact Hget|done].
      reflexivity.
  - unfold call, readCmdMessage. rewrite Hc, Hin, Hout. simpl.
    rewrite !readResponse_nth. simpl.
    destruct (inbound (port_of dev)) as [|x [|y r]]; simpl;
      by rewrite <- !app_assoc.
Qed.

(** [executeCommand] of "EPr" with the argument "3", and [call] of "EPr". *)
Lemma executeCommand_one_one_witness :
  let dev := {| port_of := {| inbound := ["7"; "ok"]; trace := [] |};
                cmds := {[ "EPr" := mkCmd "EPr" 1 1 ]}; errors := [] |} in
  let d := {| id := "device_0"; name := "houseload"; type := "consumer";
              commands := ["EPr"]; revidyneDevice := Some dev;
              lastCommand := ""; lastStatus := "";
              portKey := ""; path := ""; serialNumber := "" |} in
  let s := {| connectedDevices := [d]; availableDevices := [];
              connections := []; loadPowerEst := fun _ => None;
              preferManualEstimates := false; safeModeEnabled := false;
              commandLog := []; connMode2LastApplied := None;
              connMode2InFlight := false |} in
  let opts := {| opt_args := Some ["3"]; opt_prompt_null := false |} in
  wire "device_0" (executeCommand "device_0" "EPr" opts None s)
    = Some [Sent "EPr"; Sent "3"; Read "7"] /\
  fst (executeCommand_task d dev "EPr" opts None s) = Some (Some ["7"]) /\
  fst (call "EPr" dev) = Some ["7"; "ok"].
Proof.
  intros dev d s opts.
  destruct (executeCommand_one_one s "device_0" d dev "EPr" "3"
              (mkCmd "EPr" 1 1) opts None
              eq_refl eq_refl eq_refl eq_refl eq_refl eq_refl eq_refl)
    as [[Hres Hwire] [Hcall _]].
  split; [exact Hwire|]. split; [exact Hres | exact Hcall].
Defined.

(** ** Discovery *)

Lemma truthy_false s : JS.truthy s = false <-> s = "".
Proof. destruct s; simpl; split; congruence. Qed.

Local Opaque maxBlankStreak.

Lemma getCommands_loop_handshake budget maxCommands :
  forall cmdName blankStreak lines p,
  let r := getCommands_loop budget maxCommands cmdName blankStreak lines p in
  exists ls tr,
    fst r = lines ++ ls /\
    trace (snd r) = trace p ++ tr /\
    handshake ls (Read cmdName :: tr).
Proof.
  induction budget as [|budget IH]; intros cmdName blankStreak lines p; simpl.
  { exists [], []. rewrite !app_nil_r. repeat split. constructor. }
  destruct (maxCommands <=? length lines)%nat.
  { exists [], []. rewrite !app_nil_r. repeat split. constructor. }
  destruct (JS.truthy cmdName) eqn:Ht; simpl.
  - destruct (String.eqb cmdName "eoc") eqn:Heoc.
    { exists [], []. rewrite !app_nil_r. repeat split. constructor. }
    rewrite readResponse_nth.
    match goal with
    | |- context [getCommands_loop budget maxCommands ?n ?k ?l ?q] =>
        destruct (IH n k l q) as (ls & tr & Hl & Ht' & Hh)
    end.
    exists (cmdName :: ls), (Sent cmdName :: Read (nth 0 (inbound p) "") :: tr).
    split; [by rewrite Hl, <- app_assoc|].
    split; [rewrite Ht'; simpl; by rewrite <- !app_assoc|].
    constructor; [| |exact Hh].
    + intros ->. discriminate Ht.
    + by apply String.eqb_neq.
  - apply truthy_false in Ht as ->.
    destruct (maxBlankStreak <=? S blankStreak)%nat.
    { exists [], []. rewrite !app_nil_r. repeat split. constructor. }
    rewrite readResponse_nth.
    match goal with
    | |- context [getCommands_loop budget maxCommands ?n ?k ?l ?q] =>
        destruct (IH n k l q) as (ls & tr & Hl & Ht' & Hh)
    end.
    exists ls, (Read (nth 0 (inbound p) "") :: tr).
    split; [exact Hl|].
    split; [rewrite Ht'; simpl; by rewrite <- !app_assoc|].
    by constructor.
Qed.

Lemma getCommands_loop_complete maxCommands rest ls :
  forall cur lines p t blankStreak budget,
  cur :: inbound p = ls ++ "eoc" :: rest ->
  trace p = t ++ [Read cur] ->
  Forall (fun l => l <> "" /\ l <> "eoc") ls ->
  (length lines + length ls < maxCommands)%nat ->
  (length ls < budget)%nat ->
  getCommands_loop budget maxCommands cur blankStreak lines p
  = (lines ++ ls,
     {| inbound := rest; trace := t ++ echoes ls ++ [Read "eoc"] |}).
Proof.
  induction ls as [|l ls IH];
    intros cur lines p t blankStreak budget Hin Htr Hok Hmax Hbudget;
    (destruct budget as [|budget]; [simpl in Hbudget; lia|]);
    simpl in Hin; injection Hin as -> Hin; cbn [getCommands_loop].
  - assert (E : (maxCommands <=? length lines)%nat = false).
    { apply Nat.leb_gt. simpl in Hmax. lia. }
    rewrite E. simpl. rewrite app_nil_r. f_equal.
    destruct p as [i tr]. simpl in *. by subst.
  - apply Forall_cons in Hok as [[Hne Heoc] Hok].
    assert (E : (maxCommands <=? length lines)%nat = false).
    { apply Nat.leb_gt. simpl in Hmax. lia. }
    rewrite E.
    destruct (JS.truthy l) eqn:Ht; [|by apply truthy_false in Ht].
    apply String.eqb_neq in Heoc. rewrite Heoc. cbn [negb].
    rewrite readResponse_nth. cbv beta iota zeta.
    rewrite (IH (nth 0 (inbound (sendCommand l p)) "") (lines ++ [l])
               _ (t ++ [Read l; Sent l]) 0%nat budget).
    + by rewrite <- !app_assoc.
    + simpl. rewrite Hin. by destruct ls.
    + simpl. rewrite Htr. by rewrite <- !app_assoc.
    + done.
    + rewrite length_app. simpl in *. lia.
    + simpl in Hbudget. lia.
Qed.

Local Transparent maxBlankStreak.

Lemma handshake_sent ls tr : handshake ls tr -> sent tr = ls.
Proof. induction 1; simpl; congruence. Qed.

Lemma handshake_recorded ls tr l :
  handshake ls tr -> In l ls -> l <> "" /\ l <> "eoc".
Proof.
  induction 1 as [|ls tr H IH|x ls tr H1 H2 H IH]; simpl; intros Hin.
  - done.
  - auto.
  - destruct Hin as [<-|Hin]; auto.
Qed.

Local Arguments String.append !_ _ / : simpl nomatch.

Lemma span_app f a rest :
  all_chars f a = true -> stops f rest -> span f (a +:+ rest) = (a, rest).
Proof.
  intros Ha Hr. induction a as [|c a IH]; simpl in *.
  - destruct rest as [|c r]; simpl in *; [done|]. by rewrite Hr.
  - apply andb_prop in Ha as [Hc Ha]. rewrite Hc, IH by done. done.
Qed.

Lemma append_empty_r s : s +:+ "" = s.
Proof. induction s; simpl; congruence. Qed.

Lemma opt_group_some m ds rest :
  digits ds -> stops is_digit rest ->
  opt_group m (String m ds +:+ rest) = (Some ds, rest).
Proof.
  intros [Hne Hds] Hr. unfold opt_group. simpl.
  rewrite Ascii.eqb_refl, span_app by done.
  by destruct ds.
Qed.

Lemma opt_group_none m s :
  stops (Ascii.eqb m) s -> opt_group m s = (None, s).
Proof.
  unfold opt_group. destruct s as [|c r]; simpl; [done|].
  intros H. by rewrite Ascii.eqb_sym, H.
Qed.

Lemma parseCommand_signature name out inp :
  name <> "" -> all_chars is_letter_ name = true ->
  (forall ds, out = Some ds -> digits ds) ->
  (forall ds, inp = Some ds -> digits ds) ->
  parseCommand (signature name out inp) =
  {| Device.command := name;
     numOfOutput := count_of out; numOfInput := count_of inp |}.
Proof.
  intros Hne Hname Hout Hinp. unfold parseCommand, signature.
  set (i := match inp with Some ds => "<" +:+ ds | None => "" end).
  set (o := match out with Some ds => ">" +:+ ds | None => "" end).
  assert (Hi : opt_group "<" i = (inp, "")).
  { subst i. destruct inp as [ds|]; [|done].
    transitivity (opt_group "<" (String "<" ds +:+ "")).
    - by rewrite append_empty_r.
    - apply opt_group_some; simpl; auto. }
  assert (Hsi : stops is_digit i /\ stops is_letter_ i /\ stops (Ascii.eqb ">") i).
  { subst i. destruct inp; simpl; auto. }
  destruct Hsi as (Hi1 & Hi2 & Hi3).
  assert (Ho : opt_group ">" (o +:+ i) = (out, i)).
  { subst o. destruct out as [ds|]; simpl String.append.
    - change (String ">" (ds +:+ i)) with (String ">" ds +:+ i).
      apply opt_group_some; auto.
    - by apply opt_group_none. }
  rewrite span_app; [|done|].
  - destruct name as [|c name]; [done|].
    rewrite Ho, Hi. by destruct out, inp.
  - subst o. destruct out; simpl; auto.
Qed.

Lemma register_lookup cs line :
  line <> "" -> line <> "eoc" ->
  let r := parseCommand line in
  register cs line !! Device.command r
    = Some (mkCmd (Device.command r) (numOfInput r) (numOfOutput r)).
Proof.
  intros H1 H2 r. unfold register.
  destruct (JS.truthy line) eqn:E; [|by apply truthy_false in E].
  apply String.eqb_neq in H2. rewrite H2. simpl.
  apply lookup_insert_eq.
Qed.

(** A name with a digit is cut at the digit by [parseCommand]: "light0>1"
    is registered as "light" without arities. *)
Example parseCommand_digit_name :
  parseCommand "light0>1"
  = {| Device.command := "light"; numOfOutput := 0; numOfInput := 0 |}.
Proof. reflexivity. Qed.

(** C3, as stated, fails: what discovery sends back is the line as it was
    read, signature included, not the bare name that [parseCommand] extracts
    from it. *)
Lemma getCommands_echo_counterexample :
  let p := {| inbound := ["getKW>1"; "eoc"]; trace := [] |} in
  fst (getCommands 100 128 p) = ["getKW>1"] /\
  Device.command (parseCommand "getKW>1") = "getKW" /\
  trace (snd (getCommands 100 128 p))
    = [Sent "getCommands"; Read "getKW>1"; Sent "getKW>1"; Read "eoc"] /\
  ~ In (Sent "getKW") (trace (snd (getCommands 100 128 p))).
Proof.
  repeat split.
  vm_compute. intros H. repeat (destruct H as [H|H]; [discriminate H|]).
  exact H.
Qed.

(** C3, amended.  During discovery the wire gains "getCommands" and then
    follows the handshake: every line read that is neither blank nor the
    sentinel is recorded and sent back exactly as it was read, the signature
    included, before the next line is read; when the lines up to the
    sentinel are free of blanks and fit the command limit and the deadline,
    all of them are recorded.  A recorded line made of a
    non-empty name of letters and underscores, then optionally [>N], then
    optionally [<M], is parsed as that name with output arity N and input
    arity M, each 0 when absent, and is registered in the catalog under the
    parsed name with those arities. *)
Theorem discovery_handshake_and_signature :
  (forall budget maxCommands p,
     let r := getCommands budget maxCommands p in
     exists tr,
       trace (snd r) = trace p ++ Sent "getCommands" :: tr /\
       handshake (fst r) tr /\
       sent tr = fst r /\
       (forall l, In l (fst r) -> l <> "" /\ l <> "eoc")) /\
  (forall ls rest budget maxCommands tr0,
     Forall (fun l => l <> "" /\ l <> "eoc") ls ->
     (length ls < maxCommands)%nat -> (length ls < budget)%nat ->
     getCommands budget maxCommands
       {| inbound := ls ++ "eoc" :: rest; trace := tr0 |}
     = (ls, {| inbound := rest;
               trace := tr0 ++ Sent "getCommands" :: echoes ls
                            ++ [Read "eoc"] |})) /\
  (forall name out inp,
     name <> "" -> all_chars is_letter_ name = true ->
     (forall ds, out = Some ds -> digits ds) ->
     (forall ds, inp = Some ds -> digits ds) ->
     parseCommand (signature name out inp) =
     {| Device.command := name;
        numOfOutput := count_of out; numOfInput := count_of inp |}) /\
  (forall cs line,
     line <> "" -> line <> "eoc" ->
     let r := parseCommand line in
     register cs line !! Device.command r
       = Some (mkCmd (Device.command r) (numOfInput r) (numOfOutput r))).
Proof.
  split; [|split;
           [|split; [apply parseCommand_signature | apply register_lookup]]].
  2:{ intros ls rest budget maxCommands tr0 Hok Hmax Hbudget.
      unfold getCommands. rewrite readResponse_nth. cbv beta iota zeta.
      rewrite (getCommands_loop_complete maxCommands rest ls _ []
                 _ (tr0 ++ [Sent "getCommands"]) 0%nat budget);
        try done.
      - simpl. by rewrite <- !app_assoc.
      - simpl. by destruct ls. }
  intros budget maxCommands p r. subst r. unfold getCommands.
  rewrite readResponse_nth. cbv beta iota zeta.
  match goal with
  | |- context [getCommands_loop budget maxCommands ?n ?k ?l ?q] =>
      destruct (getCommands_loop_handshake budget maxCommands n k l q)
        as (ls & tr & Hl & Ht & Hh)
  end.
  rewrite Hl, Ht. simpl.
  simpl in Hh.
  eexists. split; [by rewrite <- !app_assoc|].
  split; [exact Hh|].
  split; [by apply handshake_sent in Hh|].
  intros l Hin. eapply handshake_recorded; eauto.
Qed.

(** A device that announces "getKW>2<1" and "setLoad<1"; the first
    signature parsed and registered. *)
Lemma discovery_handshake_and_signature_witness :
  getCommands 100 128
    {| inbound := ["getKW>2<1"; "setLoad<1"; "eoc"]; trace := [] |}
  = (["getKW>2<1"; "setLoad<1"],
     {| inbound := [];
        trace := [Sent "getCommands"; Read "getKW>2<1"; Sent "getKW>2<1";
                  Read "setLoad<1"; Sent "setLoad<1"; Read "eoc"] |}) /\
  parseCommand "getKW>2<1" =
    {| Device.command := "getKW"; numOfOutput := 2; numOfInput := 1 |} /\
  register ∅ "getKW>2<1" !! "getKW" = Some (mkCmd "getKW" 1 2).
Proof.
  destruct discovery_handshake_and_signature as (_ & Hall & Hparse & Hreg).
  split; [|split].
  - apply (Hall ["getKW>2<1"; "setLoad<1"] [] 100%nat 128%nat []).
    + repeat constructor; discriminate.
    + simpl. lia.
    + simpl. lia.
  - apply (Hparse "getKW" (Some "2") (Some "1")).
    + discriminate.
    + reflexivity.
    + intros ds [= <-]. split; [discriminate | reflexivity].
    + intros ds [= <-]. split; [discriminate | reflexivity].
  - apply (Hreg ∅ "getKW>2<1"); discriminate.
Defined.

(** ** Demand inference *)

Lemma max_Qmax x y : JS.max x y = Qmax x y.
Proof.
  unfold JS.max, Qmax, GenericMinMax.gmax.
  destruct (JS.Qltb x y) eqn:E.
  - apply Qltb_true in E. by rewrite (proj1 (Qlt_alt x y) E).
  - apply Qltb_false in E. destruct (x ?= y) eqn:C; try done.
    apply (proj2 (Qlt_alt x y)) in C. lra.
Qed.

Lemma min_Qmin x y : JS.min x y = Qmin x y.
Proof.
  unfold JS.min, Qmin, GenericMinMax.gmin.
  destruct (JS.Qltb y x) eqn:E.
  - apply Qltb_true in E. by rewrite (proj1 (Qgt_alt x y) E).
  - apply Qltb_false in E. by destruct (x ?= y) eqn:C.
Qed.

Lemma clamp_step_bound m d : 0 <= m -> Qabs (Qmax (- m) (Qmin m d)) <= m.
Proof.
  intros Hm. apply Qabs_Qle_condition. split.
  - apply Q.le_max_l.
  - apply Q.max_lub; [lra | apply Q.le_min_l].
Qed.

(** C6.  With inference enabled, a previous inferred value [prev], a
    positive finite supply, alpha in [0.05, 0.95] and maxStepKW at least
    0.1, one step takes target = max(max(0, manual), supply), moves from
    [prev] towards it by at most maxStepKW in either direction, and returns
    prev + alpha * (bounded - prev), which also becomes the stored value. *)
Theorem inferDemandKW_step (s : inference) (manualDemandKW : option JS.num)
    (supply prev alpha maxStep : Q) :
  autoEstEnabled s = true ->
  autoEstDemandKW s = Some (JS.Fin prev) ->
  autoEstAlpha s = Some (JS.Fin alpha) ->
  autoEstMaxStepKW s = Some (JS.Fin maxStep) ->
  5 # 100 <= alpha <= 95 # 100 ->
  1 # 10 <= maxStep ->
  0 < supply ->
  let manual := match manualDemandKW with Some (JS.Fin m) => m | _ => 0 end in
  let target := Qmax (Qmax 0 manual) supply in
  let bounded := prev + Qmax (- maxStep) (Qmin maxStep (target - prev)) in
  exists next,
    inferDemandKW (Some (JS.Fin supply)) manualDemandKW s
      = (Some next, remember s next supply) /\
    next == prev + alpha * (bounded - prev) /\
    Qabs (bounded - prev) <= maxStep.
Proof.
  intros Hen Hprev Ha Hm [Ha1 Ha2] Hm1 Hs manual target bounded.
  assert (Es : stepLimit s == maxStep).
  { unfold stepLimit. rewrite Hm, max_Qmax. apply Q.max_r. lra. }
  assert (Ea : smoothing s == alpha).
  { unfold smoothing. rewrite Ha, max_Qmax, min_Qmin.
    rewrite Q.min_r by lra. apply Q.max_r. lra. }
  exists (smoothing s *
            (prev + JS.max (- stepLimit s)
                      (JS.min (stepLimit s)
                         (JS.max (JS.max 0 manual) supply - prev)))
          + (1 - smoothing s) * prev).
  split.
  { unfold inferDemandKW. rewrite Hen, Hprev. cbn [negb].
    apply Qleb_false in Hs. by rewrite Hs. }
  rewrite !max_Qmax, !min_Qmin. fold target. rewrite Es, Ea.
  subst bounded. split; [ring|].
  set (c := Qmax (- maxStep) (Qmin maxStep (target - prev))).
  assert (Hc : Qabs c <= maxStep) by (apply clamp_step_bound; lra).
  assert (E3 : prev + c - prev == c) by ring.
  by rewrite E3.
Qed.

(** The step at alpha = 0.35, maxStepKW = 1.0, previous = 5, supply = 10:
    the target 10 is cut to 6 and the result is 5.35. *)
Lemma inferDemandKW_step_witness :
  let s := {| autoEstEnabled := true;
              autoEstDemandKW := Some (JS.Fin 5);
              autoEstLastSupplyKW := None;
              autoEstAlpha := Some (JS.Fin (35 # 100));
              autoEstMaxStepKW := Some (JS.Fin 1) |} in
  exists next,
    fst (inferDemandKW (Some (JS.Fin 10)) None s) = Some next /\
    next == 535 # 100.
Proof.
  intros s.
  destruct (inferDemandKW_step s None 10 5 (35 # 100) 1
              eq_refl eq_refl eq_refl eq_refl)
    as (next & Hrun & Hnext & _).
  - split; discriminate.
  - discriminate.
  - reflexivity.
  - exists next. split; [by rewrite Hrun|].
    rewrite Hnext. reflexivity.
Defined.

(** ** Normalization of the connection graph *)

Lemma has_In k set : has k set = true <-> In k set.
Proof.
  unfold has. rewrite existsb_exists. split.
  - intros (x & Hx & E). apply String.eqb_eq in E. by subst.
  - intros H. exists k. split; [done | apply String.eqb_refl].
Qed.

Lemma normalize_loop_kept ids es :
  forall seen out,
  normalize_loop ids seen out es = out ++ kept ids seen es.
Proof.
  induction es as [|e es IH]; intros seen out; simpl.
  { by rewrite app_nil_r. }
  destruct (JS.truthy (fromId e)); simpl; [|apply IH].
  destruct (JS.truthy (toId e)); simpl; [|apply IH].
  destruct (has (fromId e) ids); simpl; [|apply IH].
  destruct (has (toId e) ids); simpl; [|apply IH].
  destruct (has (edgeKey (fromId e) (toId e)) seen); simpl; [apply IH|].
  rewrite IH. by rewrite <- app_assoc.
Qed.

Lemma kept_valid ids es :
  forall seen x, In x (kept ids seen es) ->
  In (fromId x) ids /\ In (toId x) ids /\
  ~ In (edgeKey (fromId x) (toId x)) seen.
Proof.
  induction es as [|e es IH]; intros seen x; simpl; [done|].
  destruct (JS.truthy (fromId e) && JS.truthy (toId e) &&
            has (fromId e) ids && has (toId e) ids &&
            negb (has (edgeKey (fromId e) (toId e)) seen)) eqn:E.
  - repeat (apply andb_prop in E as [E ?]).
    intros [<-|Hin].
    + simpl. repeat split; try by apply has_In.
      intros Hs. apply has_In in Hs.
      destruct (has (edgeKey (fromId e) (toId e)) seen); done.
    + destruct (IH _ _ Hin) as (Ha & Hb & Hc).
      repeat split; try done. intros Hs. apply Hc, in_or_app. by left.
  - apply IH.
Qed.

Lemma kept_NoDup ids es :
  forall seen,
  NoDup (List.map (fun x => edgeKey (fromId x) (toId x)) (kept ids seen es)).
Proof.
  induction es as [|e es IH]; intros seen; simpl; [constructor|].
  destruct (JS.truthy (fromId e) && JS.truthy (toId e) &&
            has (fromId e) ids && has (toId e) ids &&
            negb (has (edgeKey (fromId e) (toId e)) seen)) eqn:E;
    [|apply IH].
  simpl. constructor; [|apply IH].
  rewrite list_elem_of_In, in_map_iff. intros (x & Hk & Hin).
  apply kept_valid in Hin as (_ & _ & Hn).
  apply Hn, in_or_app. right. rewrite Hk. by left.
Qed.

Lemma kept_sublist ids es :
  forall seen, sublist (kept ids seen es) (List.map stored es).
Proof.
  induction es as [|e es IH]; intros seen; simpl; [constructor|].
  destruct (JS.truthy (fromId e) && JS.truthy (toId e) &&
            has (fromId e) ids && has (toId e) ids &&
            negb (has (edgeKey (fromId e) (toId e)) seen)).
  - apply sublist_skip, IH.
  - apply sublist_cons, IH.
Qed.

Lemma arrow_free_tail c r : arrow_free (String c r) -> arrow_free r.
Proof.
  unfold arrow_free. simpl. intros H. by apply orb_false_elim in H as [_ H].
Qed.

Lemma edgeKey_inj a a' b b' :
  arrow_free a -> arrow_free a' ->
  edgeKey a b = edgeKey a' b' -> a = a' /\ b = b'.
Proof.
  unfold edgeKey. revert a'.
  induction a as [|c r IH]; intros [|c' r'] Ha Ha' E; simpl in E.
  - by injection E as ->.
  - injection E as <- E. destruct r' as [|c2 r2]; simpl in E; [done|].
    injection E as <- _. unfold arrow_free in Ha'.
    destruct r2; simpl in Ha'; discriminate Ha'.
  - injection E as -> E. destruct r as [|c2 r2]; simpl in E; [done|].
    injection E as -> _. unfold arrow_free in Ha.
    destruct r2; simpl in Ha; discriminate Ha.
  - injection E as -> E.
    destruct (IH r' (arrow_free_tail _ _ Ha) (arrow_free_tail _ _ Ha') E)
      as [-> ->].
    done.
Qed.

Lemma kept_first ids pre :
  forall seen e post,
  (forall i, In i ids -> arrow_free i) ->
  fromId e <> "" -> toId e <> "" ->
  In (fromId e) ids -> In (toId e) ids ->
  ~ In (edgeKey (fromId e) (toId e)) seen ->
  (forall x, In x pre -> pair_of x <> pair_of e) ->
  In (stored e) (kept ids seen (pre ++ e :: post)).
Proof.
  induction pre as [|x pre IH]; intros seen e post Hfree Ha Hb Hia Hib Hs Hpre;
    simpl.
  - destruct (JS.truthy (fromId e)) eqn:Ta; [|by apply truthy_false in Ta].
    destruct (JS.truthy (toId e)) eqn:Tb; [|by apply truthy_false in Tb].
    rewrite (proj2 (has_In _ _) Hia), (proj2 (has_In _ _) Hib). simpl.
    destruct (has (edgeKey (fromId e) (toId e)) seen) eqn:E.
    + by apply has_In in E.
    + by left.
  - destruct (JS.truthy (fromId x) && JS.truthy (toId x) &&
              has (fromId x) ids && has (toId x) ids &&
              negb (has (edgeKey (fromId x) (toId x)) seen)) eqn:E.
    + right. apply IH; auto.
      * intros Hin. apply in_app_or in Hin as [Hin|[Hin|[]]]; [done|].
        repeat (apply andb_prop in E as [E ?]).
        apply edgeKey_inj in Hin as [E1 E2].
        -- apply (Hpre x); [by left|]. unfold pair_of. congruence.
        -- apply Hfree. by apply has_In.
        -- by apply Hfree.
      * intros y Hy. apply Hpre. by right.
    + apply IH; auto. intros y Hy. apply Hpre. by right.
Qed.

Lemma getConnDiagramId_nonempty d : getConnDiagramId d <> "".
Proof.
  unfold getConnDiagramId.
  set (base := if JS.truthy (id d) then id d else _).
  destruct (JS.startsWith "dev:" base) eqn:E; [|done].
  by destruct base.
Qed.

Lemma NoDup_map_compose {A B C} (g : A -> B) (f : B -> C) (l : list A) :
  NoDup (List.map (fun x => f (g x)) l) -> NoDup (List.map g l).
Proof.
  induction l as [|x l IH]; simpl; [constructor|].
  intros H. apply NoDup_cons in H as [Hx Hl]. apply NoDup_cons.
  split; [|auto].
  rewrite list_elem_of_In, in_map_iff in Hx.
  rewrite list_elem_of_In, in_map_iff.
  intros (y & Hy & Hin). apply Hx. exists y. split; [congruence | done].
Qed.

(** C8.  After normalization every edge has both endpoints among the ids of
    the current devices; no ordered pair of endpoints occurs twice; the
    edges that remain are, in their order, edges of the list before, with
    the stored kW reduced to a finite number or null, so nothing is added;
    and, device ids never containing "=>", the first edge of every pair
    whose endpoints both exist is among them, so it is the first occurrence
    that is kept. *)
Theorem normalizeConnections_invariant (s : manager) :
  let out := connections (normalizeConnections s) in
  let ids := existingIds s in
  (forall e, In e out -> In (fromId e) ids /\ In (toId e) ids) /\
  NoDup (List.map pair_of out) /\
  sublist out (List.map stored (connections s)) /\
  ((forall i, In i ids -> arrow_free i) ->
   forall pre e post,
     connections s = pre ++ e :: post ->
     In (fromId e) ids -> In (toId e) ids ->
     (forall x, In x pre -> pair_of x <> pair_of e) ->
     In (stored e) out).
Proof.
  intros out ids. subst out. unfold normalizeConnections. simpl.
  rewrite normalize_loop_kept. simpl. fold ids.
  split; [|split; [|split]].
  - intros e He. apply kept_valid in He as (Ha & Hb & _). done.
  - apply (NoDup_map_compose pair_of (fun p => edgeKey (fst p) (snd p))).
    apply kept_NoDup.
  - apply kept_sublist.
  - intros Hfree pre e post Hsplit Hia Hib Hpre. rewrite Hsplit.
    apply kept_first; auto.
    + intros E. rewrite E in Hia. unfold ids, existingIds in Hia.
      apply in_map_iff in Hia as (d & Hd & _).
      by apply getConnDiagramId_nonempty in Hd.
    + intros E. rewrite E in Hib. unfold ids, existingIds in Hib.
      apply in_map_iff in Hib as (d & Hd & _).
      by apply getConnDiagramId_nonempty in Hd.
Qed.

(** The normalization of three edges between two devices: a duplicate pair
    and an edge to a device that is gone. *)
Lemma normalizeConnections_invariant_witness :
  let dev k := {| id := k; name := "fan"; type := "consumer";
                  commands := []; revidyneDevice := None;
                  lastCommand := ""; lastStatus := "";
                  portKey := ""; path := ""; serialNumber := "" |} in
  let e1 := mkEdge "dev:device_0" "dev:device_1" (Some (JS.Fin 2)) in
  let e2 := mkEdge "dev:device_0" "dev:device_1" (Some (JS.Fin 5)) in
  let e3 := mkEdge "dev:device_0" "dev:device_9" (Some (JS.Fin 1)) in
  let s := {| connectedDevices := [dev "device_0"];
              availableDevices := [dev "device_1"];
              connections := [e1; e2; e3]; loadPowerEst := fun _ => None;
              preferManualEstimates := false; safeModeEnabled := false;
              commandLog := []; connMode2LastApplied := None;
              connMode2InFlight := false |} in
  connections (normalizeConnections s) = [e1] /\
  In (stored e1) (connections (normalizeConnections s)).
Proof.
  intros dev e1 e2 e3 s. split; [reflexivity|].
  destruct (normalizeConnections_invariant s) as (_ & _ & _ & Hfirst).
  apply (Hfirst ltac:(intros i [<-|[<-|[]]]; reflexivity) [] e1 [e2; e3]).
  - reflexivity.
  - left. reflexivity.
  - right. left. reflexivity.
  - intros x [].
Defined.

(** ** Mode 2 *)

Lemma sum_fold {A} (g : A -> Q) (l : list A) :
  forall acc,
  fold_left (fun a e => a + g e) l acc == acc + Qsum (List.map g l).
Proof.
  induction l as [|x l IH]; intros acc; simpl; [ring|].
  rewrite IH. ring.
Qed.

Lemma otherSupply_fold s (l : list deviceInfo) :
  forall acc,
  fold_left
    (fun acc d =>
       if negb (String.eqb (type d) "provider") then acc
       else if isGenerator d then acc
       else
         match est_kw (computeEstimatedKW s d None) with
         | Some k => acc + k
         | None => acc
         end) l acc
  == acc + Qsum (List.map (supply_of s) (List.filter other_provider l)).
Proof.
  induction l as [|d l IH]; intros acc; [simpl; ring|].
  cbn [fold_left List.filter]. rewrite IH. unfold other_provider at 2.
  destruct (String.eqb (type d) "provider"); cbn [negb andb]; [|ring].
  destruct (isGenerator d); cbn [negb andb List.map Qsum]; [ring|].
  unfold supply_of at 2.
  destruct (est_kw (computeEstimatedKW s d None));
    cbv [from_option Datatypes.id]; ring.
Qed.


Lemma clamp01_nonneg v : 0 <= clamp01 v.
Proof.
  unfold clamp01. destruct v; try lra. apply max_lower.
Qed.

Lemma parsePositiveNumber_nonneg v q : parsePositiveNumber v = Some q -> 0 <= q.
Proof.
  unfold parsePositiveNumber. destruct v as [[n| |]|]; try done.
  destruct (JS.Qltb n 0) eqn:E; [done|]. intros [= <-].
  by apply Qltb_false in E.
Qed.

Lemma estimateOf_nonneg d est e k :
  estimateOf d est = Some e -> est_kw e = Some k -> 0 <= k.
Proof.
  unfold estimateOf.
  destruct (String.eqb (type d) "consumer").
  - destruct (parsePositiveNumber (ratedW est)) as [r|] eqn:E; [|done].
    intros [= <-] [= <-]. apply parsePositiveNumber_nonneg in E.
    pose proof (clamp01_nonneg (default (JS.Fin 1) (utilization est))) as H.
    apply Qle_shift_div_l; [reflexivity|]. nra.
  - destruct (String.eqb (type d) "provider"); [|done].
    destruct (parsePositiveNumber (capacityKW est)) as [c|] eqn:E; [|done].
    intros [= <-] [= <-]. apply parsePositiveNumber_nonneg in E.
    pose proof (clamp01_nonneg (default (JS.Fin 1) (availability est))) as H.
    nra.
Qed.

(** Without telemetry the estimate is never negative, so the cap of Mode 2
    exists exactly when the generator has an estimate. *)
Lemma capOf_estimate s gen :
  capOf s gen = est_kw (computeEstimatedKW s gen None).
Proof.
  unfold capOf.
  destruct (est_kw (computeEstimatedKW s gen None)) as [k|] eqn:E; [|done].
  assert (Hk : 0 <= k).
  { revert E. unfold computeEstimatedKW.
    set (est := default noEst (loadPowerEst s (name gen))).
    destruct (preferManualEstimates s).
    - destruct (estimateOf gen est) as [e|] eqn:Ee.
      + intros E. eapply estimateOf_nonneg; eauto.
      + destruct (String.eqb (type gen) "consumer" ||
                  String.eqb (type gen) "provider"); by rewrite ?Ee.
    - destruct (String.eqb (type gen) "consumer" ||
                String.eqb (type gen) "provider"); [|done].
      destruct (estimateOf gen est) as [e|] eqn:Ee; [|done].
      intros E. eapply estimateOf_nonneg; eauto. }
  apply Qleb_true in Hk. by rewrite Hk.
Qed.
















Lemma generators_with_mode2 s last inFlight :
  getConnectedGeneratorDevices (with_mode2 s last inFlight)
  = getConnectedGeneratorDevices s.
Proof. reflexivity. Qed.

Lemma targetRounded_with_mode2 s last inFlight gen :
  targetRounded (with_mode2 s last inFlight) gen = targetRounded s gen.
Proof. reflexivity. Qed.

Lemma isSameTarget_with_mode2 s inFlight gen t :
  isSameTarget (with_mode2 s (connMode2LastApplied s) inFlight) gen t
  = isSameTarget s gen t.
Proof. reflexivity. Qed.

(** The runs of Mode 2 that send nothing. *)
Lemma applyConnectionsMode2_idle s :
  connMode2InFlight s = false ->
  match getConnectedGeneratorDevices s with
  | [] => True
  | gen :: _ =>
      safeModeEnabled s = true \/
      isSameTarget s gen (targetRounded s gen) = true
  end ->
  applyConnectionsMode2 s = with_mode2 s (connMode2LastApplied s) false.
Proof.
  intros Hfl H. unfold applyConnectionsMode2. rewrite Hfl.
  rewrite generators_with_mode2.
  destruct (getConnectedGeneratorDevices s) as [|gen rest]; [done|].
  rewrite targetRounded_with_mode2, isSameTarget_with_mode2.
  change (safeModeEnabled (with_mode2 s (connMode2LastApplied s) true))
    with (safeModeEnabled s).
  destruct (safeModeEnabled s); [done|].
  destruct H as [H|H]; [done|]. by rewrite H.
Qed.




Lemma deficit_spec s :
  deficitKW (computeMode2TargetKW s)
  = Qmax 0 (demandKW (computeMode2TargetKW s)
            - otherSupplyKW (computeMode2TargetKW s)).
Proof. unfold computeMode2TargetKW. cbn [deficitKW demandKW otherSupplyKW]. apply max_Qmax. Qed.

Lemma targetRounded_spec s gen :
  targetRounded s gen =
  JS.round2
    match capOf s gen with
    | Some cap => Qmin (deficitKW (computeMode2TargetKW s)) cap
    | None => deficitKW (computeMode2TargetKW s)
    end.
Proof.
  unfold targetRounded. destruct (capOf s gen); [|done]. by rewrite min_Qmin.
Qed.



(** On the sample plant with nothing applied yet, Mode 2 sends "setLoad" and
    then "6" to the generator and records the application. *)
Example mode2_dispatch_sample :
  let s := applyConnectionsMode2 (Samples.plant None None) in
  wire "device_0" s = Some [Sent "setLoad"; Sent "6"] /\
  connMode2LastApplied s = Some (mkLast "device_0" (JS.round2 6)) /\
  List.map error (commandLog s) = [""].
Proof. vm_compute. repeat split. Qed.

(** ** The device queue *)

Import Queue.

Lemma lookup_push pr st k x :
  promises (push pr st) !! k = Some x <->
  promises st !! k = Some x \/ (k = length (promises st) /\ x = pr).
Proof.
  unfold push, alloc. simpl. rewrite lookup_snoc_Some. split.
  - intros [[_ H]|[-> <-]]; auto.
  - intros [H|[-> ->]]; [|auto]. left. split; [|done].
    by eapply lookup_lt_Some.
Qed.

Lemma lookup_old st k x :
  promises st !! k = Some x -> (k < length (promises st))%nat.
Proof. apply lookup_lt_Some. Qed.

Lemma has_origin_push pr st k og :
  has_origin (push pr st) k og <->
  has_origin st k og \/ (k = length (promises st) /\ origin_of pr = og).
Proof.
  unfold has_origin. split.
  - intros (b & o & H). apply lookup_push in H as [H|[-> <-]]; eauto.
  - intros [(b & o & H)|[-> <-]].
    + exists b, o. apply lookup_push. by left.
    + exists (started pr), (settled pr). apply lookup_push. right.
      by destruct pr.
Qed.

Lemma has_outcome_push pr st k o :
  has_outcome (push pr st) k o <->
  has_outcome st k o \/ (k = length (promises st) /\ settled pr = Some o).
Proof.
  unfold has_outcome. split.
  - intros (x & H & Ho). apply lookup_push in H as [H|[-> ->]]; eauto.
  - intros [(x & H & Ho)|[-> Ho]].
    + exists x. split; [|done]. apply lookup_push. by left.
    + exists pr. split; [|done]. apply lookup_push. by right.
Qed.

Lemma is_settled_push pr st k :
  is_settled st k -> is_settled (push pr st) k.
Proof. intros (o & H). exists o. apply has_outcome_push. by left. Qed.

Lemma is_task_push pr st d k :
  is_task (push pr st) d k <->
  is_task st d k \/
  (k = length (promises st) /\ exists p, origin_of pr = ThenTask p d).
Proof.
  unfold is_task. split.
  - intros (p & H). apply has_origin_push in H as [H|[-> H]]; eauto.
  - intros [(p & H)|[-> (p & H)]]; exists p; apply has_origin_push; eauto.
Qed.

Lemma has_origin_old st k og :
  has_origin st k og -> (k < length (promises st))%nat.
Proof. intros (b & o & H). by eapply lookup_old. Qed.

Lemma is_task_old st d k :
  is_task st d k -> (k < length (promises st))%nat.
Proof. intros (p & H). by eapply has_origin_old. Qed.

Lemma wf_init : wf init.
Proof.
  split.
  - intros i b o H. destruct i; discriminate H.
  - intros i p b o H. destruct i; discriminate H.
  - intros i p d o H. destruct i; discriminate H.
  - intros i p d b o H. destruct i; discriminate H.
  - intros j c d (b & o & H). destruct j; discriminate H.
  - intros d n H. change ((∅ : gmap string nat) !! d = Some n) in H.
    by rewrite lookup_empty in H.
  - intros d _ i (p & b & o & H). destruct i; discriminate H.
Qed.

(** Pushing a promise that is not a task, pending or a resolved one. *)
Lemma wf_push_plain pr st :
  wf st ->
  (forall p d, origin_of pr <> ThenTask p d) ->
  (origin_of pr = Resolved -> settled pr = Some Fulfilled) ->
  (forall p, origin_of pr = Catch p -> settled pr = None) ->
  wf (push pr st).
Proof.
  intros Hwf Hnt Hres Hcatch.
  assert (Htask : forall d k, is_task (push pr st) d k <-> is_task st d k).
  { intros d k. rewrite is_task_push. split; [|auto].
    intros [H|[_ (p & H)]]; [done|]. by apply Hnt in H. }
  split.
  - intros i b o H. apply lookup_push in H as [H|[_ H]].
    + by eapply wf_resolved.
    + subst pr. simpl in *. by rewrite Hres.
  - intros i p b o H. apply lookup_push in H as [H|[_ H]].
    + destruct (wf_catch _ Hwf _ _ _ _ H) as [-> Hs].
      split; [done|]. by apply is_settled_push.
    + subst pr. simpl in *. by specialize (Hcatch p eq_refl).
  - intros i p d o H. apply lookup_push in H as [H|[_ H]].
    + apply has_outcome_push. left. by eapply wf_called.
    + subst pr. by destruct (Hnt p d).
  - intros i p d b o H. apply lookup_push in H as [H|[_ H]].
    + destruct (wf_settled _ Hwf _ _ _ _ _ H) as [->|Hr]; [by left|].
      right. apply has_outcome_push. by left.
    + subst pr. by destruct (Hnt p d).
  - intros j c d H. apply has_origin_push in H as [H|[_ H]];
      [|by destruct (Hnt c d)].
    destruct (wf_chain _ Hwf _ _ _ H) as (p & Hc & Hp).
    exists p. split; [apply has_origin_push; by left|].
    destruct Hp as [[Hr Hall]|(Ht & Hlt & Hall)].
    + left. split; [apply has_origin_push; by left|].
      intros i Hi. apply Hall. by apply Htask.
    + right. split; [by apply Htask|]. split; [done|].
      intros i Hi. apply Hall. by apply Htask.
  - intros d n H. change (deviceQueues st !! d = Some n) in H.
    destruct (wf_tail _ Hwf _ _ H) as [[Hr Hall]|[Ht Hall]].
    + left. split; [apply has_origin_push; by left|].
      intros i Hi. apply (Hall i). by apply Htask.
    + right. split; [by apply Htask|]. intros i Hi. apply Hall.
      by apply Htask.
  - intros d H i Hi. change (deviceQueues st !! d = None) in H.
    apply (wf_none _ Hwf _ H i). by apply Htask.
Qed.

Lemma wf_set_queue_resolved st d n :
  wf st -> deviceQueues st !! d = None -> has_origin st n Resolved ->
  wf (set_queue d n st).
Proof.
  intros Hwf Hd Hn. split.
  - exact (wf_resolved _ Hwf).
  - exact (wf_catch _ Hwf).
  - exact (wf_called _ Hwf).
  - exact (wf_settled _ Hwf).
  - exact (wf_chain _ Hwf).
  - intros d' n' H. unfold set_queue in H. simpl in H.
    destruct (decide (d = d')) as [<-|Hne].
    + rewrite lookup_insert_eq in H. injection H as <-. left.
      split; [exact Hn | exact (wf_none _ Hwf _ Hd)].
    + rewrite lookup_insert_ne in H by done. exact (wf_tail _ Hwf _ _ H).
  - intros d' H. unfold set_queue in H. simpl in H.
    destruct (decide (d = d')) as [<-|Hne].
    + by rewrite lookup_insert_eq in H.
    + rewrite lookup_insert_ne in H by done. exact (wf_none _ Hwf _ H).
Qed.

Lemma wf_push_task st c d prev :
  wf st -> deviceQueues st !! d = Some prev ->
  has_origin st c (Catch prev) ->
  wf (set_queue d (length (promises st))
        (push (mkPromise (ThenTask c d) false None) st)).
Proof.
  intros Hwf Hd Hc.
  set (pr := mkPromise (ThenTask c d) false None).
  set (n := length (promises st)).
  assert (Htask : forall d' k,
    is_task (push pr st) d' k <-> is_task st d' k \/ (k = n /\ d' = d)).
  { intros d' k. rewrite is_task_push. subst pr. simpl. split.
    - intros [H|[-> (p & [= _ ->])]]; auto.
    - intros [H|[-> ->]]; eauto. }
  split.
  - intros i b o H. apply lookup_push in H as [H|[_ H]]; [|done].
    by eapply wf_resolved.
  - intros i p b o H. apply lookup_push in H as [H|[_ H]]; [|done].
    destruct (wf_catch _ Hwf _ _ _ _ H) as [-> Hs].
    split; [done|]. by apply is_settled_push.
  - intros i p d' o H. apply lookup_push in H as [H|[_ H]]; [|done].
    apply has_outcome_push. left. by eapply wf_called.
  - intros i p d' b o H. apply lookup_push in H as [H|[_ H]]; [|done].
    destruct (wf_settled _ Hwf _ _ _ _ _ H) as [->|Hr]; [by left|].
    right. apply has_outcome_push. by left.
  - intros j c' d' H. apply has_origin_push in H as [H|[-> H]].
    + pose proof (has_origin_old _ _ _ H) as Hj.
      destruct (wf_chain _ Hwf _ _ _ H) as (p & Hc' & Hp).
      exists p. split; [apply has_origin_push; by left|].
      destruct Hp as [[Hr Hall]|(Ht & Hlt & Hall)].
      * left. split; [apply has_origin_push; by left|].
        intros i Hi. apply Htask in Hi as [Hi|[-> _]]; [by apply Hall|].
        fold n in Hj. lia.
      * right. split; [apply Htask; by left|]. split; [done|].
        intros i Hi. apply Htask in Hi as [Hi|[-> _]]; [by apply Hall|].
        right. fold n in Hj. lia.
    + subst pr. simpl in H. injection H as <- <-.
      exists prev. split; [apply has_origin_push; by left|].
      destruct (wf_tail _ Hwf _ _ Hd) as [[Hr Hall]|[Ht Hall]].
      * left. split; [apply has_origin_push; by left|].
        intros i Hi. apply Htask in Hi as [Hi|[-> _]];
          [by destruct (Hall i) | done].
      * right. split; [apply Htask; by left|].
        split; [by eapply is_task_old|].
        intros i Hi. apply Htask in Hi as [Hi|[-> _]]; [left; by apply Hall|].
        by right.
  - intros d' n' H. unfold set_queue in H. simpl in H.
    destruct (decide (d = d')) as [<-|Hne].
    + rewrite lookup_insert_eq in H. injection H as <-. right. split.
      * apply Htask. by right.
      * intros i Hi. apply Htask in Hi as [Hi|[-> _]]; [|done].
        apply is_task_old in Hi. fold n in Hi. lia.
    + rewrite lookup_insert_ne in H by done.
      destruct (wf_tail _ Hwf _ _ H) as [[Hr Hall]|[Ht Hall]].
      * left. split; [apply has_origin_push; by left|].
        intros i Hi. apply Htask in Hi as [Hi|[_ ->]]; [|done].
        by apply (Hall i).
      * right. split; [apply Htask; by left|].
        intros i Hi. apply Htask in Hi as [Hi|[_ ->]]; [|done].
        by apply Hall.
  - intros d' H i Hi. unfold set_queue in H. simpl in H.
    destruct (decide (d = d')) as [<-|Hne].
    + by rewrite lookup_insert_eq in H.
    + rewrite lookup_insert_ne in H by done.
      apply Htask in Hi as [Hi|[_ ->]]; [|done].
      by apply (wf_none _ Hwf _ H i).
Qed.

Lemma getQueueForDevice_wf d st :
  wf st ->
  wf (snd (getQueueForDevice d st)) /\
  deviceQueues (snd (getQueueForDevice d st)) !! d
    = Some (fst (getQueueForDevice d st)).
Proof.
  intros Hwf. unfold getQueueForDevice.
  destruct (deviceQueues st !! d) as [n|] eqn:Hd; simpl; [done|].
  split; [|apply lookup_insert_eq].
  apply (wf_set_queue_resolved
           (push (mkPromise Resolved false (Some Fulfilled)) st)).
  - apply wf_push_plain; try done.
  - exact Hd.
  - apply has_origin_push. by right.
Qed.

Lemma enqueueDeviceCommand_wf d st :
  wf st ->
  wf (snd (enqueueDeviceCommand d st)) /\
  promises (snd (enqueueDeviceCommand d st)) !! fst (enqueueDeviceCommand d st)
    = Some (mkPromise
              (ThenTask (length (promises (snd (getQueueForDevice d st)))) d)
              false None) /\
  deviceQueues (snd (enqueueDeviceCommand d st)) !! d
    = Some (fst (enqueueDeviceCommand d st)).
Proof.
  intros Hwf. destruct (getQueueForDevice_wf d st Hwf) as [Hwf1 Hq].
  unfold enqueueDeviceCommand.
  destruct (getQueueForDevice d st) as [prev st1]. simpl in *.
  split; [|split].
  - apply (wf_push_task (push (mkPromise (Catch prev) false None) st1)
             (length (promises st1)) d prev).
    + apply wf_push_plain; try done.
    + exact Hq.
    + apply has_origin_push. by right.
  - apply (lookup_push _ (push (mkPromise (Catch prev) false None) st1)).
    by right.
  - apply lookup_insert_eq.
Qed.

Lemma lookup_alter_Some (f : promise -> promise) (l : list promise) i k y :
  alter f i l !! k = Some y <->
  exists x, l !! k = Some x /\ y = if decide (i = k) then f x else x.
Proof.
  rewrite list_lookup_alter. case_decide as E.
  - subst k. destruct (l !! i) as [x|]; simpl; split.
    + intros [= <-]. eauto.
    + by intros (x' & [= <-] & ->).
    + done.
    + by intros (x' & [=] & _).
  - split; [eauto|]. by intros (x & -> & ->).
Qed.

(** Changing one promise in place, keeping its origin and only moving it
    forward. *)
Lemma wf_alter st i f pr :
  wf st ->
  promises st !! i = Some pr ->
  origin_of (f pr) = origin_of pr ->
  (started pr = true -> started (f pr) = true) ->
  (forall o, settled pr = Some o -> settled (f pr) = Some o) ->
  origin_of pr <> Resolved ->
  (forall p o, origin_of pr = Catch p -> settled (f pr) = Some o ->
     o = Fulfilled /\ is_settled st p) ->
  (forall p d, origin_of pr = ThenTask p d -> started (f pr) = true ->
     has_outcome st p Fulfilled) ->
  (forall p d o, origin_of pr = ThenTask p d -> settled (f pr) = Some o ->
     started (f pr) = true \/ has_outcome st p Rejected) ->
  wf {| promises := alter f i (promises st);
        deviceQueues := deviceQueues st |}.
Proof.
  intros Hwf Hi Horig Hstart Hset Hnr Hcatch Hcall Hsettle.
  set (st' := {| promises := alter f i (promises st);
                 deviceQueues := deviceQueues st |}).
  assert (Hout : forall k o, has_outcome st k o -> has_outcome st' k o).
  { intros k o (x & Hx & Ho). unfold has_outcome, st'. simpl.
    destruct (decide (i = k)) as [<-|Hne].
    - exists (f pr). rewrite list_lookup_alter_eq, Hi. simpl.
      split; [done|]. apply Hset. congruence.
    - exists x. by rewrite list_lookup_alter_ne. }
  assert (Hsett : forall k, is_settled st k -> is_settled st' k).
  { intros k (o & Ho). exists o. by apply Hout. }
  assert (Horg : forall k og, has_origin st' k og <-> has_origin st k og).
  { intros k og. unfold has_origin, st'. simpl. split.
    - intros (b & o & H). apply lookup_alter_Some in H as (x & Hx & E).
      case_decide as Hk.
      + subst k. rewrite Hi in Hx. injection Hx as <-.
        exists (started pr), (settled pr). rewrite Hi. f_equal.
        destruct pr as [og' b' o']. simpl in *. rewrite <- E in Horig.
        simpl in Horig. by subst.
      + subst x. eauto.
    - intros (b & o & H). destruct (decide (i = k)) as [<-|Hne].
      + exists (started (f pr)), (settled (f pr)).
        rewrite list_lookup_alter_eq, Hi. simpl. f_equal.
        rewrite Hi in H. injection H as ->. simpl in Horig.
        destruct (f _). simpl in *. by subst.
      + exists b, o. by rewrite list_lookup_alter_ne. }
  assert (Htask : forall d k, is_task st' d k <-> is_task st d k).
  { intros d k. unfold is_task. split; intros (p & H); exists p;
      by apply Horg. }
  split.
  - intros k b o H. apply lookup_alter_Some in H as (x & Hx & E).
    case_decide as Hk.
    + subst k. rewrite Hi in Hx. injection Hx as <-.
      rewrite <- E in Horig. simpl in Horig. by destruct Hnr.
    + subst x. by eapply wf_resolved.
  - intros k p b o H. apply lookup_alter_Some in H as (x & Hx & E).
    case_decide as Hk.
    + subst k. rewrite Hi in Hx. injection Hx as <-.
      rewrite <- E in *. simpl in *.
      destruct (Hcatch p o (eq_sym Horig) eq_refl) as [-> Hs]. auto.
    + subst x. destruct (wf_catch _ Hwf _ _ _ _ Hx) as [-> Hs]. auto.
  - intros k p d o H. apply lookup_alter_Some in H as (x & Hx & E).
    case_decide as Hk.
    + subst k. rewrite Hi in Hx. injection Hx as <-.
      rewrite <- E in *. simpl in *.
      apply Hout. by apply (Hcall p d).
    + subst x. apply Hout. by eapply wf_called.
  - intros k p d b o H. apply lookup_alter_Some in H as (x & Hx & E).
    case_decide as Hk.
    + subst k. rewrite Hi in Hx. injection Hx as <-.
      rewrite <- E in *. simpl in *.
      destruct (Hsettle p d o (eq_sym Horig) eq_refl) as [?|?]; auto.
    + subst x. destruct (wf_settled _ Hwf _ _ _ _ _ Hx) as [?|?]; auto.
  - intros j c d H. apply Horg in H.
    destruct (wf_chain _ Hwf _ _ _ H) as (p & Hc & Hp).
    exists p. split; [by apply Horg|].
    destruct Hp as [[Hr Hall]|(Ht & Hlt & Hall)].
    + left. split; [by apply Horg|]. intros k Hk. apply Hall.
      by apply Htask.
    + right. split; [by apply Htask|]. split; [done|].
      intros k Hk. apply Hall. by apply Htask.
  - intros d n H. change (deviceQueues st !! d = Some n) in H.
    destruct (wf_tail _ Hwf _ _ H) as [[Hr Hall]|[Ht Hall]].
    + left. split; [by apply Horg|]. intros k Hk. apply (Hall k).
      by apply Htask.
    + right. split; [by apply Htask|]. intros k Hk. apply Hall.
      by apply Htask.
  - intros d H k Hk. change (deviceQueues st !! d = None) in H.
    apply (wf_none _ Hwf _ H k). by apply Htask.
Qed.

Lemma wf_step st st' : wf st -> step st st' -> wf st'.
Proof.
  intros Hwf Hstep. destruct Hstep as
    [st d | st i p b Hi Hp | st i p d Hi Hp | st i p d Hi Hp | st i p d o Hi].
  - by apply enqueueDeviceCommand_wf.
  - eapply (wf_alter st i _ _ Hwf Hi); simpl; try done.
    + by intros p' o [= <-] [= <-].
  - eapply (wf_alter st i _ _ Hwf Hi); simpl; try done.
    + by intros p' d' [= <- <-] _.
  - eapply (wf_alter st i _ _ Hwf Hi); simpl; try done.
    + intros p' d' o [= <- <-] [= <-]. by right.
  - eapply (wf_alter st i _ _ Hwf Hi); simpl; try done.
    + intros p' d' [= <- <-] _. by eapply wf_called.
    + intros p' d' o' _ _. by left.
Qed.

Lemma reachable_wf st : reachable st -> wf st.
Proof.
  unfold reachable. intros H.
  revert st H. apply (rtc_ind_r (R:=step) wf init); [apply wf_init|].
  intros y z _ Hstep Hy. by eapply wf_step.
Qed.

Lemma catch_never_rejected st c p :
  wf st -> has_origin st c (Catch p) -> ~ has_outcome st c Rejected.
Proof.
  intros Hwf (b & o & Hc) (x & Hx & Ho). rewrite Hc in Hx.
  injection Hx as <-. simpl in Ho. subst o.
  by destruct (wf_catch _ Hwf _ _ _ _ Hc).
Qed.

Lemma settled_task_called st d p :
  wf st -> is_task st d p -> is_settled st p -> called st p.
Proof.
  intros Hwf (c & b & o & Hp) (o' & x & Hx & Ho).
  rewrite Hp in Hx. injection Hx as <-. simpl in Ho. subst o.
  destruct (wf_settled _ Hwf _ _ _ _ _ Hp) as [->|Hr].
  - eexists. split; [exact Hp | done].
  - destruct (wf_chain _ Hwf p c d) as (q & Hc & _); [by eexists _, _|].
    by destruct (catch_never_rejected st c q).
Qed.

(** A task is called only after every task enqueued earlier for the same
    device has settled. *)
Lemma called_after_earlier_settled st d :
  wf st ->
  forall j i,
  is_task st d i -> is_task st d j -> (i < j)%nat -> called st j ->
  is_settled st i.
Proof.
  intros Hwf j. induction j as [j IH] using lt_wf_ind.
  intros i Hi Hj Hlt (pr & Hpr & Hst).
  destruct Hj as (c & b & o & Hj). rewrite Hj in Hpr. injection Hpr as <-.
  simpl in Hst. subst b.
  pose proof (wf_called _ Hwf _ _ _ _ Hj) as (x & Hx & Hxo).
  destruct (wf_chain _ Hwf j c d) as (p & (b' & o' & Hc) & Hp);
    [by eexists _, _|].
  rewrite Hc in Hx. injection Hx as <-. simpl in Hxo. subst o'.
  destruct (wf_catch _ Hwf _ _ _ _ Hc) as [_ Hps].
  destruct Hp as [[_ Hall]|(Ht & Hpj & Hall)].
  - specialize (Hall i Hi). lia.
  - destruct (Hall i Hi) as [Hip|Hji]; [|lia].
    destruct (decide (i = p)) as [->|Hne]; [done|].
    apply (IH p Hpj i Hi Ht); [lia|].
    by apply (settled_task_called st d).
Qed.

Lemma running_is_task st d i : running st d i -> is_task st d i.
Proof. intros (p & H). by exists p, true, None. Qed.

Lemma running_called st d i : running st d i -> called st i.
Proof. intros (p & H). eexists. split; [exact H | done]. Qed.

Lemma running_not_settled st d i : running st d i -> ~ is_settled st i.
Proof.
  intros (p & H) (o & x & Hx & Ho). rewrite H in Hx. injection Hx as <-.
  done.
Qed.

Lemma running_exclusive st d i j :
  wf st -> running st d i -> running st d j -> i = j.
Proof.
  intros Hwf Hi Hj.
  destruct (Nat.lt_trichotomy i j) as [Hlt|[->|Hlt]]; [|done|].
  - destruct (running_not_settled st d i Hi).
    apply (called_after_earlier_settled st d Hwf j i);
      eauto using running_is_task, running_called.
  - destruct (running_not_settled st d j Hj).
    apply (called_after_earlier_settled st d Hwf i j);
      eauto using running_is_task, running_called.
Qed.

Lemma lookup_settle_eq st i o pr :
  promises st !! i = Some pr ->
  promises (settle i o st) !! i
    = Some (mkPromise (origin_of pr) (started pr) (Some o)).
Proof. intros H. unfold settle. simpl. by rewrite list_lookup_alter_eq, H. Qed.

Lemma lookup_settle_ne st i o k :
  i <> k -> promises (settle i o st) !! k = promises st !! k.
Proof. intros H. unfold settle. simpl. by rewrite list_lookup_alter_ne. Qed.

Lemma lookup_start_eq st i pr :
  promises st !! i = Some pr ->
  promises (start i st) !! i
    = Some (mkPromise (origin_of pr) true (settled pr)).
Proof. intros H. unfold start. simpl. by rewrite list_lookup_alter_eq, H. Qed.

(** Once every earlier task of the device has settled, whatever the
    outcome, the next task gets called within two turns of the loop. *)
Lemma next_task_can_run st d j c :
  wf st ->
  promises st !! j = Some (mkPromise (ThenTask c d) false None) ->
  (forall i, is_task st d i -> (i < j)%nat -> is_settled st i) ->
  exists st', rtc step st st' /\ running st' d j.
Proof.
  intros Hwf Hj Hearlier.
  destruct (wf_chain _ Hwf j c d) as (p & (b' & o' & Hc) & Hp);
    [by eexists _, _|].
  assert (Hps : is_settled st p).
  { destruct Hp as [[(b & o & Hr) _]|(Ht & Hpj & _)].
    - exists Fulfilled. eexists. split; [exact Hr|].
      simpl. by eapply wf_resolved.
    - by apply Hearlier. }
  assert (Hjc : c <> j).
  { intros ->. rewrite Hj in Hc. discriminate Hc. }
  destruct o' as [o'|].
  - destruct (wf_catch _ Hwf _ _ _ _ Hc) as [-> _].
    exists (start j st). split.
    + apply rtc_once. eapply step_then_call; [exact Hj|].
      eexists. split; [exact Hc | done].
    + exists c. by rewrite (lookup_start_eq st j _ Hj).
  - set (st1 := settle c Fulfilled st).
    assert (Hj1 : promises st1 !! j
                  = Some (mkPromise (ThenTask c d) false None)).
    { unfold st1. by rewrite lookup_settle_ne. }
    exists (start j st1). split.
    + eapply rtc_l; [eapply step_catch; [exact Hc | exact Hps]|].
      apply rtc_once. eapply step_then_call; [exact Hj1|].
      eexists. split; [apply (lookup_settle_eq st c Fulfilled _ Hc) | done].
    + exists c. by rewrite (lookup_start_eq st1 j _ Hj1).
Qed.

Lemma step_outcome_stable st st' i o :
  step st st' -> has_outcome st i o -> has_outcome st' i o.
Proof.
  intros Hstep (x & Hx & Ho).
  assert (Hkeep : forall k f pr,
    promises st !! k = Some pr -> settled pr = None ->
    has_outcome {| promises := alter f k (promises st);
                   deviceQueues := deviceQueues st |} i o).
  { intros k f pr Hk Hnone. exists x. split; [|done]. simpl.
    rewrite list_lookup_alter_ne; [done|]. intros ->. congruence. }
  destruct Hstep as
    [st d | st k p b Hk Hp | st k p d Hk Hp | st k p d Hk Hp | st k p d o' Hk].
  - unfold enqueueDeviceCommand, getQueueForDevice.
    destruct (deviceQueues st !! d); simpl; exists x; split; try done;
      repeat (apply lookup_app_l_Some); done.
  - by eapply Hkeep.
  - by eapply Hkeep.
  - by eapply Hkeep.
  - by eapply Hkeep.
Qed.

Lemma outcome_stable st st' i o :
  rtc step st st' -> has_outcome st i o -> has_outcome st' i o.
Proof.
  induction 1 as [|x y z Hstep _ IH]; [done|].
  intros H. apply IH. by eapply step_outcome_stable.
Qed.

Lemma queued_reachable : reachable Samples.queued.
Proof.
  unfold reachable, Samples.queued.
  eapply rtc_r; [eapply rtc_r; [eapply rtc_r; [apply rtc_refl|]|]|];
    apply step_enqueue.
Qed.

Lemma bothRunning_reachable : reachable Samples.bothRunning.
Proof.
  unfold reachable, Samples.bothRunning.
  eapply rtc_r; [eapply rtc_r; [eapply rtc_r; [eapply rtc_r|]|]|].
  - apply queued_reachable.
  - apply (step_catch _ 1 0 false); [reflexivity|].
    exists Fulfilled. eexists. split; reflexivity.
  - apply (step_then_call _ 2 1 "device_0"); [reflexivity|].
    eexists. split; reflexivity.
  - apply (step_catch _ 6 5 false); [reflexivity|].
    exists Fulfilled. eexists. split; reflexivity.
  - apply (step_then_call _ 7 6 "device_1"); [reflexivity|].
    eexists. split; reflexivity.
Qed.

Lemma firstFailed_reachable : reachable Samples.firstFailed.
Proof.
  unfold reachable, Samples.firstFailed.
  eapply rtc_r; [apply bothRunning_reachable|].
  by apply (step_task_settles _ 2 1 "device_0" Rejected).
Qed.

(** C5.  In every state the queue can reach: two running tasks of one
    device id are the same task; a task has been called only if every task
    enqueued before it for the same id has settled; a task whose
    predecessors for the id have all settled, by failure or not, can be
    brought to run; a running task can fail, its failure is then the outcome
    of the promise its caller holds, and stays so; [enqueueDeviceCommand]
    hands the caller the promise of a new task of the device that has not
    been called and comes after every earlier task of the device.  And some
    reachable state has tasks of two distinct device ids running at once. *)
Theorem device_queue_serial :
  (forall st, reachable st ->
     (forall d i j, running st d i -> running st d j -> i = j) /\
     (forall d i j,
        is_task st d i -> is_task st d j -> (i < j)%nat -> called st j ->
        is_settled st i) /\
     (forall d j c,
        promises st !! j = Some (mkPromise (ThenTask c d) false None) ->
        (forall i, is_task st d i -> (i < j)%nat -> is_settled st i) ->
        exists st', rtc step st st' /\ running st' d j) /\
     (forall d i,
        running st d i ->
        step st (settle i Rejected st) /\
        forall st', rtc step (settle i Rejected st) st' ->
                    has_outcome st' i Rejected) /\
     (forall d,
        let r := enqueueDeviceCommand d st in
        is_task (snd r) d (fst r) /\
        ~ called (snd r) (fst r) /\
        forall i, is_task st d i -> (i < fst r)%nat)) /\
  (exists st d1 d2 i j,
     reachable st /\ d1 <> d2 /\ running st d1 i /\ running st d2 j).
Proof.
  split.
  - intros st Hreach. pose proof (reachable_wf st Hreach) as Hwf.
    split; [intros d i j; by apply running_exclusive|].
    split; [intros d i j; by apply called_after_earlier_settled|].
    split; [intros d j c; by apply next_task_can_run|].
    split.
    + intros d i (p & Hi). split; [by eapply step_task_settles|].
      intros st' Hst'. eapply outcome_stable; [exact Hst'|].
      eexists. split; [by apply lookup_settle_eq | done].
    + intros d r. subst r.
      destruct (enqueueDeviceCommand_wf d st Hwf) as (Hwf' & Hnew & Hq).
      split; [by eexists _, _, _|].
      split.
      * intros (pr & Hpr & Hst). rewrite Hnew in Hpr. by injection Hpr as <-.
      * intros i Hi.
        assert (Hi' : is_task (snd (enqueueDeviceCommand d st)) d i).
        { destruct Hi as (p & b & o & Hi). exists p, b, o.
          unfold enqueueDeviceCommand, getQueueForDevice.
          destruct (deviceQueues st !! d); simpl;
            repeat (apply lookup_app_l_Some); done. }
        destruct (wf_tail _ Hwf' _ _ Hq) as [[_ Hno]|[_ Hle]];
          [by destruct (Hno i)|].
        specialize (Hle i Hi').
        destruct (decide (i = fst (enqueueDeviceCommand d st))) as [E|E];
          [|lia].
        apply is_task_old in Hi. rewrite E in Hi.
        unfold enqueueDeviceCommand, getQueueForDevice in Hi.
        destruct (deviceQueues st !! d); simpl in Hi;
          rewrite ?length_app in Hi; simpl in Hi; lia.
  - exists Samples.bothRunning, "device_0", "device_1", 2%nat, 7%nat.
    split; [apply bothRunning_reachable|].
    split; [done|]. split; by eexists.
Qed.

(** The sample queue: while the first tasks of both devices run, "device_0"
    has only one running task; once its first task has failed, the caller's
    promise is rejected and its second task can still be brought to run. *)
Lemma device_queue_serial_witness :
  (forall i j,
     running Samples.bothRunning "device_0" i ->
     running Samples.bothRunning "device_0" j -> i = j) /\
  has_outcome Samples.firstFailed 2 Rejected /\
  exists st', rtc step Samples.firstFailed st' /\ running st' "device_0" 4.
Proof.
  destruct device_queue_serial as [H _].
  destruct (H Samples.bothRunning bothRunning_reachable)
    as (Hone & _ & _ & Hfail & _).
  destruct (H Samples.firstFailed firstFailed_reachable)
    as (_ & _ & Hnext & _).
  split; [exact (Hone "device_0")|].
  split.
  - destruct (Hfail "device_0" 2%nat) as [_ Hst]; [by exists 1%nat|].
    apply Hst. apply rtc_refl.
  - apply (Hnext "device_0" 4%nat 3%nat); [reflexivity|].
    intros i (p & b & o & Hi) Hlt.
    destruct i as [|[|[|[|i]]]]; try discriminate Hi; [|lia].
    exists Rejected. eexists. split; reflexivity.
Defined.

(** * Further properties

    How the remaining branches and helpers of the code behave. *)

(** ** The device library *)

Lemma lines_read_S n l :
  lines_read (S n) l = nth 0 l "" :: lines_read n (tail l).
Proof.
  unfold lines_read. simpl. f_equal.
  rewrite <- seq_shift, List.map_map.
  apply List.map_ext. intros i. by destruct l; [destruct i|].
Qed.

Lemma read_lines_spec n :
  forall data p,
  read_lines n data p =
  (data ++ lines_read n (inbound p),
   {| inbound := drop n (inbound p);
      trace := trace p ++ List.map Read (lines_read n (inbound p)) |}).
Proof.
  induction n as [|n IH]; intros data p.
  - simpl. rewrite !app_nil_r, drop_0. by destruct p.
  - cbn [read_lines]. rewrite readResponse_nth. cbv beta iota zeta.
    rewrite IH, lines_read_S. cbn [inbound trace List.map].
    rewrite <- !app_assoc. simpl.
    destruct (inbound p); simpl; [by rewrite drop_nil|done].
Qed.

Lemma length_lines_read n l : length (lines_read n l) = n.
Proof. unfold lines_read. by rewrite length_map, length_seq. Qed.

(** X1: [call] on a registered command writes the command name and nothing
    else, then reads as many lines as the two declared arities add up to; a
    read that times out counts as the empty line.  The result is null
    exactly when both arities are 0, and the catalog and the error output
    are left alone. *)
Theorem call_registered_wire (d : BaseDevice) (cmdName : string) (c : Cmd) :
  cmds d !! cmdName = Some c ->
  let k := (inArg c + outArg c)%nat in
  let got := lines_read k (inbound (port_of d)) in
  let r := call cmdName d in
  trace (port_of (snd r)) = trace (port_of d) ++ Sent cmdName :: List.map Read got /\
  inbound (port_of (snd r)) = drop k (inbound (port_of d)) /\
  fst r = (if (k =? 0)%nat then None else Some got) /\
  length got = k /\
  cmds (snd r) = cmds d /\ errors (snd r) = errors d.
Proof.
  intros Hc k got r. subst r. unfold call. rewrite Hc.
  destruct ((inArg c =? 0)%nat && (outArg c =? 0)%nat) eqn:E.
  - apply andb_prop in E as [E1 E2].
    apply Nat.eqb_eq in E1, E2.
    assert (Hk : k = 0%nat) by (subst k; lia).
    subst got. rewrite Hk. simpl. by rewrite drop_0.
  - assert (Hk : (k =? 0)%nat = false).
    { apply Nat.eqb_neq. intros Hk. subst k.
      apply andb_false_iff in E as [E|E]; apply Nat.eqb_neq in E; lia. }
    rewrite Hk. unfold readCmdMessage. rewrite Hc.
    rewrite read_lines_spec. cbn [fst snd port_of with_port cmds errors
      sendCommand inbound trace]. fold k. fold got.
    rewrite <- app_assoc. simpl.
    repeat split; try done. subst got. apply length_lines_read.
Qed.

(** "getAll" declared with three output lines, on a board that answers with
    two lines only. *)
Lemma call_registered_wire_witness :
  let d := {| port_of := {| inbound := ["12.1"; "0.4"]; trace := [] |};
              cmds := {[ "getAll" := mkCmd "getAll" 0 3 ]}; errors := [] |} in
  trace (port_of (snd (call "getAll" d)))
    = [Sent "getAll"; Read "12.1"; Read "0.4"; Read ""] /\
  fst (call "getAll" d) = Some ["12.1"; "0.4"; ""].
Proof.
  intros d.
  destruct (call_registered_wire d "getAll" (mkCmd "getAll" 0 3))
    as (Ht & _ & Hr & _); [reflexivity|].
  split; [exact Ht | exact Hr].
Defined.

Lemma send_all args :
  forall p,
  fold_left (fun p a => sendCommand a p) args p =
  {| inbound := inbound p; trace := trace p ++ List.map Sent args |}.
Proof.
  induction args as [|a args IH]; intros p; simpl.
  - rewrite app_nil_r. by destruct p.
  - rewrite IH. simpl. by rewrite <- app_assoc.
Qed.

Lemma run_command_args cmdName args dev :
  args <> [] ->
  let out := match cmds dev !! cmdName with
             | Some c => outArg c | None => 0%nat end in
  let got := lines_read out (inbound (port_of dev)) in
  run_command cmdName args dev =
  (if (out =? 0)%nat then None else Some got,
   with_port dev
     {| inbound := drop out (inbound (port_of dev));
        trace := trace (port_of dev)
                 ++ Sent cmdName :: List.map Sent args ++ List.map Read got |}).
Proof.
  intros Hargs out got. unfold run_command.
  destruct args as [|a args]; [done|].
  change (0 <? length (a :: args))%nat with true. cbv beta iota.
  rewrite send_all. fold out.
  destruct out as [|n] eqn:E.
  - subst got. simpl. rewrite drop_0, app_nil_r.
    by rewrite <- app_assoc.
  - change (0 <? S n)%nat with true. cbv beta iota.
    rewrite read_lines_spec. cbn [inbound trace sendCommand app].
    change (S n =? 0)%nat with false. cbv beta iota.
    by rewrite <- !app_assoc.
Qed.

(** X2: a command executed with an explicit, non-empty argument list, and
    not blocked by safe mode, puts on the device's wire the command name,
    then every argument as a line of its own and in order, and then reads as
    many lines as the catalog declares outputs: none for a command the
    catalog does not know.  The number of arguments is not compared with the
    declared input arity.  The invocation is logged with its arguments and
    without an error, and the device is marked OK. *)
Theorem executeCommand_args_wire (s : manager) (deviceId : string)
    (device : deviceInfo) (dev : BaseDevice) (cmdName : string)
    (args : list string) (opts : options) (reply : option (list string)) :
  Map_get deviceId (connectedDevices s) = Some device ->
  revidyneDevice device = Some dev ->
  safeModeEnabled s && isSetCmd cmdName = false ->
  opt_args opts = Some args -> args <> [] ->
  let out := match cmds dev !! cmdName with
             | Some c => outArg c | None => 0%nat end in
  let got := lines_read out (inbound (port_of dev)) in
  let s' := executeCommand deviceId cmdName opts reply s in
  wire deviceId s'
    = Some (trace (port_of dev)
            ++ Sent cmdName :: List.map Sent args ++ List.map Read got) /\
  fst (executeCommand_task device dev cmdName opts reply s)
    = Some (if (out =? 0)%nat then None else Some got) /\
  lastStatus <$> Map_get deviceId (connectedDevices s') = Some "OK" /\
  exists entry,
    last (commandLog s') = Some entry /\
    App.command entry = cmdName /\ App.args entry = args /\
    error entry = "".
Proof.
  intros Hget Hdev Hsafe Hopts Hargs out got s'.
  pose proof (run_command_args cmdName args dev Hargs) as Hrun.
  cbv zeta in Hrun. fold out in Hrun. fold got in Hrun.
  assert (Htask : executeCommand_task device dev cmdName opts reply s =
    let '(result, dev') := run_command cmdName args dev in
    (Some result,
     with_log (with_device s (mark device (Some dev') cmdName "OK"))
       {| deviceName := name device; App.command := cmdName; App.args := args;
          result := if hasPayload result then formatForLog result
                    else "sent (no payload)";
          error := ""; safeMode := false |})).
  { unfold executeCommand_task. by rewrite Hopts. }
  rewrite Hrun in Htask.
  subst s'. unfold executeCommand. rewrite Hget, Hdev, Hsafe, Htask.
  cbn [fst snd]. unfold wire.
  cbn [connectedDevices with_log with_device commandLog].
  erewrite Map_get_set; [|exact Hget|done].
  cbn [revidyneDevice mark with_port port_of trace lastStatus fmap option_fmap option_map].
  repeat split; try done.
  eexists. split; [apply last_addCommandLog|]. done.
Qed.

(** "setKp" with two arguments on a board whose catalog declares one input
    and no output: both arguments go out and nothing is read. *)
Lemma executeCommand_args_wire_witness :
  let dev := {| port_of := {| inbound := ["late"]; trace := [] |};
                cmds := {[ "setKp" := mkCmd "setKp" 1 0 ]}; errors := [] |} in
  let device := mark Samples.generator (Some dev) "" "" in
  let s := with_device (Samples.plant None None) device in
  wire "device_0"
    (executeCommand "device_0" "setKp"
       {| opt_args := Some ["1"; "2"]; opt_prompt_null := false |} None s)
  = Some [Sent "setKp"; Sent "1"; Sent "2"].
Proof.
  intros dev device s.
  destruct (executeCommand_args_wire s "device_0" device dev "setKp" ["1"; "2"]
              {| opt_args := Some ["1"; "2"]; opt_prompt_null := false |} None)
    as (Hw & _); [done..|exact Hw].
Defined.

Lemma getCommands_loop_length budget maxCommands :
  forall cmdName blankStreak lines p,
  (length (fst (getCommands_loop budget maxCommands cmdName blankStreak lines p))
   <= Nat.max (length lines) (Nat.min (length lines + budget) maxCommands))%nat.
Proof.
  induction budget as [|budget IH]; intros cmdName blankStreak lines p.
  { simpl. lia. }
  cbn [getCommands_loop].
  destruct (maxCommands <=? length lines)%nat eqn:Emax; [simpl; lia|].
  apply Nat.leb_gt in Emax.
  destruct (negb (truthy cmdName)).
  - destruct (maxBlankStreak <=? S blankStreak)%nat; [simpl; lia|].
    destruct (readResponse p) as [next p1].
    etrans; [apply IH|]. lia.
  - destruct (String.eqb cmdName "eoc"); [simpl; lia|].
    destruct (readResponse (sendCommand cmdName p)) as [next p2].
    etrans; [apply IH|]. rewrite length_app. simpl. lia.
Qed.

Lemma register_size cs l : (size (register cs l) <= S (size cs))%nat.
Proof.
  unfold register.
  destruct (negb (truthy l) || String.eqb l "eoc"); [lia|].
  destruct (cs !! Device.command (parseCommand l)) eqn:E.
  - rewrite map_size_insert_Some; [lia|done].
  - rewrite map_size_insert_None; [lia|done].
Qed.

Lemma foldl_register_size raw :
  forall cs, (size (foldl register cs raw) <= size cs + length raw)%nat.
Proof.
  induction raw as [|l raw IH]; intros cs; simpl; [lia|].
  etrans; [apply IH|]. pose proof (register_size cs l). lia.
Qed.

(** X3: discovery is bounded.  [getCommands] records at most [maxCommands]
    lines and at most one line per turn of its loop, whatever the firmware
    sends; so [setupCommands], which asks for at most 128, adds at most 128
    commands to the catalog. *)
Theorem getCommands_bounded (budget maxCommands : nat) (p : port)
    (d : BaseDevice) :
  (length (fst (getCommands budget maxCommands p)) <= maxCommands)%nat /\
  (length (fst (getCommands budget maxCommands p)) <= budget)%nat /\
  (size (cmds (setupCommands budget d)) <= size (cmds d) + 128)%nat.
Proof.
  assert (H : forall b m q,
    (length (fst (getCommands b m q)) <= Nat.min b m)%nat).
  { intros b m q. unfold getCommands.
    destruct (readResponse (sendCommand "getCommands" q)) as [first p1].
    etrans; [apply getCommands_loop_length|]. simpl. lia. }
  split; [specialize (H budget maxCommands p); lia|].
  split; [specialize (H budget maxCommands p); lia|].
  unfold setupCommands. specialize (H budget 128%nat (port_of d)).
  destruct (getCommands budget 128 (port_of d)) as [raw q]. simpl in *.
  etrans; [apply foldl_register_size|]. lia.
Qed.




Lemma sent_app l1 l2 : sent (l1 ++ l2) = sent l1 ++ sent l2.
Proof. induction l1 as [|[x|x] l1 IH]; simpl; by rewrite ?IH. Qed.

Lemma reads_app l1 l2 : reads (l1 ++ l2) = reads l1 ++ reads l2.
Proof. induction l1 as [|[x|x] l1 IH]; simpl; by rewrite ?IH. Qed.

Lemma sent_Read l : sent (List.map Read l) = [].
Proof. by induction l. Qed.

Lemma sent_Sent l : sent (List.map Sent l) = l.
Proof. induction l; simpl; congruence. Qed.

Lemma reads_Read l : reads (List.map Read l) = l.
Proof. induction l; simpl; congruence. Qed.

Lemma reads_Sent l : reads (List.map Sent l) = [].
Proof. by induction l. Qed.

Lemma call_sent d k c :
  cmds d !! k = Some c ->
  sent (trace (port_of (snd (call k d)))) = sent (trace (port_of d)) ++ [k] /\
  errors (snd (call k d)) = errors d.
Proof.
  intros Hc. unfold call, readCmdMessage. rewrite Hc.
  destruct ((inArg c =? 0)%nat && (outArg c =? 0)%nat).
  - simpl. by rewrite sent_app.
  - rewrite read_lines_spec. simpl.
    by rewrite !sent_app, sent_Read, app_nil_r.
Qed.








(** ** Identification (AllDevice) *)

Lemma span_all_digits s :
  all_chars is_digit s = true -> span is_digit s = (s, "").
Proof.
  intros H. rewrite <- (append_empty_r s) at 1. by apply span_app.
Qed.

Lemma span_digits_inv s a :
  span is_digit s = (a, "") -> all_chars is_digit s = true.
Proof.
  revert a. induction s as [|c s IH]; intros a; simpl; [done|].
  destruct (is_digit c) eqn:E; [|discriminate].
  destruct (span is_digit s) as [a' b'] eqn:Es. intros [= <- ->].
  by rewrite (IH a').
Qed.

Lemma removeTrailingNumber_cons c r :
  removeTrailingNumber (String c r) =
  if all_chars is_digit (String c r) then ""
  else String c (removeTrailingNumber r).
Proof.
  cbn [removeTrailingNumber].
  destruct (all_chars is_digit (String c r)) eqn:E.
  - by rewrite (span_all_digits _ E).
  - destruct (span is_digit (String c r)) as [a b] eqn:Es.
    destruct a as [|c' a']; [done|]. destruct b as [|c'' b']; [|done].
    apply span_digits_inv in Es. congruence.
Qed.

Lemma all_digits_ends s :
  s <> "" -> all_chars is_digit s = true -> ends_in_digit s = true.
Proof.
  induction s as [|c s IH]; [done|]. intros _ H. simpl in H.
  apply andb_prop in H as [Hc Hs]. destruct s as [|d s]; [done|].
  cbn [ends_in_digit]. by apply IH.
Qed.

Lemma removeTrailingNumber_split s :
  exists ds,
    s = removeTrailingNumber s +:+ ds /\ all_chars is_digit ds = true.
Proof.
  induction s as [|c s (ds & IH1 & IH2)]; [by exists ""|].
  rewrite removeTrailingNumber_cons.
  destruct (all_chars is_digit (String c s)) eqn:E.
  - by exists (String c s).
  - exists ds. simpl. by rewrite <- IH1.
Qed.

Lemma removeTrailingNumber_ends s :
  ends_in_digit (removeTrailingNumber s) = false.
Proof.
  induction s as [|c s IH]; [done|].
  rewrite removeTrailingNumber_cons.
  destruct (all_chars is_digit (String c s)) eqn:E; [done|].
  destruct (removeTrailingNumber s) as [|d t] eqn:Et; [|exact IH].
  simpl. destruct (is_digit c) eqn:Ec; [|done].
  destruct (removeTrailingNumber_split s) as (ds & Hs & Hds).
  rewrite Et in Hs. simpl in Hs. subst ds.
  simpl in E. by rewrite Ec, Hds in E.
Qed.

Lemma removeTrailingNumber_fixed s :
  ends_in_digit s = false -> removeTrailingNumber s = s.
Proof.
  induction s as [|c s IH]; [done|]. intros H.
  rewrite removeTrailingNumber_cons.
  destruct (all_chars is_digit (String c s)) eqn:E.
  - by rewrite all_digits_ends in H.
  - f_equal. destruct s as [|d s]; [done|]. by apply IH.
Qed.

(** X6: [removeTrailingNumber] cuts off the digits at the end of a string and
    nothing else: the argument is the result followed by a run of digits,
    and the result does not end in a digit.  A string that does not end in a
    digit is returned as it is, so applying the function twice changes
    nothing more. *)
Theorem removeTrailingNumber_spec (s : string) :
  (exists ds,
     s = removeTrailingNumber s +:+ ds /\ all_chars is_digit ds = true) /\
  ends_in_digit (removeTrailingNumber s) = false /\
  (ends_in_digit s = false -> removeTrailingNumber s = s) /\
  removeTrailingNumber (removeTrailingNumber s) = removeTrailingNumber s.
Proof.
  split; [apply removeTrailingNumber_split|].
  split; [apply removeTrailingNumber_ends|].
  split; [apply removeTrailingNumber_fixed|].
  apply removeTrailingNumber_fixed, removeTrailingNumber_ends.
Qed.

Lemma removeTrailingNumber_spec_witness :
  removeTrailingNumber "cvt" = "cvt" /\
  removeTrailingNumber "generator12" = "generator".
Proof.
  destruct (removeTrailingNumber_spec "cvt") as (_ & _ & H & _).
  split; [by apply H | reflexivity].
Defined.

Import AllDevice.

Lemma numbered_names (names : list string) (baseName : string) (n : nat) :
  (forall j, (1 <= j <= n)%nat -> In (baseName +:+ pretty j) names) ->
  (n <= length names)%nat.
Proof.
  intros H.
  assert (E : length ((fun j : nat => baseName +:+ pretty j) <$> seq 1 n) = n).
  { rewrite length_fmap. apply length_seq. }
  rewrite <- E at 1. apply submseteq_length, NoDup_submseteq.
  - apply (NoDup_fmap_2 (fun j : nat => baseName +:+ pretty j)), NoDup_seq.
  - intros x Hx. apply list_elem_of_fmap in Hx as (j & -> & Hj).
    apply list_elem_of_In. apply H.
    apply list_elem_of_In, in_seq in Hj. lia.
Qed.

Lemma unique_loop_fresh fuel :
  forall names baseName count,
  (1 <= count)%nat ->
  (forall j, (1 <= j < count)%nat -> In (baseName +:+ pretty j) names) ->
  (length names < fuel + (count - 1))%nat ->
  exists k,
    unique_loop fuel names baseName count = Some (baseName +:+ pretty k) /\
    (count <= k)%nat /\
    ~ In (baseName +:+ pretty k) names /\
    forall j, (1 <= j < k)%nat -> In (baseName +:+ pretty j) names.
Proof.
  induction fuel as [|fuel IH]; intros names baseName count Hc Htaken Hlen.
  - pose proof (numbered_names names baseName (count - 1)) as H.
    assert (count - 1 <= length names)%nat; [|lia].
    apply H. intros j Hj. apply Htaken. lia.
  - cbn [unique_loop].
    destruct (has (baseName +:+ pretty count) names) eqn:E.
    + apply has_In in E.
      destruct (IH names baseName (S count)) as (k & Hk & Hle & Hk');
        [lia| |lia|].
      { intros j Hj. destruct (decide (j = count)) as [->|]; [done|].
        apply Htaken. lia. }
      exists k. split; [done|]. split; [lia|done].
    + exists count. split; [done|]. split; [lia|]. split; [|done].
      intros Hin. apply has_In in Hin. congruence.
Qed.


(** X7: the names handed out by the device manager are fresh.  With enough
    turns for its loop (one more than there are names), [getUniqueDeviceName]
    returns a name that is not in use: the base name itself if that is free,
    otherwise the base name followed by the least number, counting from 1,
    that gives a free name.  So a registry without duplicates stays without
    duplicates when the new name is entered. *)
Theorem getUniqueDeviceName_fresh (fuel : nat) (a : AllDevice)
    (baseName : string) :
  (length (deviceNames a) < fuel)%nat ->
  exists n,
    getUniqueDeviceName fuel a baseName = Some n /\
    ~ In n (deviceNames a) /\
    (NoDup (deviceNames a) -> NoDup (deviceNames a ++ [n])) /\
    (n = baseName \/
     exists k, (1 <= k)%nat /\ n = baseName +:+ pretty k /\
       In baseName (deviceNames a) /\
       forall j, (1 <= j < k)%nat ->
         In (baseName +:+ pretty j) (deviceNames a)).
Proof.
  intros Hfuel. unfold getUniqueDeviceName.
  assert (Hnd : forall n, ~ In n (deviceNames a) ->
    NoDup (deviceNames a) -> NoDup (deviceNames a ++ [n])).
  { intros n Hn H. apply NoDup_app. split; [done|].
    split; [|apply NoDup_singleton].
    intros x Hx Hx'. apply list_elem_of_singleton in Hx'. subst x.
    by apply list_elem_of_In in Hx. }
  destruct (has baseName (deviceNames a)) eqn:E; simpl.
  - apply has_In in E.
    destruct (unique_loop_fresh fuel (deviceNames a) baseName 1)
      as (k & Hk & Hle & Hfree & Htaken); [lia|intros; lia|lia|].
    exists (baseName +:+ pretty k). split; [done|]. split; [done|].
    split; [by apply Hnd|]. right. by exists k.
  - assert (Hfree : ~ In baseName (deviceNames a)).
    { intros Hin. apply has_In in Hin. congruence. }
    exists baseName. split; [done|]. split; [done|].
    split; [by apply Hnd | by left].
Qed.

(** A third generator board: "generator" and "generator1" are taken. *)
Lemma getUniqueDeviceName_fresh_witness :
  getUniqueDeviceName 3
    {| deviceNames := ["generator"; "generator1"]; devices := ∅ |}
    "generator" = Some "generator2".
Proof.
  destruct (getUniqueDeviceName_fresh 3
    {| deviceNames := ["generator"; "generator1"]; devices := ∅ |}
    "generator") as (n & Hn & _); [simpl; lia|].
  rewrite Hn. vm_compute in Hn. congruence.
Defined.




(** ** Command execution *)

Lemma Map_get_set_other k m d :
  id d <> k -> Map_get k (Map_set d m) = Map_get k m.
Proof.
  intros Hk. unfold Map_get.
  induction m as [|x m IH]; simpl.
  - apply String.eqb_neq in Hk. by rewrite Hk.
  - destruct (String.eqb (id x) (id d)) eqn:E; simpl.
    + apply String.eqb_eq in E. rewrite E.
      apply String.eqb_neq in Hk. by rewrite Hk.
    + destruct (String.eqb (id x) k); [done | apply IH].
Qed.

Lemma Map_set_length k m d d' :
  Map_get k m = Some d -> id d' = id d ->
  length (Map_set d' m) = length m.
Proof.
  intros Hget Hid. pose proof (Map_get_id _ _ _ Hget) as Hk.
  unfold Map_get in Hget.
  induction m as [|x m IH]; simpl in *; [done|].
  destruct (String.eqb (id x) k) eqn:E.
  - injection Hget as ->. by rewrite Hid, String.eqb_refl.
  - destruct (String.eqb (id x) (id d')); simpl; [done|]. by rewrite IH.
Qed.

Lemma executeCommand_shape s deviceId cmdName opts reply device dev :
  Map_get deviceId (connectedDevices s) = Some device ->
  revidyneDevice device = Some dev ->
  exists dev' status entry,
    executeCommand deviceId cmdName opts reply s =
      with_log (with_device s (mark device (Some dev') cmdName status)) entry /\
    App.command entry = cmdName /\ deviceName entry = name device.
Proof.
  intros Hget Hdev. unfold executeCommand. rewrite Hget, Hdev.
  destruct (safeModeEnabled s && isSetCmd cmdName).
  { by eexists dev, "BLOCKED", _. }
  unfold executeCommand_task.
  destruct (opt_args opts) as [args|].
  { destruct (run_command cmdName args dev) as [result dev'].
    by eexists dev', "OK", _. }
  destruct (_ && negb (opt_prompt_null opts)).
  - destruct reply as [words|].
    + destruct (run_command cmdName words dev) as [result dev'].
      by eexists dev', "OK", _.
    + by eexists dev, "RUNNING", _.
  - destruct (run_command cmdName [] dev) as [result dev'].
    by eexists dev', "OK", _.
Qed.

Lemma addCommandLog_length entry log :
  (length log <= 500)%nat -> (length (addCommandLog entry log) <= 500)%nat.
Proof.
  intros H. unfold addCommandLog.
  destruct (500 <? length (log ++ [entry]))%nat eqn:E.
  - destruct log as [|x log]; simpl in *; [lia|].
    rewrite length_app. simpl. lia.
  - by apply Nat.ltb_ge in E.
Qed.

(** X9: the footprint of [executeCommand].  If the device is not connected
    or has no transport handle, nothing at all changes.  Otherwise exactly
    one entry is added to the command log, whether the command is blocked,
    cancelled or executed; it names the command and the device, and the
    device's last command is updated.  In every case the other connected
    devices, the available devices and the connection plan are left as they
    were, and a log of at most 500 entries stays at most 500 long. *)
Theorem executeCommand_footprint (s : manager) (deviceId cmdName : string)
    (opts : options) (reply : option (list string)) :
  let s' := executeCommand deviceId cmdName opts reply s in
  (Map_get deviceId (connectedDevices s) = None -> s' = s) /\
  (forall device,
     Map_get deviceId (connectedDevices s) = Some device ->
     revidyneDevice device = None -> s' = s) /\
  (forall device dev,
     Map_get deviceId (connectedDevices s) = Some device ->
     revidyneDevice device = Some dev ->
     exists entry,
       commandLog s' = addCommandLog entry (commandLog s) /\
       App.command entry = cmdName /\ deviceName entry = name device /\
       lastCommand <$> Map_get deviceId (connectedDevices s') = Some cmdName) /\
  (forall other, other <> deviceId ->
     Map_get other (connectedDevices s') = Map_get other (connectedDevices s)) /\
  List.map id (connectedDevices s') = List.map id (connectedDevices s) /\
  availableDevices s' = availableDevices s /\
  connections s' = connections s /\
  ((length (commandLog s) <= 500)%nat -> (length (commandLog s') <= 500)%nat).
Proof.
  intros s'. subst s'.
  destruct (Map_get deviceId (connectedDevices s)) as [device|] eqn:Hget.
  2:{ assert (E : executeCommand deviceId cmdName opts reply s = s).
      { unfold executeCommand. by rewrite Hget. }
      rewrite E. repeat split; try done. }
  destruct (revidyneDevice device) as [dev|] eqn:Hdev.
  2:{ assert (E : executeCommand deviceId cmdName opts reply s = s).
      { unfold executeCommand. by rewrite Hget, Hdev. }
      rewrite E. repeat split; try done.
      intros d dv [= <-] H. congruence. }
  destruct (executeCommand_shape s deviceId cmdName opts reply device dev
              Hget Hdev) as (dev' & status & entry & E & Hc & Hn).
  rewrite E. cbn [with_log with_device connectedDevices availableDevices
                  connections commandLog].
  pose proof (Map_get_id _ _ _ Hget) as Hid.
  split; [done|]. split; [intros d [= <-]; congruence|].
  split.
  { intros d dv [= <-] _. exists entry. repeat split; try done.
    erewrite Map_get_set; [done|exact Hget|done]. }
  split.
  { intros other Hne. apply Map_get_set_other. simpl. congruence. }
  split.
  { clear E. revert Hget. unfold Map_get. generalize (connectedDevices s).
    induction l as [|x l IH]; simpl; [done|].
    destruct (String.eqb (id x) deviceId) eqn:Ex.
    - intros [= ->]. by rewrite String.eqb_refl.
    - intros H. rewrite Hid, Ex. simpl. f_equal. by apply IH. }
  split; [done|]. split; [done|].
  apply addCommandLog_length.
Qed.

(** The generator of the sample plant is told to "init"; the solar tracker,
    which has no transport handle, is not connected at all. *)
Lemma executeCommand_footprint_witness :
  let s := Samples.plant None None in
  let opts := {| opt_args := None; opt_prompt_null := false |} in
  executeCommand "device_1" "init" opts None s = s /\
  length (commandLog (executeCommand "device_0" "init" opts None s)) = 1%nat.
Proof.
  intros s opts.
  destruct (executeCommand_footprint s "device_1" "init" opts None)
    as (H1 & _).
  destruct (executeCommand_footprint s "device_0" "init" opts None)
    as (_ & _ & H3 & _).
  split; [by apply H1|].
  destruct (H3 Samples.generator Samples.generatorBoard) as (e & He & _);
    [done..|].
  by rewrite He.
Defined.

Lemma executeCommand_args_sent s deviceId device dev cmdName args opts reply :
  Map_get deviceId (connectedDevices s) = Some device ->
  revidyneDevice device = Some dev ->
  safeModeEnabled s && isSetCmd cmdName = false ->
  opt_args opts = Some args -> args <> [] ->
  sent <$> wire deviceId (executeCommand deviceId cmdName opts reply s)
    = Some (sent (trace (port_of dev)) ++ cmdName :: args).
Proof.
  intros Hget Hdev Hsafe Hopts Hargs.
  pose proof (run_command_args cmdName args dev Hargs) as Hrun.
  cbv zeta in Hrun.
  unfold executeCommand. rewrite Hget, Hdev, Hsafe.
  unfold executeCommand_task. rewrite Hopts, Hrun.
  cbn [fst snd]. unfold wire.
  cbn [connectedDevices with_log with_device commandLog].
  erewrite Map_get_set; [|exact Hget|done].
  cbn [revidyneDevice mark with_port port_of trace fmap option_fmap
       option_map].
  rewrite sent_app. cbn [sent]. by rewrite sent_app, sent_Sent, sent_Read,
    app_nil_r.
Qed.

Lemma numberToString_small (z : Z) :
  (0 <= z <= 10)%Z -> numberToString (inject_Z z) = pretty (Z.to_nat z).
Proof.
  intros H.
  assert (E : (z = 0 \/ z = 1 \/ z = 2 \/ z = 3 \/ z = 4 \/ z = 5 \/
               z = 6 \/ z = 7 \/ z = 8 \/ z = 9 \/ z = 10)%Z) by lia.
  repeat (destruct E as [->|E]; [vm_compute; reflexivity|]).
  subst z. vm_compute. reflexivity.
Qed.

Lemma fan_clamp (q : Q) :
  JS.max 0 (JS.min 10 (JS.round q)) =
  inject_Z (Z.max 0 (Z.min 10 (Qfloor (q + (1 # 2))))).
Proof.
  unfold JS.round. set (z := Qfloor (q + (1 # 2))).
  unfold JS.min.
  destruct (Qltb (inject_Z z) 10) eqn:E1.
  - apply Qltb_true in E1. change 10 with (inject_Z 10) in E1.
    rewrite <- Zlt_Qlt in E1. rewrite Z.min_r by lia.
    unfold JS.max. destruct (Qltb 0 (inject_Z z)) eqn:E2.
    + apply Qltb_true in E2. change 0 with (inject_Z 0) in E2.
      rewrite <- Zlt_Qlt in E2. by rewrite Z.max_r by lia.
    + apply Qltb_false in E2. change 0 with (inject_Z 0) in E2.
      rewrite <- Zle_Qle in E2. by rewrite Z.max_l by lia.
  - apply Qltb_false in E1. change 10 with (inject_Z 10) in E1.
    rewrite <- Zle_Qle in E1. rewrite Z.min_l by lia. reflexivity.
Qed.

(** X10: what [setFanSpeed] puts on the wire.  Outside safe mode, for a
    connected fan with a transport handle, it sends "setSpeed" and then one
    argument line.  For any number, infinite ones included, the argument is
    a whole number from 0 to 10 in decimal: the value rounded to the nearest
    integer and clamped.  For a value that is not a number the argument is
    the text "NaN". *)
Theorem setFanSpeed_wire (s : manager) (deviceId : string)
    (device : deviceInfo) (dev : BaseDevice) (value : JS.num)
    (reply : option (list string)) :
  Map_get deviceId (connectedDevices s) = Some device ->
  revidyneDevice device = Some dev ->
  safeModeEnabled s = false ->
  exists arg,
    sent <$> wire deviceId (setFanSpeed deviceId value reply s)
      = Some (sent (trace (port_of dev)) ++ ["setSpeed"; arg]) /\
    match value with
    | JS.Fin q =>
        arg = pretty (Z.to_nat (Z.max 0 (Z.min 10 (Qfloor (q + (1 # 2))))))
    | JS.Inf negative => arg = if negative then "0" else "10"
    | JS.NaN => arg = "NaN"
    end /\
    (value <> JS.NaN -> exists n : nat, (n <= 10)%nat /\ arg = pretty n).
Proof.
  intros Hget Hdev Hsafe. unfold setFanSpeed. rewrite Hget.
  eexists. split.
  { eapply executeCommand_args_sent; eauto. by rewrite Hsafe. }
  destruct value as [q|neg|]; cbn [fanSpeedValue].
  - rewrite fan_clamp, numberToString_small by lia.
    split; [done|]. intros _. eexists. split; [|done]. lia.
  - split; [by destruct neg|]. intros _.
    destruct neg; [by exists 0%nat; split; [lia|]
                  |by exists 10%nat; split; [lia|]].
  - split; [done|]. by intros [].
Qed.

(** A fan with an empty catalog, asked for speed 11.5 and for a value that
    is not a number. *)
Lemma setFanSpeed_wire_witness :
  let dev := {| port_of := {| inbound := []; trace := [] |};
                cmds := ∅; errors := [] |} in
  let s := with_device (Samples.plant None None)
             (mark Samples.generator (Some dev) "" "") in
  sent <$> wire "device_0" (setFanSpeed "device_0" (JS.Fin (23 # 2)) None s)
    = Some ["setSpeed"; "10"] /\
  sent <$> wire "device_0" (setFanSpeed "device_0" JS.NaN None s)
    = Some ["setSpeed"; "NaN"].
Proof.
  intros dev s.
  destruct (setFanSpeed_wire s "device_0"
              (mark Samples.generator (Some dev) "" "") dev (JS.Fin (23 # 2))
              None) as (a1 & H1 & E1 & _); [done..|].
  destruct (setFanSpeed_wire s "device_0"
              (mark Samples.generator (Some dev) "" "") dev JS.NaN
              None) as (a2 & H2 & E2 & _); [done..|].
  rewrite H1, H2, E1, E2. split; reflexivity.
Defined.

(** ** The connection plan *)

Lemma stored_stored e : stored (stored e) = stored e.
Proof. unfold stored. simpl. by destruct (kw e) as [[q|b|]|]. Qed.

Lemma kept_truthy ids es :
  forall seen x, In x (kept ids seen es) ->
  JS.truthy (fromId x) = true /\ JS.truthy (toId x) = true /\ stored x = x.
Proof.
  induction es as [|e es IH]; intros seen x; simpl; [done|].
  destruct (JS.truthy (fromId e) && JS.truthy (toId e) &&
            has (fromId e) ids && has (toId e) ids &&
            negb (has (edgeKey (fromId e) (toId e)) seen)) eqn:E;
    [|apply IH].
  intros [<-|Hin]; [|by eapply IH].
  repeat (apply andb_prop in E as [E ?]).
  split; [done|]. split; [done|]. apply stored_stored.
Qed.

Lemma kept_fixed ids l :
  forall seen,
  (forall x, In x l ->
     JS.truthy (fromId x) = true /\ JS.truthy (toId x) = true /\
     In (fromId x) ids /\ In (toId x) ids /\ stored x = x /\
     ~ In (edgeKey (fromId x) (toId x)) seen) ->
  NoDup (List.map (fun x => edgeKey (fromId x) (toId x)) l) ->
  kept ids seen l = l.
Proof.
  induction l as [|e l IH]; intros seen Hl Hnd; simpl; [done|].
  destruct (Hl e) as (H1 & H2 & H3 & H4 & H5 & H6); [by left|].
  simpl in Hnd. apply NoDup_cons in Hnd as [Hx Hnd].
  rewrite H1, H2. apply has_In in H3, H4. rewrite H3, H4.
  destruct (has (edgeKey (fromId e) (toId e)) seen) eqn:E.
  { by apply has_In in E. }
  simpl. rewrite H5. f_equal. apply IH; [|done].
  intros x Hin. destruct (Hl x) as (G1 & G2 & G3 & G4 & G5 & G6); [by right|].
  repeat split; try done.
  rewrite in_app_iff. intros [Hs|[Hs|[]]]; [done|].
  apply Hx. rewrite list_elem_of_In, in_map_iff. by exists x.
Qed.

(** X11: normalization is idempotent.  Normalizing a plan that has just
    been normalized changes nothing, whatever the devices and the edges
    are. *)
Theorem normalizeConnections_idempotent (s : manager) :
  normalizeConnections (normalizeConnections s) = normalizeConnections s.
Proof.
  unfold normalizeConnections at 1 3.
  change (existingIds (normalizeConnections s)) with (existingIds s).
  unfold with_connections. simpl.
  rewrite !normalize_loop_kept. simpl. f_equal.
  apply kept_fixed; [|apply kept_NoDup].
  intros x Hin.
  destruct (kept_truthy _ _ _ _ Hin) as (H1 & H2 & H3).
  destruct (kept_valid _ _ _ _ Hin) as (H4 & H5 & _).
  repeat split; try done. by intros [].
Qed.

Lemma Qsum_app l1 l2 : Qsum (l1 ++ l2) == Qsum l1 + Qsum l2.
Proof. induction l1 as [|x l1 IH]; simpl; [ring|]. rewrite IH. ring. Qed.

Lemma estimate_nonneg s d k :
  est_kw (computeEstimatedKW s d None) = Some k -> 0 <= k.
Proof.
  intros E. pose proof (capOf_estimate s d) as H. unfold capOf in H.
  rewrite E in H. destruct (JS.Qleb 0 k) eqn:Ek; [|done].
  by apply Qleb_true in Ek.
Qed.

Lemma autoAssignConnectionKW_nonneg s from to :
  0 <= autoAssignConnectionKW s from to.
Proof.
  unfold autoAssignConnectionKW.
  destruct (negb (JS.truthy from) || negb (JS.truthy to)); [lra|].
  destruct (getSupplyForDeviceId s from); [|lra].
  destruct (getDemandForDeviceId s to); [|lra].
  apply max_lower.
Qed.

Lemma autoAssignConnectionKW_supply s from to sup :
  getSupplyForDeviceId s from = Some sup ->
  outgoing s from <= sup ->
  outgoing s from + autoAssignConnectionKW s from to <= sup.
Proof.
  intros Hs Hout. unfold autoAssignConnectionKW.
  destruct (negb (JS.truthy from) || negb (JS.truthy to)); [lra|].
  rewrite Hs. destruct (getDemandForDeviceId s to) as [dem|]; [|lra].
  cbv zeta.
  set (t := fold_left _ _ 0).
  assert (Et : t == outgoing s from).
  { subst t. rewrite sum_fold. unfold outgoing. ring. }
  rewrite !max_Qmax, min_Qmin.
  set (o := outgoing s from) in *.
  assert (HA : Qmax 0 (sup - t) <= sup - o) by (apply Q.max_lub; lra).
  pose proof (Q.le_min_l (Qmax 0 (sup - t)) dem) as Hm.
  assert (Qmax 0 (Qmin (Qmax 0 (sup - t)) dem) <= sup - o);
    [apply Q.max_lub; lra | lra].
Qed.

(** X12: creating a connection.  The power given to a new edge is never
    negative, never more than the consumer's estimated demand, and 0 when
    either estimate is missing; together with what the provider already
    gives on its other edges it stays within the provider's estimated
    supply, if those edges did.  A click adds at most the one edge asked for:
    what other providers give is unchanged, and a plan in which no key
    occurs twice stays so. *)
Theorem connectConsumer_respects_supply (s : manager) (from to : string) :
  let r := autoAssignConnectionKW s from to in
  let s' := connectConsumer s from to in
  0 <= r /\
  (forall dem, getDemandForDeviceId s to = Some dem -> r <= dem) /\
  (getSupplyForDeviceId s from = None \/ getDemandForDeviceId s to = None ->
   r = 0) /\
  (forall sup,
     getSupplyForDeviceId s from = Some sup ->
     outgoing s from <= sup -> outgoing s' from <= sup) /\
  (forall p, p <> from -> outgoing s' p == outgoing s p) /\
  (NoDup (keys (connections s)) -> NoDup (keys (connections s'))) /\
  (from <> "" -> to <> "" ->
   In (edgeKey from to) (keys (connections s'))).
Proof.
  intros r s'. subst r s'.
  split; [apply autoAssignConnectionKW_nonneg|].
  split.
  { intros dem Hd. unfold autoAssignConnectionKW.
    assert (0 <= dem).
    { unfold getDemandForDeviceId in Hd.
      destruct (findByDiagramId s to); [|done]. by eapply estimate_nonneg. }
    destruct (negb (JS.truthy from) || negb (JS.truthy to)); [done|].
    rewrite Hd. destruct (getSupplyForDeviceId s from); [|done].
    cbv zeta. rewrite !max_Qmax, min_Qmin.
    apply Q.max_lub; [done | apply Q.le_min_r]. }
  split.
  { unfold autoAssignConnectionKW.
    destruct (negb (JS.truthy from) || negb (JS.truthy to)); [done|].
    intros [->| ->]; [done|]. by destruct (getSupplyForDeviceId s from). }
  assert (Hshape : connectConsumer s from to = s \/
    (JS.truthy from = true /\ JS.truthy to = true /\
     ~ In (edgeKey from to) (keys (connections s)) /\
     connectConsumer s from to =
       with_connections s
         (connections s ++
          [{| fromId := from; toId := to;
              kw := Some (JS.Fin (autoAssignConnectionKW s from to)) |}]))).
  { unfold connectConsumer.
    destruct (JS.truthy to); [|by left].
    destruct (JS.truthy from); [|by left]. simpl.
    destruct (existsb _ (connections s)) eqn:E; [by left|].
    right. repeat split; try done.
    intros Hin. unfold keys in Hin. apply in_map_iff in Hin as (e & He & Hin).
    assert (existsb
      (fun e => String.eqb (edgeKey (fromId e) (toId e)) (edgeKey from to))
      (connections s) = true); [|congruence].
    apply existsb_exists. exists e. split; [done|]. by apply String.eqb_eq. }
  split.
  { intros sup Hs Hout. destruct Hshape as [->|(_ & _ & _ & ->)]; [done|].
    unfold outgoing. cbn [connections with_connections].
    rewrite List.filter_app, List.map_app, Qsum_app. cbn [List.filter fromId].
    rewrite String.eqb_refl. cbn [List.map Qsum getConnectionKW kw].
    pose proof (autoAssignConnectionKW_nonneg s from to) as Hr.
    apply Qleb_true in Hr. rewrite Hr.
    pose proof (autoAssignConnectionKW_supply s from to sup Hs Hout) as H.
    unfold outgoing in H. lra. }
  split.
  { intros p Hp. destruct Hshape as [->|(_ & _ & _ & ->)]; [reflexivity|].
    unfold outgoing. cbn [connections with_connections].
    rewrite List.filter_app, List.map_app, Qsum_app. cbn [List.filter fromId].
    assert (E : String.eqb from p = false) by (apply String.eqb_neq; congruence).
    rewrite E. simpl. ring. }
  split.
  { intros Hnd. destruct Hshape as [->|(_ & _ & Hnew & ->)]; [done|].
    cbn [connections with_connections]. unfold keys. rewrite map_app.
    apply NoDup_app. split; [done|]. split; [|apply NoDup_singleton].
    intros x Hx Hx'. apply list_elem_of_singleton in Hx'. subst x.
    apply Hnew. by apply list_elem_of_In. }
  intros Hf Ht. destruct Hshape as [E|(_ & _ & _ & ->)].
  - unfold connectConsumer in E |- *.
    destruct from as [|c1 f1]; [done|]. destruct to as [|c2 t2]; [done|].
    cbn [JS.truthy negb] in *.
    destruct (existsb _ (connections s)) eqn:Ex.
    + apply existsb_exists in Ex as (e & Hin & He).
      apply String.eqb_eq in He. unfold keys. apply in_map_iff. by exists e.
    + cbn [connections with_connections]. unfold keys.
      rewrite map_app, in_app_iff. right. by left.
  - cbn [connections with_connections]. unfold keys.
    rewrite map_app, in_app_iff. right. by left.
Qed.

(** The solar tracker of the sample plant, estimated at 4 kW and giving
    3 kW already, is connected to a consumer whose demand is not known. *)
Lemma connectConsumer_respects_supply_witness :
  let s := Samples.plant None None in
  autoAssignConnectionKW s "dev:device_1" "dev:device_9" = 0 /\
  outgoing (connectConsumer s "dev:device_1" "dev:device_9") "dev:device_1"
    <= 4.
Proof.
  intros s.
  destruct (connectConsumer_respects_supply s "dev:device_1" "dev:device_9")
    as (_ & _ & H3 & H4 & _).
  split; [apply H3; by right|].
  apply (H4 4); [reflexivity|]. vm_compute. discriminate.
Defined.

Lemma round_mono x y : x <= y -> JS.round x <= JS.round y.
Proof.
  intros H. unfold JS.round. rewrite <- Zle_Qle.
  apply Qfloor_resp_le. lra.
Qed.

Lemma round2_mono x y : x <= y -> JS.round2 x <= JS.round2 y.
Proof.
  intros H. unfold JS.round2.
  assert (H' : JS.round (x * 100) <= JS.round (y * 100))
    by (apply round_mono; lra).
  unfold Qdiv. apply Qmult_le_compat_r; [done|]. by vm_compute.
Qed.

Lemma round2_nonneg x : 0 <= x -> 0 <= JS.round2 x.
Proof.
  intros H. apply (round2_mono 0 x) in H.
  assert (E : JS.round2 0 == 0) by reflexivity. lra.
Qed.





Lemma with_connections_same s : with_connections s (connections s) = s.
Proof. by destruct s. Qed.

Lemma NoDup_map_filter {A B} (f : A -> B) (p : A -> bool) (l : list A) :
  NoDup (List.map f l) -> NoDup (List.map f (List.filter p l)).
Proof.
  induction l as [|x l IH]; simpl; [done|].
  intros H. apply NoDup_cons in H as [Hx Hl].
  destruct (p x); simpl; [|auto].
  apply NoDup_cons. split; [|auto].
  rewrite list_elem_of_In, in_map_iff in *.
  intros (y & Hy & Hin). apply Hx. exists y. split; [done|].
  by apply filter_In in Hin as [Hin _].
Qed.

(** X14: removing a connection.  Removing the edge that a click has just
    created gives back the manager as it was before the click.  Removing an
    edge from a normalized plan leaves a normalized plan: normalizing again
    changes nothing. *)
Theorem removeConnection_undoes_connect (s : manager) (from to : string) :
  (from <> "" -> to <> "" ->
   ~ In (edgeKey from to) (keys (connections s)) ->
   removeConnection (connectConsumer s from to) from to = s) /\
  (let n := removeConnection (normalizeConnections s) from to in
   normalizeConnections n = n).
Proof.
  split.
  - intros Hf Ht Hnew.
    destruct from as [|c1 f1]; [done|]. destruct to as [|c2 t1]; [done|].
    set (from := String c1 f1) in *. set (to := String c2 t1) in *.
    assert (Hold : List.filter
      (fun e => negb (String.eqb (fromId e) from && String.eqb (toId e) to))
      (connections s) = connections s).
    { revert Hnew. unfold keys. induction (connections s) as [|e l IH];
        simpl; [done|].
      intros H. destruct (String.eqb (fromId e) from && String.eqb (toId e) to)
        eqn:E; simpl.
      - apply andb_prop in E as [E1 E2]. apply String.eqb_eq in E1, E2.
        destruct H. left. by rewrite E1, E2.
      - f_equal. apply IH. intros Hin. apply H. by right. }
    unfold connectConsumer. cbn [JS.truthy negb to from].
    fold from to.
    destruct (existsb _ (connections s)) eqn:Ex.
    { exfalso. apply existsb_exists in Ex as (e & Hin & He).
      apply String.eqb_eq in He. apply Hnew. unfold keys.
      apply in_map_iff. by exists e. }
    unfold removeConnection. cbn [JS.truthy negb orb to from].
    fold from to.
    cbn [connections with_connections]. rewrite List.filter_app, Hold.
    cbn [List.filter fromId toId]. rewrite !String.eqb_refl. simpl.
    rewrite app_nil_r. unfold with_connections; simpl. by destruct s.
  - intros n. subst n. unfold removeConnection.
    destruct (negb (JS.truthy from) || negb (JS.truthy to)).
    { unfold normalizeConnections at 1.
      change (existingIds (normalizeConnections s)) with (existingIds s).
      unfold normalizeConnections, with_connections. simpl.
      rewrite !normalize_loop_kept. simpl. f_equal.
      apply kept_fixed; [|apply kept_NoDup].
      intros x Hin.
      destruct (kept_truthy _ _ _ _ Hin) as (H1 & H2 & H3).
      destruct (kept_valid _ _ _ _ Hin) as (H4 & H5 & _).
      repeat split; try done. by intros []. }
    unfold normalizeConnections at 1.
    match goal with
    | |- context [existingIds (with_connections ?m ?l)] =>
        change (existingIds (with_connections m l)) with (existingIds s)
    end.
    unfold normalizeConnections, with_connections. simpl.
    rewrite !normalize_loop_kept. simpl. f_equal.
    apply kept_fixed; [|apply NoDup_map_filter, kept_NoDup].
    intros x Hin. apply filter_In in Hin as [Hin _].
    destruct (kept_truthy _ _ _ _ Hin) as (H1 & H2 & H3).
    destruct (kept_valid _ _ _ _ Hin) as (H4 & H5 & _).
    repeat split; try done. by intros [].
Qed.

(** The generator of the sample plant is connected to a second consumer and
    the connection is removed again. *)
Lemma removeConnection_undoes_connect_witness :
  let s := Samples.plant None None in
  removeConnection (connectConsumer s "dev:device_0" "dev:device_7")
    "dev:device_0" "dev:device_7" = s.
Proof.
  intros s.
  destruct (removeConnection_undoes_connect s "dev:device_0" "dev:device_7")
    as [H _].
  apply H; [done|done|]. vm_compute. intros [H1|[H1|[]]]; discriminate H1.
Defined.

(** ** Estimates and demand inference *)

Lemma clamp01_le1 v : clamp01 v <= 1.
Proof.
  unfold clamp01. destruct v as [n| |]; try lra.
  rewrite max_Qmax, min_Qmin. apply Q.max_lub; [lra | apply Q.le_min_l].
Qed.

(** X15: where an estimate comes from.  The result of [computeEstimatedKW]
    is null exactly when its source is "none".  A value taken from the
    stored estimates is never negative and never above the nameplate: the
    rated watts over 1000 for a consumer, the capacity for a provider.
    Unless manual estimates are preferred, a finite telemetry reading is
    returned as it is; when they are preferred and one is stored for the
    device, telemetry is ignored. *)
Theorem computeEstimatedKW_sources (s : manager) (d : deviceInfo)
    (metric : option (option JS.num)) :
  let r := computeEstimatedKW s d metric in
  let est := default noEst (loadPowerEst s (name d)) in
  (est_kw r = None <-> source r = "none") /\
  (source r = "estimate" ->
   exists k, est_kw r = Some k /\ 0 <= k /\
     ((type d = "consumer" /\
       exists rated, ratedW est = Some (JS.Fin rated) /\ k <= rated / 1000) \/
      (type d = "provider" /\
       exists cap, capacityKW est = Some (JS.Fin cap) /\ k <= cap))) /\
  (forall k, preferManualEstimates s = false ->
     metric = Some (Some (JS.Fin k)) ->
     r = {| est_kw := Some k; source := "telemetry" |}) /\
  (forall e, preferManualEstimates s = true ->
     estimateOf d est = Some e -> r = e).
Proof.
  intros r est. subst r.
  assert (Hest : forall e, estimateOf d est = Some e ->
    source e = "estimate" /\
    exists k, est_kw e = Some k /\ 0 <= k /\
     ((type d = "consumer" /\
       exists rated, ratedW est = Some (JS.Fin rated) /\ k <= rated / 1000) \/
      (type d = "provider" /\
       exists cap, capacityKW est = Some (JS.Fin cap) /\ k <= cap))).
  { intros e He. split.
    { revert He. unfold estimateOf.
      destruct (String.eqb (type d) "consumer").
      - destruct (parsePositiveNumber (ratedW est)); [|done]. by intros [= <-].
      - destruct (String.eqb (type d) "provider"); [|done].
        destruct (parsePositiveNumber (capacityKW est)); [|done].
        by intros [= <-]. }
    revert He. unfold estimateOf.
    destruct (String.eqb (type d) "consumer") eqn:Ec.
    - apply String.eqb_eq in Ec.
      destruct (parsePositiveNumber (ratedW est)) as [rated|] eqn:Er; [|done].
      intros [= <-]. cbn [est_kw].
      pose proof (parsePositiveNumber_nonneg _ _ Er) as Hr.
      pose proof (clamp01_nonneg (default (JS.Fin 1) (utilization est))) as H0.
      pose proof (clamp01_le1 (default (JS.Fin 1) (utilization est))) as H1.
      set (u := clamp01 _) in *. clearbody u.
      assert (Ha : 0 <= rated * u) by (by apply Qmult_le_0_compat).
      assert (Hb : 0 <= rated - rated * u).
      { assert (E : rated - rated * u == rated * (1 - u)) by ring.
        rewrite E. apply Qmult_le_0_compat; lra. }
      set (p := rated * u) in *. clearbody p.
      assert (E1 : p / 1000 == p * (1 # 1000)) by (by unfold Qdiv).
      assert (E2 : rated / 1000 == rated * (1 # 1000)) by (by unfold Qdiv).
      eexists. split; [done|]. split; [lra|].
      left. split; [done|]. exists rated. split; [|lra].
      unfold parsePositiveNumber in Er.
      destruct (ratedW est) as [[n| |]|]; try done.
      destruct (JS.Qltb n 0); [done|]. by injection Er as ->.
    - destruct (String.eqb (type d) "provider") eqn:Ep; [|done].
      apply String.eqb_eq in Ep.
      destruct (parsePositiveNumber (capacityKW est)) as [cap|] eqn:Er;
        [|done].
      intros [= <-]. cbn [est_kw].
      pose proof (parsePositiveNumber_nonneg _ _ Er) as Hr.
      pose proof (clamp01_nonneg (default (JS.Fin 1) (availability est))) as H0.
      pose proof (clamp01_le1 (default (JS.Fin 1) (availability est))) as H1.
      set (u := clamp01 _) in *. clearbody u.
      assert (Ha : 0 <= cap * u) by (by apply Qmult_le_0_compat).
      assert (Hb : 0 <= cap - cap * u).
      { assert (E : cap - cap * u == cap * (1 - u)) by ring.
        rewrite E. apply Qmult_le_0_compat; lra. }
      set (p := cap * u) in *. clearbody p.
      eexists. split; [done|]. split; [lra|].
      right. split; [done|]. exists cap. split; [|lra].
      unfold parsePositiveNumber in Er.
      destruct (capacityKW est) as [[n| |]|]; try done.
      destruct (JS.Qltb n 0); [done|]. by injection Er as ->. }
  unfold computeEstimatedKW. fold est.
  assert (Hfall : forall r,
    r = (if String.eqb (type d) "consumer" || String.eqb (type d) "provider"
         then default {| est_kw := None; source := "none" |} (estimateOf d est)
         else {| est_kw := None; source := "none" |}) ->
    (est_kw r = None <-> source r = "none") /\
    (source r = "estimate" ->
     exists k, est_kw r = Some k /\ 0 <= k /\
     ((type d = "consumer" /\
       exists rated, ratedW est = Some (JS.Fin rated) /\ k <= rated / 1000) \/
      (type d = "provider" /\
       exists cap, capacityKW est = Some (JS.Fin cap) /\ k <= cap)))).
  { intros r ->.
    destruct (String.eqb (type d) "consumer" || String.eqb (type d) "provider");
      [|by split].
    destruct (estimateOf d est) as [e|] eqn:He; [|by split].
    destruct (Hest e eq_refl) as (Hs & k & Hk & Hrest). simpl.
    split; [|intros _; by exists k].
    rewrite Hk, Hs. by split. }
  assert (Hman : forall e, estimateOf d est = Some e ->
    (est_kw e = None <-> source e = "none") /\
    (source e = "estimate" ->
     exists k, est_kw e = Some k /\ 0 <= k /\
     ((type d = "consumer" /\
       exists rated, ratedW est = Some (JS.Fin rated) /\ k <= rated / 1000) \/
      (type d = "provider" /\
       exists cap, capacityKW est = Some (JS.Fin cap) /\ k <= cap)))).
  { intros e He. destruct (Hest e He) as (Hs & k & Hk & Hrest).
    split; [|intros _; by exists k]. rewrite Hk, Hs. by split. }
  split; [|split; [|split]].
  - destruct (preferManualEstimates s).
    + destruct (estimateOf d est) as [e|] eqn:He; [by apply Hman|].
      destruct metric as [[[k| |]|]|]; try (by split);
        apply (Hfall _ eq_refl).
    + destruct metric as [[[k| |]|]|]; try (by split);
        apply (Hfall _ eq_refl).
  - destruct (preferManualEstimates s).
    + destruct (estimateOf d est) as [e|] eqn:He; [by apply Hman|].
      destruct metric as [[[k| |]|]|]; try done; apply (Hfall _ eq_refl).
    + destruct metric as [[[k| |]|]|]; try done; apply (Hfall _ eq_refl).
  - by intros k -> ->.
  - by intros e -> ->.
Qed.

(** The solar tracker of the sample plant with a reading of 2 kW. *)
Lemma computeEstimatedKW_sources_witness :
  computeEstimatedKW (Samples.plant None None) Samples.solar
    (Some (Some (JS.Fin 2)))
  = {| est_kw := Some 2; source := "telemetry" |} /\
  exists k, est_kw (computeEstimatedKW (Samples.plant None None)
                      Samples.solar None) = Some k /\ k <= 4.
Proof.
  destruct (computeEstimatedKW_sources (Samples.plant None None)
              Samples.solar (Some (Some (JS.Fin 2)))) as (_ & _ & H & _).
  destruct (computeEstimatedKW_sources (Samples.plant None None)
              Samples.solar None) as (_ & H' & _).
  split; [by apply H|].
  destruct H' as (k & Hk & _ & [[Hc _]|[_ (cap & Hcap & Hle)]]);
    [reflexivity|discriminate Hc|].
  exists k. split; [exact Hk|]. injection Hcap as <-. exact Hle.
Defined.

Lemma smoothing_range s : 5 # 100 <= smoothing s <= 95 # 100.
Proof.
  unfold smoothing. destruct (autoEstAlpha s) as [[a| |]|]; try lra.
  rewrite max_Qmax, min_Qmin. split; [apply Q.le_max_l|].
  apply Q.max_lub; [lra | apply Q.le_min_l].
Qed.

Lemma stepLimit_range s : 1 # 10 <= stepLimit s.
Proof.
  unfold stepLimit. destruct (autoEstMaxStepKW s) as [[m| |]|]; try lra.
  apply max_lower.
Qed.

(** X16: inference never overshoots.  Whatever the tuning fields hold, an
    update from a previous inferred value moves towards the target, which is
    the largest of 0, the manual demand and the supply, and never beyond it;
    it moves by at most the configured step times the smoothing factor, the
    factor lying between 0.05 and 0.95 and the step being at least 0.1.
    With inference off, or a supply that is not a positive finite number,
    the result is null and the state is untouched; otherwise the value
    returned is the value remembered. *)
Theorem inferDemandKW_no_overshoot (s : inference)
    (totalSupplyKW manualDemandKW : option JS.num) :
  let r := inferDemandKW totalSupplyKW manualDemandKW s in
  (fst r = None -> snd r = s) /\
  (forall next, fst r = Some next ->
     autoEstDemandKW (snd r) = Some (JS.Fin next) /\
     autoEstLastSupplyKW (snd r) = totalSupplyKW /\
     autoEstEnabled s = true /\
     exists supply, totalSupplyKW = Some (JS.Fin supply) /\ 0 < supply) /\
  (autoEstEnabled s = false \/
   match totalSupplyKW with
   | Some (JS.Fin supply) => supply <= 0
   | _ => True
   end -> fst r = None) /\
  (forall prev supply next,
     autoEstDemandKW s = Some (JS.Fin prev) ->
     totalSupplyKW = Some (JS.Fin supply) ->
     fst r = Some next ->
     let manual :=
       match manualDemandKW with Some (JS.Fin m) => m | _ => 0 end in
     let target := Qmax (Qmax 0 manual) supply in
     Qmin prev target <= next <= Qmax prev target /\
     Qabs (next - prev) <= smoothing s * stepLimit s /\
     5 # 100 <= smoothing s <= 95 # 100 /\ 1 # 10 <= stepLimit s).
Proof.
  intros r. subst r. unfold inferDemandKW.
  destruct (autoEstEnabled s) eqn:Hen; cbn [negb].
  2:{ repeat split; done. }
  destruct totalSupplyKW as [[supply| |]|]; try (repeat split; done).
  destruct (JS.Qleb supply 0) eqn:Hs.
  { repeat split; try done. }
  apply Qleb_false in Hs.
  set (manual := match manualDemandKW with Some (JS.Fin m) => m | _ => 0 end).
  rewrite !max_Qmax.
  set (target := Qmax (Qmax 0 manual) supply).
  pose proof (smoothing_range s) as Ha.
  pose proof (stepLimit_range s) as Hm.
  destruct (autoEstDemandKW s) as [[prev| |]|] eqn:Hp;
    cbn [fst snd remember autoEstDemandKW autoEstLastSupplyKW].
  2-4: (split; [done|]); (split; [intros next [= <-]; repeat split; eauto|]);
       (split; [intros [H|H]; [done|lra]|]); by intros.
  split; [done|].
  split; [intros next [= <-]; repeat split; eauto|].
  split; [intros [H|H]; [done|lra]|].
  intros prev' supply' next [= <-] [= <-] [= <-]. cbv zeta.
  rewrite max_Qmax, min_Qmin.
  set (a := smoothing s) in *. set (m := stepLimit s) in *.
  set (c := Qmax (- m) (Qmin m (target - prev))).
  assert (Hc : Qabs c <= m) by (apply clamp_step_bound; lra).
  apply Qabs_Qle_condition in Hc.
  assert (Hdir : 0 <= target - prev -> 0 <= c <= target - prev).
  { intros H. subst c. split.
    - apply Q.max_le_iff. right. apply Q.min_glb; lra.
    - apply Q.max_lub; [lra | apply Q.le_min_r]. }
  assert (Hdir' : target - prev <= 0 -> target - prev <= c <= 0).
  { intros H. subst c. split.
    - apply Q.max_le_iff. right. apply Q.min_glb; lra.
    - apply Q.max_lub; [lra|].
      pose proof (Q.le_min_r m (target - prev)). lra. }
  assert (E : a * (prev + c) + (1 - a) * prev == prev + a * c) by ring.
  clearbody c a m.
  assert (Hac : forall lo hi, lo <= c <= hi -> lo <= 0 -> 0 <= hi ->
                lo <= a * c <= hi).
  { intros lo hi [H1 H2] Hlo Hhi.
    assert (0 <= a * (c - lo)) by (apply Qmult_le_0_compat; lra).
    assert (0 <= a * (hi - c)) by (apply Qmult_le_0_compat; lra).
    assert (0 <= (1 - a) * (- lo)) by (apply Qmult_le_0_compat; lra).
    assert (0 <= (1 - a) * hi) by (apply Qmult_le_0_compat; lra).
    assert (E1 : a * (c - lo) == a * c - a * lo) by ring.
    assert (E2 : a * (hi - c) == a * hi - a * c) by ring.
    assert (E3 : (1 - a) * (- lo) == a * lo - lo) by ring.
    assert (E4 : (1 - a) * hi == hi - a * hi) by ring.
    set (x := a * c) in *. set (y := a * lo) in *. set (z := a * hi) in *.
    clearbody x y z. lra. }
  split; [|split; [|done]].
  - rewrite E. fold target. clearbody target.
    pose proof (Q.le_min_l prev target). pose proof (Q.le_min_r prev target).
    pose proof (Q.le_max_l prev target). pose proof (Q.le_max_r prev target).
    destruct (Qlt_le_dec target prev) as [Hlt|Hle].
    + destruct (Hac (target - prev) 0) as [G1 G2]; [apply Hdir'; lra|lra..|].
      clear Hac E. set (x := a * c) in *. clearbody x. lra.
    + destruct (Hac 0 (target - prev)) as [G1 G2]; [apply Hdir; lra|lra..|].
      clear Hac E. set (x := a * c) in *. clearbody x. lra.
  - assert (E' : a * (prev + c) + (1 - a) * prev - prev == a * c) by ring.
    rewrite E'. apply Qabs_Qle_condition.
    assert (0 <= a * (m - c)) by (apply Qmult_le_0_compat; lra).
    assert (0 <= a * (c + m)) by (apply Qmult_le_0_compat; lra).
    assert (E1 : a * (m - c) == a * m - a * c) by ring.
    assert (E2 : a * (c + m) == a * c + a * m) by ring.
    set (x := a * c) in *. set (y := a * m) in *. clearbody x y. lra.
Qed.

(** Tuning fields out of range (a factor of 3, a step of 0): from 2 kW
    towards a supply of 5 kW the estimate moves up, by no more than 0.095. *)
Lemma inferDemandKW_no_overshoot_witness :
  let s := {| autoEstEnabled := true;
              autoEstDemandKW := Some (JS.Fin 2);
              autoEstLastSupplyKW := None;
              autoEstAlpha := Some (JS.Fin 3);
              autoEstMaxStepKW := Some (JS.Fin 0) |} in
  exists next,
    fst (inferDemandKW (Some (JS.Fin 5)) None s) = Some next /\
    Qmin 2 5 <= next <= Qmax 2 5.
Proof.
  intros s.
  destruct (inferDemandKW_no_overshoot s (Some (JS.Fin 5)) None)
    as (_ & _ & _ & H).
  eexists. split; [reflexivity|].
  destruct (H 2 5 _ eq_refl eq_refl eq_refl) as [Hb _]. exact Hb.
Defined.
(** X17: the auto-estimate settings.  A tuning that has gone through
    [loadAutoEstimateTuning] has its smoothing factor between 0.05 and 0.95
    and its step between 0.1 and 20, whatever was stored, and inference then
    uses exactly these two values.  Setting the switch forgets the inferred
    value: switched on, the next inference returns the target itself, the
    largest of 0, the manual demand and the supply, without smoothing;
    switched off, it returns null. *)
Theorem autoEstimate_settings (raw : option (JS.num * JS.num))
    (s : inference) (supply : Q) (manualDemandKW : option JS.num) :
  let t := loadAutoEstimateTuning raw in
  (5 # 100 <= fst t <= 95 # 100 /\ 1 # 10 <= snd t <= 20) /\
  (smoothing (with_tuning s t) == fst t /\
   stepLimit (with_tuning s t) == snd t) /\
  (0 < supply ->
   let manual :=
     match manualDemandKW with Some (JS.Fin m) => m | _ => 0 end in
   fst (inferDemandKW (Some (JS.Fin supply)) manualDemandKW
          (setAutoEstimateEnabled true s))
   = Some (Qmax (Qmax 0 manual) supply)) /\
  fst (inferDemandKW (Some (JS.Fin supply)) manualDemandKW
         (setAutoEstimateEnabled false s)) = None.
Proof.
  intros t.
  assert (Hr : (5 # 100 <= fst t <= 95 # 100) /\ (1 # 10 <= snd t <= 20)).
  { subst t. unfold loadAutoEstimateTuning.
    destruct raw as [[alpha maxStep]|]; cbn [fst snd]; [|lra].
    split.
    - destruct alpha as [a| |]; try lra.
      rewrite max_Qmax, min_Qmin. split; [apply Q.le_max_l|].
      apply Q.max_lub; [lra | apply Q.le_min_l].
    - destruct maxStep as [m| |]; try lra.
      rewrite max_Qmax, min_Qmin. split; [apply Q.le_max_l|].
      apply Q.max_lub; [lra | apply Q.le_min_l]. }
  split; [exact Hr|]. destruct Hr as [Ha Hm]. split; [|split].
  - unfold smoothing, stepLimit, with_tuning.
    cbn [autoEstAlpha autoEstMaxStepKW]. rewrite !max_Qmax, min_Qmin.
    split.
    + rewrite Q.min_r by lra. by rewrite Q.max_r by lra.
    + by rewrite Q.max_r by lra.
  - intros Hs manual. unfold inferDemandKW, setAutoEstimateEnabled.
    cbn [autoEstEnabled autoEstDemandKW negb].
    assert (E : JS.Qleb supply 0 = false) by by apply Qleb_false.
    rewrite E. cbn [fst]. by rewrite !max_Qmax.
  - done.
Qed.

(** A stored factor of 7 and a stored step of 100. *)
Lemma autoEstimate_settings_witness :
  loadAutoEstimateTuning (Some (JS.Fin 7, JS.Fin 100)) = (95 # 100, 20) /\
  fst (inferDemandKW (Some (JS.Fin 5)) (Some (JS.Fin 6))
         (setAutoEstimateEnabled true
            {| autoEstEnabled := false; autoEstDemandKW := Some (JS.Fin 1);
               autoEstLastSupplyKW := None; autoEstAlpha := None;
               autoEstMaxStepKW := None |}))
  = Some (Qmax (Qmax 0 6) 5).
Proof.
  split; [reflexivity|].
  destruct (autoEstimate_settings None
    {| autoEstEnabled := false; autoEstDemandKW := Some (JS.Fin 1);
       autoEstLastSupplyKW := None; autoEstAlpha := None;
       autoEstMaxStepKW := None |} 5 (Some (JS.Fin 6))) as (_ & _ & H & _).
  apply H. reflexivity.
Defined.

(** ** Mode 2 *)

Lemma Qsum_nonneg l : Forall (fun x => 0 <= x) l -> 0 <= Qsum l.
Proof.
  induction 1 as [|x l Hx Hl IH]; simpl; [lra|]. lra.
Qed.

Lemma supply_of_nonneg s d : 0 <= supply_of s d.
Proof.
  unfold supply_of.
  destruct (est_kw (computeEstimatedKW s d None)) as [k|] eqn:E;
    cbv [from_option Datatypes.id]; [|lra].
  by apply estimate_nonneg in E.
Qed.

Lemma otherSupply_nonneg s : 0 <= otherSupplyKW (computeMode2TargetKW s).
Proof.
  unfold computeMode2TargetKW. cbn [otherSupplyKW].
  rewrite otherSupply_fold.
  assert (0 <= Qsum (List.map (supply_of s)
                       (List.filter other_provider (allDevices s)))); [|lra].
  apply Qsum_nonneg. apply Forall_forall. intros x Hx.
  apply list_elem_of_In, in_map_iff in Hx as (d & <- & _).
  apply supply_of_nonneg.
Qed.

Lemma demand_nonneg s : 0 <= demandKW (computeMode2TargetKW s).
Proof.
  unfold computeMode2TargetKW. cbn [demandKW].
  apply demand_fold_nonneg. lra.
Qed.

Lemma targetRounded_nonneg s gen : 0 <= targetRounded s gen.
Proof.
  rewrite targetRounded_spec. apply round2_nonneg.
  rewrite deficit_spec.
  destruct (capOf s gen) as [cap|] eqn:E; [|apply Q.le_max_l].
  apply Q.min_glb; [apply Q.le_max_l|].
  rewrite capOf_estimate in E. by apply estimate_nonneg in E.
Qed.

(** X18: the load that Mode 2 asks of the generator is never negative, never
    more than the rounded total demand of the plan, and never more than the
    generator's rounded capacity estimate when there is one.  When the other
    providers cover the demand, it is 0. *)
Theorem targetRounded_bounds (s : manager) (gen : deviceInfo) :
  let m := computeMode2TargetKW s in
  0 <= targetRounded s gen /\
  targetRounded s gen <= JS.round2 (demandKW m) /\
  (forall cap, capOf s gen = Some cap ->
     targetRounded s gen <= JS.round2 cap) /\
  (demandKW m <= otherSupplyKW m -> targetRounded s gen == 0).
Proof.
  intros m. subst m.
  pose proof (otherSupply_nonneg s) as Ho.
  pose proof (demand_nonneg s) as Hd.
  pose proof (targetRounded_nonneg s gen) as Hn.
  split; [exact Hn|].
  rewrite targetRounded_spec in *. rewrite deficit_spec in *.
  set (d := demandKW (computeMode2TargetKW s)) in *.
  set (o := otherSupplyKW (computeMode2TargetKW s)) in *.
  assert (Hdef : Qmax 0 (d - o) <= d) by (apply Q.max_lub; lra).
  split; [|split].
  - apply round2_mono. destruct (capOf s gen) as [cap|]; [|done].
    pose proof (Q.le_min_l (Qmax 0 (d - o)) cap). lra.
  - intros cap ->. apply round2_mono. apply Q.le_min_r.
  - intros Hcov.
    assert (Hz : Qmax 0 (d - o) <= 0) by (apply Q.max_lub; lra).
    assert (Hup : JS.round2 match capOf s gen with
                            | Some cap => Qmin (Qmax 0 (d - o)) cap
                            | None => Qmax 0 (d - o)
                            end <= JS.round2 0).
    { apply round2_mono. destruct (capOf s gen) as [cap|]; [|done].
      pose proof (Q.le_min_l (Qmax 0 (d - o)) cap). lra. }
    assert (E : JS.round2 0 == 0) by reflexivity. lra.
Qed.

(** The sample plant: a demand of 10 kW, 4 kW of solar supply and a
    generator estimated at 3 kW. *)
Lemma targetRounded_bounds_witness :
  targetRounded (Samples.plant (Some 3) None) Samples.generator
    <= JS.round2 3.
Proof.
  destruct (targetRounded_bounds (Samples.plant (Some 3) None)
              Samples.generator) as (_ & _ & H & _).
  apply (H 3). reflexivity.
Defined.

Lemma applyConnectionsMode2_releases s :
  connMode2InFlight s = false ->
  connMode2InFlight (applyConnectionsMode2 s) = false.
Proof.
  intros Hfl. unfold applyConnectionsMode2. rewrite Hfl.
  destruct (getConnectedGeneratorDevices _) as [|gen rest]; [done|].
  destruct (safeModeEnabled _); [done|].
  by destruct (isSameTarget _ _ _).
Qed.

(** X19: when Mode 2 stays silent.  While an earlier run is still in flight
    a new run does nothing at all.  Otherwise, with no connected generator
    that offers "setLoad", or in safe mode, the run sends nothing to any
    device and adds nothing to the command log, not even a blocked entry,
    and the target last applied is kept.  Every run that starts releases
    the in-flight guard when it ends. *)
Theorem applyConnectionsMode2_silent (s : manager) :
  (connMode2InFlight s = true -> applyConnectionsMode2 s = s) /\
  (connMode2InFlight s = false ->
   connMode2InFlight (applyConnectionsMode2 s) = false) /\
  (connMode2InFlight s = false ->
   getConnectedGeneratorDevices s = [] \/ safeModeEnabled s = true ->
   let s' := applyConnectionsMode2 s in
   wires s' = wires s /\
   connectedDevices s' = connectedDevices s /\
   commandLog s' = commandLog s /\
   connMode2LastApplied s' = connMode2LastApplied s).
Proof.
  split; [|split].
  - intros H. unfold applyConnectionsMode2. by rewrite H.
  - apply applyConnectionsMode2_releases.
  - intros Hfl Hidle s'. subst s'.
    rewrite applyConnectionsMode2_idle; [done|done|].
    destruct Hidle as [-> | Hsafe]; [done|].
    destruct (getConnectedGeneratorDevices s); [done | by left].
Qed.

(** The sample plant in safe mode. *)
Lemma applyConnectionsMode2_silent_witness :
  let s := {| connectedDevices := [Samples.generator];
              availableDevices := [Samples.solar; Samples.house];
              connections := connections (Samples.plant None None);
              loadPowerEst := Samples.estimates None;
              preferManualEstimates := false;
              safeModeEnabled := true;
              commandLog := [];
              connMode2LastApplied := None;
              connMode2InFlight := false |} in
  wires (applyConnectionsMode2 s) = wires s /\
  commandLog (applyConnectionsMode2 s) = [].
Proof.
  intros s. destruct (applyConnectionsMode2_silent s) as (_ & _ & H).
  destruct H as (Hw & _ & Hl & _); [reflexivity | by right |].
  split; [exact Hw | exact Hl].
Defined.





(** ** The command queue *)

Lemma step_promise_stable st st' k pr :
  step st st' -> promises st !! k = Some pr ->
  exists pr',
    promises st' !! k = Some pr' /\ origin_of pr' = origin_of pr /\
    (started pr = true -> started pr' = true) /\
    (forall o, settled pr = Some o -> settled pr' = Some o).
Proof.
  intros Hstep Hk.
  assert (Halter : forall i f,
    (forall x, origin_of (f x) = origin_of x) ->
    (forall x, started x = true -> started (f x) = true) ->
    (forall x o, promises st !! i = Some x -> settled x = Some o ->
       settled (f x) = Some o) ->
    exists pr',
      alter f i (promises st) !! k = Some pr' /\
      origin_of pr' = origin_of pr /\
      (started pr = true -> started pr' = true) /\
      (forall o, settled pr = Some o -> settled pr' = Some o)).
  { intros i f H1 H2 H3. destruct (decide (i = k)) as [->|Hne].
    - exists (f pr). rewrite list_lookup_alter_eq, Hk. simpl.
      split; [done|]. split; [apply H1|]. split; [apply H2|].
      intros o. by apply H3.
    - exists pr. by rewrite list_lookup_alter_ne. }
  destruct Hstep as
    [st d | st i p b Hi Hp | st i p d Hi Hp | st i p d Hi Hp | st i p d o' Hi];
    simpl.
  - exists pr. split; [|done].
    unfold enqueueDeviceCommand, getQueueForDevice.
    destruct (deviceQueues st !! d); simpl;
      repeat (apply lookup_app_l_Some); done.
  - apply Halter; try done. intros x o Hx. rewrite Hi in Hx.
    injection Hx as <-. done.
  - apply Halter; try done.
  - apply Halter; try done. intros x o Hx. rewrite Hi in Hx.
    injection Hx as <-. done.
  - apply Halter; try done. intros x o Hx. rewrite Hi in Hx.
    injection Hx as <-. done.
Qed.

Lemma promise_stable st st' :
  rtc step st st' ->
  forall k pr, promises st !! k = Some pr ->
  exists pr',
    promises st' !! k = Some pr' /\ origin_of pr' = origin_of pr /\
    (started pr = true -> started pr' = true) /\
    (forall o, settled pr = Some o -> settled pr' = Some o).
Proof.
  induction 1 as [st|st st1 st2 Hstep Hrtc IH]; intros k pr Hk.
  - by exists pr.
  - destruct (step_promise_stable _ _ _ _ Hstep Hk)
      as (pr1 & H1 & Ho1 & Hs1 & Ht1).
    destruct (IH _ _ H1) as (pr2 & H2 & Ho2 & Hs2 & Ht2).
    exists pr2. split; [done|]. split; [congruence|]. split; [auto|].
    intros o Ho. auto.
Qed.

Lemma has_origin_stable st st' k og :
  rtc step st st' -> has_origin st k og -> has_origin st' k og.
Proof.
  intros Hrtc (b & o & Hk).
  destruct (promise_stable _ _ Hrtc _ _ Hk) as ([og' b' o'] & H & Ho & _).
  simpl in Ho. subst og'. by exists b', o'.
Qed.

Lemma called_stable st st' k :
  rtc step st st' -> called st k -> called st' k.
Proof.
  intros Hrtc (pr & Hk & Hs).
  destruct (promise_stable _ _ Hrtc _ _ Hk) as (pr' & H & _ & Hs' & _).
  exists pr'. auto.
Qed.

Lemma wf_rtc st st' : wf st -> rtc step st st' -> wf st'.
Proof.
  intros Hwf Hrtc. induction Hrtc as [st|st st1 st2 Hstep Hrtc IH]; [done|].
  apply IH. by eapply wf_step.
Qed.

Lemma task_can_be_called d :
  forall j st, wf st -> is_task st d j ->
  exists st', rtc step st st' /\ called st' j.
Proof.
  induction j as [j IH] using lt_wf_ind. intros st Hwf Htask.
  pose proof Htask as (c & Hj).
  destruct (wf_chain st Hwf j c d Hj) as (p & Hc & Hcase).
  (* first bring the task before it, if there is one, to an end *)
  assert (Hprep : exists st2,
    rtc step st st2 /\
    forall i, is_task st2 d i -> (i < j)%nat -> is_settled st2 i).
  { destruct Hcase as [[Hres Hfirst]|(Hp & Hlt & Hgap)].
    - exists st. split; [apply rtc_refl|].
      intros i Hi Hij. apply Hfirst in Hi. lia.
    - destruct (IH p Hlt st Hwf Hp) as (st1 & Hrtc1 & Hcalled).
      pose proof (wf_rtc _ _ Hwf Hrtc1) as Hwf1.
      assert (Hend : exists st2, rtc step st1 st2 /\ is_settled st2 p).
      { destruct Hcalled as ([og b [o|]] & Hk & Hs); simpl in Hs; subst b.
        - exists st1. split; [apply rtc_refl|]. exists o. by eexists.
        - destruct Hp as (q & Hq).
          pose proof (has_origin_stable _ _ _ _ Hrtc1 Hq) as (b' & o' & Hq').
          rewrite Hk in Hq'. injection Hq' as -> <- <-.
          exists (settle p Fulfilled st1). split.
          + apply rtc_once. by eapply step_task_settles.
          + exists Fulfilled. eexists. split; [by apply lookup_settle_eq|done]. }
      destruct Hend as (st2 & Hrtc2 & Hset).
      pose proof (wf_rtc _ _ Hwf1 Hrtc2) as Hwf2.
      assert (Hrtc : rtc step st st2) by (by etrans).
      exists st2. split; [done|].
      intros i Hi Hij.
      pose proof (has_origin_stable _ _ _ _ Hrtc Hj) as Hj2.
      pose proof (has_origin_stable _ _ _ _ Hrtc Hc) as Hc2.
      destruct (wf_chain st2 Hwf2 j c d Hj2) as (p' & Hc' & Hcase').
      assert (p' = p).
      { destruct Hc2 as (b1 & o1 & H1). destruct Hc' as (b2 & o2 & H2).
        congruence. }
      subst p'.
      destruct Hcase' as [[Hres _]|(Hp2 & _ & Hgap2)].
      { destruct Hp as (q & Hq).
        pose proof (has_origin_stable _ _ _ _ Hrtc Hq) as (b2 & o2 & H2).
        destruct Hres as (b1 & o1 & H1). congruence. }
      destruct (Hgap2 i Hi) as [Hle|Hge]; [|lia].
      destruct (decide (i = p)) as [->|Hne]; [done|].
      eapply (called_after_earlier_settled st2 d Hwf2 p i); eauto; [lia|].
      by eapply settled_task_called. }
  destruct Hprep as (st2 & Hrtc2 & Hearlier).
  pose proof (wf_rtc _ _ Hwf Hrtc2) as Hwf2.
  pose proof (has_origin_stable _ _ _ _ Hrtc2 Hj) as (b & o & Hj2).
  destruct b.
  { exists st2. split; [done|]. by eexists. }
  destruct o as [o|].
  { destruct (wf_settled st2 Hwf2 _ _ _ _ _ Hj2) as [?|Hrej]; [done|].
    pose proof (has_origin_stable _ _ _ _ Hrtc2 Hc) as Hc2.
    by destruct (catch_never_rejected st2 c p Hwf2 Hc2). }
  destruct (next_task_can_run st2 d j c Hwf2 Hj2 Hearlier)
    as (st3 & Hrtc3 & Hrun).
  exists st3. split; [by etrans|]. by apply (running_called st3 d).
Qed.

(** X21: no task waits for ever and none is skipped.  From every state the
    queue can reach, each task that has been enqueued can still be brought
    to the point where it is called, and from there to its end, whatever has
    happened to the tasks before it; and the promise of a task never settles
    without the task having been called. *)
Theorem device_queue_liveness (st : state) (d : string) (j : nat) :
  reachable st -> is_task st d j ->
  (exists st', rtc step st st' /\ called st' j) /\
  (exists st', rtc step st st' /\ called st' j /\ is_settled st' j) /\
  (is_settled st j -> called st j).
Proof.
  intros Hreach Htask. pose proof (reachable_wf st Hreach) as Hwf.
  destruct (task_can_be_called d j st Hwf Htask) as (st1 & Hrtc1 & Hcalled).
  split; [by exists st1|]. split; [|by apply (settled_task_called st d)].
  destruct Htask as (c & Hj).
  pose proof (has_origin_stable _ _ _ _ Hrtc1 Hj) as (b & o & Hj1).
  destruct Hcalled as (pr & Hpr & Hs). rewrite Hj1 in Hpr.
  injection Hpr as <-. simpl in Hs. subst b.
  destruct o as [o|].
  - exists st1. split; [done|]. split; [by eexists|].
    exists o. by eexists.
  - exists (settle j Fulfilled st1). split; [|split].
    + etrans; [exact Hrtc1|]. apply rtc_once. by eapply step_task_settles.
    + eexists. split; [by apply lookup_settle_eq|done].
    + exists Fulfilled. eexists. split; [by apply lookup_settle_eq|done].
Qed.

(** The second task of "device_0" in the sample queue, of which not even
    the first has been called. *)
Lemma device_queue_liveness_witness :
  exists st', rtc step Samples.queued st' /\ called st' 4.
Proof.
  destruct (device_queue_liveness Samples.queued "device_0" 4) as [H _].
  - apply queued_reachable.
  - exists 3%nat, false, None. reflexivity.
  - exact H.
Defined.

(** ** The serial reader *)

Lemma string_app_assoc (a b c : string) : (a +:+ b) +:+ c = a +:+ (b +:+ c).
Proof. induction a as [|x a IH]; simpl; congruence. Qed.






(** ** Live telemetry *)

Lemma call_cmds k d : cmds (snd (call k d)) = cmds d.
Proof.
  unfold call, readCmdMessage.
  destruct (cmds d !! k) as [c|] eqn:E; [|done].
  destruct ((inArg c =? 0)%nat && (outArg c =? 0)%nat); [done|].
  by destruct (read_lines _ _ _).
Qed.

Lemma safeCall_spec dev cmd :
  cmds (snd (safeCall dev cmd)) = cmds dev /\
  errors (snd (safeCall dev cmd)) = errors dev /\
  sent (trace (port_of (snd (safeCall dev cmd))))
    = sent (trace (port_of dev)) ++ offered dev [cmd] /\
  (zero_arity dev ->
   fst (safeCall dev cmd) = None /\
   reads (trace (port_of (snd (safeCall dev cmd))))
     = reads (trace (port_of dev))).
Proof.
  unfold safeCall, offered. cbn [List.filter].
  destruct (cmds dev !! cmd) as [c|] eqn:E.
  - rewrite bool_decide_eq_true_2 by (by eexists).
    destruct (call_sent dev cmd c E) as [Hs He].
    split; [apply call_cmds|]. split; [done|]. split; [done|].
    intros Hz. destruct (Hz cmd c E) as [Hi Ho].
    unfold call. rewrite E, Hi, Ho. simpl.
    split; [done|]. by rewrite reads_app, app_nil_r.
  - rewrite bool_decide_eq_false_2 by (by intros [? ?]).
    by rewrite app_nil_r.
Qed.

Lemma sanitize_in_range field v :
  field = "volts" \/ field = "kw" ->
  in_range field (sanitizeMetricNumber field v).
Proof.
  intros Hf. unfold sanitizeMetricNumber.
  destruct v as [[q|b|]|]; try done. cbn [JS.isFinite negb].
  destruct Hf as [-> | ->]; cbn [String.eqb Ascii.eqb Bool.eqb andb].
  - change (String.eqb "volts" "volts") with true.
    change (String.eqb "volts" "kw") with false. cbn [andb].
    unfold JS.gt, JS.lt.
    destruct (Qltb q 0) eqn:E1; [done|].
    destruct (Qltb 1000 q) eqn:E2; [done|].
    apply Qltb_false in E1, E2. by split.
  - change (String.eqb "kw" "volts") with false.
    change (String.eqb "kw" "kw") with true. cbn [andb].
    unfold JS.gt, JS.lt, JS.abs.
    destruct (Qltb 1000 (Qabs q)) eqn:E; [done|].
    by apply Qltb_false in E.
Qed.

Lemma zero_arity_cmds dev dev' :
  cmds dev' = cmds dev -> zero_arity dev -> zero_arity dev'.
Proof. unfold zero_arity. by intros ->. Qed.

Lemma offered_cmds dev dev' l :
  cmds dev' = cmds dev -> offered dev' l = offered dev l.
Proof. unfold offered. by intros ->. Qed.

Lemma sampleDevice_spec dev :
  let m := fst (sampleDevice dev) in
  let dev' := snd (sampleDevice dev) in
  cmds dev' = cmds dev /\ errors dev' = errors dev /\
  sent (trace (port_of dev'))
    = sent (trace (port_of dev)) ++ offered dev telemetry_reads /\
  in_range "volts" (volts m) /\ in_range "kw" (kw_of m) /\
  (zero_arity dev ->
   reads (trace (port_of dev')) = reads (trace (port_of dev)) /\
   volts m = None /\ kw_of m = None /\ currentmA m = None).
Proof.
  unfold sampleDevice.
  pose proof (safeCall_spec dev "getAll") as (C1 & E1 & S1 & Z1).
  destruct (safeCall dev "getAll") as [allResp d1]. cbn [fst snd] in *.
  pose proof (safeCall_spec d1 "getKW") as (C2 & E2 & S2 & Z2).
  destruct (safeCall d1 "getKW") as [kwResp d2]. cbn [fst snd] in *.
  pose proof (safeCall_spec d2 "getVolts") as (C3 & E3 & S3 & Z3).
  destruct (safeCall d2 "getVolts") as [voltsResp d3]. cbn [fst snd] in *.
  pose proof (safeCall_spec d3 "getVal") as (C4 & E4 & S4 & Z4).
  destruct (safeCall d3 "getVal") as [valResp d4]. cbn [fst snd] in *.
  pose proof (safeCall_spec d4 "getBV") as (C5 & E5 & S5 & Z5).
  destruct (safeCall d4 "getBV") as [bvResp d5]. cbn [fst snd] in *.
  pose proof (safeCall_spec d5 "getCurrent") as (C6 & E6 & S6 & Z6).
  destruct (safeCall d5 "getCurrent") as [currentResp d6]. cbn [fst snd] in *.
  assert (K1 : cmds d1 = cmds dev) by done.
  assert (K2 : cmds d2 = cmds dev) by congruence.
  assert (K3 : cmds d3 = cmds dev) by congruence.
  assert (K4 : cmds d4 = cmds dev) by congruence.
  assert (K5 : cmds d5 = cmds dev) by congruence.
  cbn [volts kw_of currentmA].
  split; [congruence|]. split; [congruence|].
  split.
  { rewrite S6, S5, S4, S3, S2, S1.
    rewrite (offered_cmds dev d1), (offered_cmds dev d2),
      (offered_cmds dev d3), (offered_cmds dev d4), (offered_cmds dev d5)
      by done.
    rewrite <- !app_assoc. f_equal. unfold offered, telemetry_reads.
    cbn [List.filter].
    repeat (destruct (bool_decide _)); reflexivity. }
  split; [apply sanitize_in_range; by left|].
  split; [apply sanitize_in_range; by right|].
  intros Hz.
  destruct (Z1 Hz) as [-> R1].
  destruct (Z2 (zero_arity_cmds _ _ K1 Hz)) as [-> R2].
  destruct (Z3 (zero_arity_cmds _ _ K2 Hz)) as [-> R3].
  destruct (Z4 (zero_arity_cmds _ _ K3 Hz)) as [-> R4].
  destruct (Z5 (zero_arity_cmds _ _ K4 Hz)) as [-> R5].
  destruct (Z6 (zero_arity_cmds _ _ K5 Hz)) as [-> R6].
  split; [congruence|]. done.
Qed.

Lemma sampleAll_spec ds :
  let ms := fst (sampleAll ds) in
  let ds' := snd (sampleAll ds) in
  Forall2 swept ds ds' /\
  (forall i m, In (i, m) ms ->
     in_range "volts" (volts m) /\ in_range "kw" (kw_of m)) /\
  (forall d dev, In d ds -> revidyneDevice d = Some dev -> zero_arity dev ->
     exists m, In (id d, m) ms /\
       volts m = None /\ kw_of m = None /\ currentmA m = None).
Proof.
  induction ds as [|d ds (IH1 & IH2 & IH3)]; cbn [sampleAll].
  { repeat split; done. }
  destruct (revidyneDevice d) as [dev|] eqn:Hd.
  - pose proof (sampleDevice_spec dev) as (C & E & S & Rv & Rk & Z).
    destruct (sampleDevice dev) as [m dev'].
    destruct (sampleAll ds) as [ms rest']. cbn [fst snd] in *.
    split; [|split].
    + constructor; [|done]. unfold swept. rewrite Hd.
      repeat split; try done. exists dev'. repeat split; try done.
      intros Hz. by destruct (Z Hz).
    + intros i m' [[= <- <-]|Hin]; [done | by apply (IH2 i)].
    + intros d0 dev0 [<-|Hin] Hd0 Hz.
      * rewrite Hd in Hd0. injection Hd0 as <-.
        exists m. split; [by left|]. by destruct (Z Hz) as (_ & ?).
      * destruct (IH3 d0 dev0 Hin Hd0 Hz) as (m0 & Hm0 & ?).
        exists m0. split; [by right | done].
  - destruct (sampleAll ds) as [ms rest']. cbn [fst snd] in *.
    split; [|split].
    + constructor; [|done]. unfold swept. by rewrite Hd.
    + done.
    + intros d0 dev0 [<-|Hin] Hd0 Hz; [congruence|]. by apply (IH3 d0 dev0).
Qed.

(** X23: a telemetry sweep.  To each connected device that has a transport
    handle, [refreshLiveMetrics] sends those of "getAll", "getKW",
    "getVolts", "getVal", "getBV" and "getCurrent" that the catalog of the
    device contains, in this order, and nothing else: never a command that
    starts with "set".  It logs nothing and changes neither the plan nor the
    catalogs.  The voltage and power it stores are null or within the
    accepted ranges.  On a device whose catalog declares no outputs and no
    inputs for any command, as the fixed catalogs of the known boards do,
    the sweep sends its commands but reads no reply, and voltage, power and
    current are all null. *)
Theorem refreshLiveMetrics_sweep (s : manager) :
  let ms := fst (refreshLiveMetrics s) in
  let s' := snd (refreshLiveMetrics s) in
  Forall2 swept (connectedDevices s) (connectedDevices s') /\
  (forall dev c, In c (offered dev telemetry_reads) ->
     isSetCmd c = false /\ is_Some (cmds dev !! c)) /\
  (availableDevices s' = availableDevices s /\
   connections s' = connections s /\ commandLog s' = commandLog s /\
   connMode2LastApplied s' = connMode2LastApplied s) /\
  (forall i m, In (i, m) ms ->
     in_range "volts" (volts m) /\ in_range "kw" (kw_of m)) /\
  (forall d dev,
     In d (connectedDevices s) -> revidyneDevice d = Some dev ->
     zero_arity dev ->
     exists m, In (id d, m) ms /\
       volts m = None /\ kw_of m = None /\ currentmA m = None).
Proof.
  intros ms s'. subst ms s'. unfold refreshLiveMetrics.
  pose proof (sampleAll_spec (connectedDevices s)) as (H1 & H2 & H3).
  destruct (sampleAll (connectedDevices s)) as [ms ds]. cbn [fst snd] in *.
  split; [done|]. split; [|split; [done|split; done]].
  intros dev c Hin. unfold offered in Hin. apply filter_In in Hin as [Hc Hreg].
  split.
  - unfold telemetry_reads in Hc. simpl in Hc.
    repeat (destruct Hc as [<-|Hc]; [reflexivity|]). done.
  - by apply bool_decide_eq_true_1 in Hreg.
Qed.

(** The generator of the sample plant, whose catalog holds "getKW" and
    "setLoad" without outputs, has a reply pending. *)
Lemma refreshLiveMetrics_sweep_witness :
  let board := {| port_of := {| inbound := ["3.2"]; trace := [] |};
                  cmds := cmds Samples.generatorBoard; errors := [] |} in
  let s := with_device (Samples.plant None None)
             (mark Samples.generator (Some board) "" "") in
  exists m,
    In ("device_0", m) (fst (refreshLiveMetrics s)) /\
    kw_of m = None /\
    wire "device_0" (snd (refreshLiveMetrics s)) = Some [Sent "getKW"].
Proof.
  intros board s.
  destruct (refreshLiveMetrics_sweep s) as (_ & _ & _ & _ & H).
  destruct (H (mark Samples.generator (Some board) "" "") board)
    as (m & Hin & _ & Hk & _).
  - by left.
  - reflexivity.
  - intros k c Hk. unfold board, Samples.generatorBoard in Hk.
    cbn [cmds] in Hk.
    apply lookup_insert_Some in Hk as [[_ <-]|[_ Hk]]; [done|].
    apply lookup_singleton_Some in Hk as [_ <-]. done.
  - exists m. split; [exact Hin|]. split; [exact Hk | reflexivity].
Defined.

(** ** Text escaping *)

Lemma replaceAll_char p rep c r :
  replaceAll (String p "") rep (String c r) =
  (if Ascii.eqb p c then rep else String c "")
    +:+ replaceAll (String p "") rep r.
Proof.
  unfold replaceAll. cbn [replaceAll_from matchesAt String.length Nat.sub].
  rewrite andb_true_r. by destruct (Ascii.eqb p c).
Qed.

Lemma replaceAll_char_app p rep a b :
  replaceAll (String p "") rep (a +:+ b) =
  replaceAll (String p "") rep a +:+ replaceAll (String p "") rep b.
Proof.
  induction a as [|c a IH]; [done|].
  cbn [String.append]. rewrite !replaceAll_char, IH.
  by rewrite string_app_assoc.
Qed.

Lemma encodeAttr_cons c r :
  encodeAttr (String c r) = entity false c +:+ encodeAttr r.
Proof.
  unfold encodeAttr, dquote.
  rewrite replaceAll_char, !replaceAll_char_app. f_equal.
  unfold entity. cbn [andb].
  destruct (Ascii.eqb_spec c "&") as [->|H1]; [reflexivity|].
  destruct (Ascii.eqb_spec c "<") as [->|H2]; [reflexivity|].
  destruct (Ascii.eqb_spec c ">") as [->|H3]; [reflexivity|].
  destruct (Ascii.eqb_spec c (ascii_of_nat 34)) as [->|H4]; [reflexivity|].
  assert (E1 : Ascii.eqb "&" c = false) by (apply Ascii.eqb_neq; congruence).
  assert (E2 : Ascii.eqb "<" c = false) by (apply Ascii.eqb_neq; congruence).
  assert (E3 : Ascii.eqb ">" c = false) by (apply Ascii.eqb_neq; congruence).
  assert (E4 : Ascii.eqb (ascii_of_nat 34) c = false)
    by (apply Ascii.eqb_neq; congruence).
  rewrite E1.
  repeat (rewrite replaceAll_char; rewrite ?E2, ?E3, ?E4;
          change (replaceAll ?p ?r "") with ""; cbn [String.append]).
  reflexivity.
Qed.

Lemma escapeHtml_cons c r :
  escapeHtml (String c r) = entity true c +:+ escapeHtml r.
Proof.
  unfold escapeHtml, dquote, apostrophe.
  rewrite replaceAll_char, !replaceAll_char_app. f_equal.
  unfold entity. cbn [andb].
  destruct (Ascii.eqb_spec c "&") as [->|H1]; [reflexivity|].
  destruct (Ascii.eqb_spec c "<") as [->|H2]; [reflexivity|].
  destruct (Ascii.eqb_spec c ">") as [->|H3]; [reflexivity|].
  destruct (Ascii.eqb_spec c (ascii_of_nat 34)) as [->|H4]; [reflexivity|].
  destruct (Ascii.eqb_spec c (ascii_of_nat 39)) as [->|H5]; [reflexivity|].
  assert (E1 : Ascii.eqb "&" c = false) by (apply Ascii.eqb_neq; congruence).
  assert (E2 : Ascii.eqb "<" c = false) by (apply Ascii.eqb_neq; congruence).
  assert (E3 : Ascii.eqb ">" c = false) by (apply Ascii.eqb_neq; congruence).
  assert (E4 : Ascii.eqb (ascii_of_nat 34) c = false)
    by (apply Ascii.eqb_neq; congruence).
  assert (E5 : Ascii.eqb (ascii_of_nat 39) c = false)
    by (apply Ascii.eqb_neq; congruence).
  rewrite E1.
  repeat (rewrite replaceAll_char; rewrite ?E2, ?E3, ?E4, ?E5;
          change (replaceAll ?p ?r "") with ""; cbn [String.append]).
  reflexivity.
Qed.

Lemma encodeAttr_escaped s : encodeAttr s = escaped false s.
Proof.
  induction s as [|c s IH]; [done|]. by rewrite encodeAttr_cons, IH.
Qed.

Lemma escapeHtml_escaped s : escapeHtml s = escaped true s.
Proof.
  induction s as [|c s IH]; [done|]. by rewrite escapeHtml_cons, IH.
Qed.

Lemma replaceAll_other pat' rep c Y :
  Ascii.eqb "&" c = false ->
  replaceAll (String "&" pat') rep (String c Y) =
  String c (replaceAll (String "&" pat') rep Y).
Proof.
  intros E. unfold replaceAll. cbn [replaceAll_from matchesAt].
  by rewrite E.
Qed.

Lemma decodeAttr_entity c Y :
  decodeAttr (entity false c +:+ Y) = String c (decodeAttr Y).
Proof.
  unfold decodeAttr, entity, dquote. cbn [andb].
  destruct (Ascii.eqb_spec c "&") as [->|H1]; [reflexivity|].
  destruct (Ascii.eqb_spec c "<") as [->|H2]; [reflexivity|].
  destruct (Ascii.eqb_spec c ">") as [->|H3]; [reflexivity|].
  destruct (Ascii.eqb_spec c (ascii_of_nat 34)) as [->|H4]; [reflexivity|].
  assert (E1 : Ascii.eqb "&" c = false) by (apply Ascii.eqb_neq; congruence).
  cbn [String.append]. by rewrite !replaceAll_other.
Qed.

Lemma occurs_app c a b : occurs c (a +:+ b) = occurs c a || occurs c b.
Proof.
  induction a as [|x a IH]; [done|]. simpl. by rewrite IH, orb_assoc.
Qed.

Lemma escaped_clean quotes c s :
  c = "<"%char \/ c = ">"%char \/ c = ascii_of_nat 34 \/
  (quotes = true /\ c = ascii_of_nat 39) ->
  occurs c (escaped quotes s) = false.
Proof.
  intros Hc. induction s as [|x s IH]; [done|].
  cbn [escaped]. rewrite occurs_app, IH, orb_false_r.
  unfold entity.
  destruct (Ascii.eqb_spec x "&") as [->|H1].
  { destruct Hc as [->|[->|[->|[_ ->]]]]; reflexivity. }
  destruct (Ascii.eqb_spec x "<") as [->|H2].
  { destruct Hc as [->|[->|[->|[_ ->]]]]; reflexivity. }
  destruct (Ascii.eqb_spec x ">") as [->|H3].
  { destruct Hc as [->|[->|[->|[_ ->]]]]; reflexivity. }
  destruct (Ascii.eqb_spec x (ascii_of_nat 34)) as [->|H4].
  { destruct Hc as [->|[->|[->|[_ ->]]]]; reflexivity. }
  destruct (Ascii.eqb_spec x (ascii_of_nat 39)) as [->|H5].
  { destruct quotes; destruct Hc as [->|[->|[->|[Hq ->]]]];
      try reflexivity. discriminate Hq. }
  rewrite andb_false_r. cbn [occurs]. rewrite orb_false_r.
  apply Ascii.eqb_neq.
  destruct Hc as [->|[->|[->|[_ ->]]]]; congruence.
Qed.

(** X24: attribute values survive the round trip.  [decodeAttr] undoes
    [encodeAttr] on every string, also on one that already contains text
    that looks like an entity; and an encoded value contains no double
    quote and no angle bracket: it is the value with each of the four
    special characters replaced by its entity. *)
Theorem decodeAttr_encodeAttr (value : string) :
  decodeAttr (encodeAttr value) = value /\
  encodeAttr value = escaped false value /\
  occurs (ascii_of_nat 34) (encodeAttr value) = false /\
  occurs "<" (encodeAttr value) = false /\
  occurs ">" (encodeAttr value) = false.
Proof.
  split.
  { rewrite encodeAttr_escaped.
    induction value as [|c s IH]; [done|].
    cbn [escaped]. by rewrite decodeAttr_entity, IH. }
  split; [apply encodeAttr_escaped|].
  rewrite encodeAttr_escaped.
  repeat split; apply escaped_clean; auto.
Qed.

(** X25: [escapeHtml] leaves no character that could open or close a tag or
    an attribute value: its result is the text with each ampersand, angle
    bracket, double quote and apostrophe replaced by its entity, so that
    none of the last four occurs in it. *)
Theorem escapeHtml_clean (s : string) :
  escapeHtml s = escaped true s /\
  occurs "<" (escapeHtml s) = false /\
  occurs ">" (escapeHtml s) = false /\
  occurs (ascii_of_nat 34) (escapeHtml s) = false /\
  occurs (ascii_of_nat 39) (escapeHtml s) = false.
Proof.
  split; [apply escapeHtml_escaped|].
  rewrite escapeHtml_escaped.
  repeat split; apply escaped_clean; auto.
Qed.

(** ** Firmware command lists *)






(** ** The device panels *)

Lemma Map_get_None k m : Map_get k m = None <-> ~ In k (List.map id m).
Proof.
  unfold Map_get. induction m as [|x m IH]; simpl; [tauto|].
  destruct (String.eqb (id x) k) eqn:E.
  - apply String.eqb_eq in E. split; [done|]. intros H. destruct H. by left.
  - apply String.eqb_neq in E. rewrite IH. tauto.
Qed.

Lemma Map_get_Some_In k m d : Map_get k m = Some d -> In d m /\ id d = k.
Proof.
  unfold Map_get. intros H. apply find_some in H as [Hin E].
  by apply String.eqb_eq in E.
Qed.

Lemma Map_set_absent d m :
  Map_get (id d) m = None -> Map_set d m = m ++ [d].
Proof.
  unfold Map_get. induction m as [|x m IH]; simpl; [done|].
  destruct (String.eqb (id x) (id d)); [done|]. intros H. by rewrite IH.
Qed.

Lemma Map_get_delete k m : Map_get k (Map_delete k m) = None.
Proof.
  apply Map_get_None. unfold Map_delete. intros H.
  apply in_map_iff in H as (d & Hd & Hin).
  apply filter_In in Hin as [_ Hne]. subst k.
  by rewrite String.eqb_refl in Hne.
Qed.

Lemma Map_delete_perm k m d :
  NoDup (List.map id m) -> Map_get k m = Some d ->
  m ≡ₚ d :: Map_delete k m.
Proof.
  unfold Map_get, Map_delete. induction m as [|x m IH]; simpl; [done|].
  intros Hnd. apply NoDup_cons in Hnd as [Hx Hnd].
  destruct (String.eqb (id x) k) eqn:E; simpl.
  - intros [= ->]. apply String.eqb_eq in E. apply Permutation_cons; [done|].
    assert (Hall : forall y, In y m -> negb (String.eqb (id y) k) = true).
    { intros y Hy. apply negb_true_iff, String.eqb_neq. intros Ey.
      apply Hx. rewrite list_elem_of_In, in_map_iff. exists y.
      split; [congruence|done]. }
    assert (Hf : List.filter (fun d => negb (String.eqb (id d) k)) m = m).
    { clear -Hall. induction m as [|y m IH]; simpl; [done|].
      rewrite Hall by (by left). f_equal. apply IH.
      intros z Hz. apply Hall. by right. }
    by rewrite Hf.
  - intros H. rewrite (IH Hnd H) at 1. apply Permutation_swap.
Qed.

Lemma Map_get_snoc d m :
  Map_get (id d) m = None -> Map_get (id d) (m ++ [d]) = Some d.
Proof.
  unfold Map_get. induction m as [|x m IH]; simpl.
  - by rewrite String.eqb_refl.
  - destruct (String.eqb (id x) (id d)); [done | exact IH].
Qed.

Lemma moveDevice_pair (k : string) (src dst : list deviceInfo) d :
  NoDup (List.map id (dst ++ src)) -> Map_get k src = Some d ->
  Map_set d dst ++ Map_delete k src ≡ₚ dst ++ src /\
  Map_delete k src ++ Map_set d dst ≡ₚ src ++ dst /\
  Map_get k (Map_set d dst) = Some d /\
  Map_get k (Map_delete k src) = None.
Proof.
  intros Hnd Hget.
  destruct (Map_get_Some_In _ _ _ Hget) as [Hin Hid]. subst k.
  rewrite List.map_app in Hnd. apply NoDup_app in Hnd as (Hd & Hdisj & Hs).
  assert (Habs : Map_get (id d) dst = None).
  { apply Map_get_None. intros H. apply (Hdisj (id d)).
    - by apply list_elem_of_In.
    - apply list_elem_of_In, in_map. done. }
  rewrite (Map_set_absent _ _ Habs).
  pose proof (Map_delete_perm _ _ _ Hs Hget) as Hp.
  split; [|split; [|split]].
  - rewrite <- app_assoc. simpl. by rewrite <- Hp.
  - rewrite (Permutation_app_comm _ (dst ++ [d])), <- app_assoc. simpl.
    rewrite <- Hp. apply Permutation_app_comm.
  - by apply Map_get_snoc.
  - apply Map_get_delete.
Qed.

(** X27: moving a device between the two panels.  As long as no id occurs
    twice among the devices, a move neither loses nor duplicates a device:
    afterwards the two panels together hold the same devices as before, and
    still no id occurs twice.  A device that is moved is found in the panel
    it was moved to and no longer in the other; a move of an id that the
    source panel does not hold changes nothing.  The plan and the command
    log are not touched. *)
Theorem moveDevice_conserves (s : manager) (deviceId targetLocation : string) :
  NoDup (List.map id (allDevices s)) ->
  let s' := moveDevice deviceId targetLocation s in
  allDevices s' ≡ₚ allDevices s /\
  NoDup (List.map id (allDevices s')) /\
  (forall device, targetLocation = "connected" ->
     Map_get deviceId (availableDevices s) = Some device ->
     Map_get deviceId (connectedDevices s') = Some device /\
     Map_get deviceId (availableDevices s') = None) /\
  (forall device, targetLocation <> "connected" ->
     Map_get deviceId (connectedDevices s) = Some device ->
     Map_get deviceId (availableDevices s') = Some device /\
     Map_get deviceId (connectedDevices s') = None) /\
  (Map_get deviceId (connectedDevices s) = None ->
   Map_get deviceId (availableDevices s) = None -> s' = s) /\
  connections s' = connections s /\ commandLog s' = commandLog s.
Proof.
  intros Hnd s'. subst s'. unfold allDevices in *. unfold moveDevice.
  assert (Hnd' : NoDup (List.map id (availableDevices s ++ connectedDevices s))).
  { assert (P : List.map id (availableDevices s ++ connectedDevices s)
                ≡ₚ List.map id (connectedDevices s ++ availableDevices s))
      by apply Permutation_map, Permutation_app_comm.
    by rewrite P. }
  assert (Hkeep : forall l,
    l ≡ₚ connectedDevices s ++ availableDevices s -> NoDup (List.map id l)).
  { intros l Hl.
    assert (P : List.map id l
                ≡ₚ List.map id (connectedDevices s ++ availableDevices s))
      by by apply Permutation_map.
    by rewrite P. }
  destruct (String.eqb targetLocation "connected") eqn:Et.
  - apply String.eqb_eq in Et. subst targetLocation.
    destruct (Map_get deviceId (availableDevices s)) as [d|] eqn:Hget.
    + destruct (moveDevice_pair deviceId (availableDevices s)
                  (connectedDevices s) d Hnd Hget) as (P1 & _ & G1 & G2).
      cbn [connectedDevices availableDevices with_devices connections
           commandLog].
      split; [done|]. split; [by apply Hkeep|].
      split; [by intros d' _ [= <-]|]. split; [done|]. by split.
    + repeat split; try done.
  - apply String.eqb_neq in Et.
    destruct (Map_get deviceId (connectedDevices s)) as [d|] eqn:Hget.
    + destruct (moveDevice_pair deviceId (connectedDevices s)
                  (availableDevices s) d Hnd' Hget) as (_ & P2 & G1 & G2).
      cbn [connectedDevices availableDevices with_devices connections
           commandLog].
      split; [done|]. split; [by apply Hkeep|].
      split; [done|]. split; [by intros d' _ [= <-]|]. by split.
    + repeat split; try done.
Qed.

(** In the sample plant the solar tracker is moved to the connected
    panel. *)
Lemma moveDevice_conserves_witness :
  List.map id (connectedDevices
                 (moveDevice "device_1" "connected" (Samples.plant None None)))
  = ["device_0"; "device_1"] /\
  Map_get "device_1"
    (availableDevices
       (moveDevice "device_1" "connected" (Samples.plant None None))) = None.
Proof.
  destruct (moveDevice_conserves (Samples.plant None None) "device_1"
              "connected") as (_ & _ & H & _).
  { apply (bool_decide_unpack _). vm_compute. reflexivity. }
  destruct (H Samples.solar eq_refl eq_refl) as [_ H2].
  split; [reflexivity | exact H2].
Defined.

(** ** The flow editor *)

Lemma splice_out_spec {A} (i : nat) (l : list A) (x : A) :
  nth_error l i = Some x ->
  l = take i l ++ x :: drop (S i) l /\
  S (length (splice_out i l)) = length l /\
  l ≡ₚ x :: splice_out i l.
Proof.
  intros H.
  assert (E : l = take i l ++ x :: drop (S i) l).
  { rewrite <- (take_drop i l) at 1. f_equal.
    revert i H. induction l as [|y l IH]; intros [|i] H; simpl in *;
      try done.
    - by injection H as ->.
    - by apply IH. }
  split; [done|]. unfold splice_out. split.
  - rewrite E at 3. rewrite !length_app. simpl. lia.
  - rewrite E at 1. by rewrite Permutation_middle.
Qed.

Lemma splice_in_spec {A} (i : nat) (x : A) (l : list A) :
  (i <= length l)%nat ->
  nth_error (splice_in i x l) i = Some x /\
  splice_out i (splice_in i x l) = l /\
  splice_in i x l ≡ₚ x :: l.
Proof.
  intros Hi. unfold splice_in, splice_out.
  assert (Hlen : length (take i l) = i) by (rewrite length_take; lia).
  split; [|split].
  - rewrite nth_error_app2 by lia. by rewrite Hlen, Nat.sub_diag.
  - rewrite take_app_length' by done.
    replace (S i) with (i + 1)%nat by lia.
    rewrite (drop_app_add' _ _ i 1 (eq_sym Hlen)). simpl. rewrite drop_0.
    apply take_drop.
  - rewrite <- Permutation_middle. by rewrite take_drop.
Qed.

(** X28: reordering the flow.  [reorderFlow] never loses or duplicates a
    step: the result has the steps of the original, as many as before.  With
    both indices in range and different, the step that was at [fromIndex] is
    afterwards at [toIndex], and the other steps keep their order: removing
    the moved step from the result gives what removing it from the original
    gives.  With an index out of range, or both equal, nothing changes. *)
Theorem reorderFlow_permutes {A} (fromIndex toIndex : Z) (flowSteps : list A) :
  let r := reorderFlow fromIndex toIndex flowSteps in
  let n := Z.of_nat (length flowSteps) in
  r ≡ₚ flowSteps /\ length r = length flowSteps /\
  ((0 <= fromIndex < n)%Z -> (0 <= toIndex < n)%Z -> fromIndex <> toIndex ->
   nth_error r (Z.to_nat toIndex)
     = nth_error flowSteps (Z.to_nat fromIndex) /\
   removeFlowStep toIndex r = removeFlowStep fromIndex flowSteps) /\
  (~ (0 <= fromIndex < n)%Z \/ ~ (0 <= toIndex < n)%Z \/
   fromIndex = toIndex -> r = flowSteps).
Proof.
  intros r n. subst r. unfold reorderFlow. fold n.
  destruct (Z.eqb_spec fromIndex toIndex) as [->|Hne].
  { repeat split; try done. }
  destruct (Z.ltb_spec fromIndex 0) as [Hf0|Hf0]; cbn [orb].
  { repeat split; try done; lia. }
  destruct (Z.leb_spec n fromIndex) as [Hfn|Hfn].
  { repeat split; try done; lia. }
  destruct (Z.ltb_spec toIndex 0) as [Ht0|Ht0]; cbn [orb].
  { repeat split; try done; lia. }
  destruct (Z.leb_spec n toIndex) as [Htn|Htn].
  { repeat split; try done; lia. }
  destruct (nth_error flowSteps (Z.to_nat fromIndex)) as [moved|] eqn:Hm.
  2:{ apply nth_error_None in Hm. lia. }
  destruct (splice_out_spec _ _ _ Hm) as (_ & Hlen & Hperm).
  destruct (splice_in_spec (Z.to_nat toIndex) moved
              (splice_out (Z.to_nat fromIndex) flowSteps))
    as (Hnth & Hout & Hperm'); [lia|].
  assert (Hl : length (splice_in (Z.to_nat toIndex) moved
                 (splice_out (Z.to_nat fromIndex) flowSteps))
               = length flowSteps).
  { rewrite Hperm'. simpl. lia. }
  split; [by rewrite Hperm', <- Hperm|]. split; [done|].
  split; [|intros [H|[H|H]]; lia].
  intros _ _ _. split; [done|].
  unfold removeFlowStep. rewrite Hl. fold n.
  destruct (Z.ltb_spec toIndex 0); [lia|].
  destruct (Z.leb_spec n toIndex); [lia|].
  destruct (Z.ltb_spec fromIndex 0); [lia|].
  destruct (Z.leb_spec n fromIndex); [lia|].
  exact Hout.
Qed.

(** The third of four steps is dragged to the front. *)
Lemma reorderFlow_permutes_witness :
  reorderFlow 2 0 ["a"; "b"; "c"; "d"] = ["c"; "a"; "b"; "d"] /\
  removeFlowStep 0 (reorderFlow 2 0 ["a"; "b"; "c"; "d"])
    = removeFlowStep 2 ["a"; "b"; "c"; "d"].
Proof.
  destruct (reorderFlow_permutes 2 0 ["a"; "b"; "c"; "d"])
    as (_ & _ & H & _).
  split; [reflexivity|]. apply H; simpl; lia.
Defined.

(** ** Totals of the plan *)

Lemma bump_lookup k' v (m : gmap string Q) k :
  bump k' v m !! k =
  if String.eqb k' k then Some (default 0 (m !! k') + v) else m !! k.
Proof.
  unfold bump. destruct (String.eqb_spec k' k) as [->|H].
  - apply lookup_insert_eq.
  - by apply lookup_insert_ne.
Qed.

Lemma totals_fold_exact (key : edge -> string) (es : list edge) :
  forall (m : gmap string Q) k,
  let r := fold_left (fun acc e => bump (key e) (getConnectionKW e) acc) es m in
  (r !! k = None <->
   m !! k = None /\ forall e, In e es -> key e <> k) /\
  (forall v, r !! k = Some v ->
     v == default 0 (m !! k)
          + Qsum (List.map getConnectionKW
                    (List.filter (fun e => String.eqb (key e) k) es))).
Proof.
  induction es as [|e es IH]; intros m k; cbn [fold_left List.filter].
  { split.
    - split; [by intros H | by intros [H _]].
    - intros v ->. cbv [from_option Datatypes.id]. simpl. ring. }
  destruct (IH (bump (key e) (getConnectionKW e) m) k) as [IHn IHs].
  cbv zeta in IHn, IHs. rewrite bump_lookup in IHn, IHs.
  destruct (String.eqb_spec (key e) k) as [Ek|Ek].
  - subst k. split.
    + split.
      * intros H. apply IHn in H as [H _]. done.
      * intros [_ H]. destruct (H e); [by left | done].
    + intros v Hv. rewrite (IHs v Hv).
      cbv [from_option Datatypes.id]. cbn [List.map Qsum]. ring.
  - split.
    + rewrite IHn. split.
      * intros [H1 H2]. split; [done|]. intros x [<-|Hx]; [done | by apply H2].
      * intros [H1 H2]. split; [done|]. intros x Hx. apply H2. by right.
    + exact IHs.
Qed.

Lemma fold_pair_split (es : list edge) :
  forall (acc : gmap string Q * gmap string Q),
  fold_left
    (fun acc e =>
       let k := getConnectionKW e in
       (bump (fromId e) k (fst acc), bump (toId e) k (snd acc)))
    es acc
  = (fold_left (fun a e => bump (fromId e) (getConnectionKW e) a) es (fst acc),
     fold_left (fun a e => bump (toId e) (getConnectionKW e) a) es (snd acc)).
Proof.
  induction es as [|e es IH]; intros [a b]; simpl; [done|]. by rewrite IH.
Qed.

(** X30: the totals of the plan are exact.  In the result of
    [computeConnTotals], a device has an entry among the givers exactly when
    an edge leaves it, and the entry equals the sum of the powers that count
    for these edges; likewise among the takers for the edges that arrive at
    it. *)
Theorem computeConnTotals_exact (s : manager) (k : string) :
  let giveBy := fst (computeConnTotals s) in
  let getBy := snd (computeConnTotals s) in
  (giveBy !! k = None <-> forall e, In e (connections s) -> fromId e <> k) /\
  (forall v, giveBy !! k = Some v -> v == outgoing s k) /\
  (getBy !! k = None <-> forall e, In e (connections s) -> toId e <> k) /\
  (forall v, getBy !! k = Some v -> v == incoming s k).
Proof.
  intros giveBy getBy. subst giveBy getBy. unfold computeConnTotals.
  rewrite fold_pair_split. cbn [fst snd].
  destruct (totals_fold_exact fromId (connections s) ∅ k) as [G1 G2].
  destruct (totals_fold_exact toId (connections s) ∅ k) as [T1 T2].
  cbv zeta in G1, G2, T1, T2. rewrite lookup_empty in G1, G2, T1, T2.
  split; [rewrite G1; tauto|].
  split.
  { intros v Hv. rewrite (G2 v Hv). unfold outgoing.
    cbv [from_option Datatypes.id]. ring. }
  split; [rewrite T1; tauto|].
  intros v Hv. rewrite (T2 v Hv). unfold incoming.
  cbv [from_option Datatypes.id]. ring.
Qed.

(** The house of the sample plant takes 7 kW and 3 kW. *)
Lemma computeConnTotals_exact_witness :
  exists v,
    snd (computeConnTotals (Samples.plant None None)) !! "dev:device_2"
      = Some v /\ v == 10.
Proof.
  destruct (computeConnTotals_exact (Samples.plant None None) "dev:device_2")
    as (_ & _ & _ & H).
  eexists. split; [reflexivity|].
  rewrite (H _ eq_refl). reflexivity.
Defined.

(** ** Diagram ids *)

Lemma startsWith_dev s : JS.startsWith "dev:" ("dev:" +:+ s) = true.
Proof. unfold JS.startsWith. simpl. by destruct s. Qed.

Lemma getConnDiagramId_prefixed d :
  JS.startsWith "dev:" (getConnDiagramId d) = true.
Proof.
  unfold getConnDiagramId.
  set (base := if JS.truthy (id d) then id d else _).
  destruct (JS.startsWith "dev:" base) eqn:E; [done|].
  apply startsWith_dev.
Qed.

(** X29: diagram ids.  The id under which a device appears in the diagram
    always starts with "dev:", and the block built for the diagram has the
    same diagram id as the device it was built from.  For a device with an
    id of its own that does not start with "dev:" already, the diagram id is
    that id with "dev:" put in front, so that two such devices with different
    ids get different diagram ids; but a device whose id is the same text
    with "dev:" in front shares its diagram id with the first. *)
Theorem getConnDiagramId_stable (d d' : deviceInfo) :
  JS.startsWith "dev:" (getConnDiagramId d) = true /\
  getConnDiagramId (toDiagramDevice d) = getConnDiagramId d /\
  (id d <> "" -> JS.startsWith "dev:" (id d) = false ->
   getConnDiagramId d = "dev:" +:+ id d /\
   (id d' <> "" -> JS.startsWith "dev:" (id d') = false ->
    getConnDiagramId d = getConnDiagramId d' -> id d = id d') /\
   (id d' = "dev:" +:+ id d -> getConnDiagramId d' = getConnDiagramId d)).
Proof.
  split; [apply getConnDiagramId_prefixed|]. split.
  { pose proof (getConnDiagramId_prefixed d) as H.
    pose proof (getConnDiagramId_nonempty d) as Hne.
    unfold getConnDiagramId at 1. cbn [id toDiagramDevice].
    destruct (getConnDiagramId d) as [|c r] eqn:E; [done|].
    cbn [JS.truthy]. by rewrite H. }
  assert (Hown : forall x, id x <> "" -> JS.startsWith "dev:" (id x) = false ->
    getConnDiagramId x = "dev:" +:+ id x).
  { intros x Hx Hs. unfold getConnDiagramId.
    destruct (id x) as [|c r] eqn:E; [done|]. cbn [JS.truthy].
    by rewrite Hs. }
  intros Hd Hs. split; [by apply Hown|]. split.
  - intros Hd' Hs' E. rewrite !Hown in E by done.
    by apply String.app_inj in E.
  - intros E. rewrite (Hown d Hd Hs). unfold getConnDiagramId. rewrite E.
    destruct (id d) as [|c r]; [done|].
    change (JS.truthy ("dev:" +:+ String c r)) with true. cbv iota.
    by rewrite startsWith_dev.
Qed.

(** The generator of the sample plant, "device_0", and a device that calls
    itself "dev:device_0". *)
Lemma getConnDiagramId_stable_witness :
  getConnDiagramId Samples.generator = "dev:device_0" /\
  getConnDiagramId (mkInfo "dev:device_0" "x" "consumer" [] None "" "" "" "" "")
    = getConnDiagramId Samples.generator.
Proof.
  destruct (getConnDiagramId_stable Samples.generator
              (mkInfo "dev:device_0" "x" "consumer" [] None "" "" "" "" ""))
    as (_ & _ & H).
  destruct H as (H1 & _ & H3); [done|done|].
  split; [exact H1 | by apply H3].
Defined.
